(** * Task processing system (C++ implementation): task lifecycle, workers,
      round-robin orchestrator, statistics and calculations.

    The development follows the sources file by file:
    - [task.h] / [task.cpp]            : modules [TaskData], [Task] and the status helpers;
    - [calculations.h] / [.cpp]        : module [calculations];
    - [worker.h] / [worker.cpp]        : modules [WorkerStats], [Worker];
    - [orchestrator.h] / [.cpp]        : modules [SystemStats], [OrchestratorConfig],
                                         [TaskOrchestrator] and, for the HTTP handlers, [routes];
    - [main.cpp]                       : module [main] (the command line).

    Conventions.
    - A C++ [int] is a [Z]; the only arithmetic on [int]s is in
      [calculations], where on the inputs that pass validation every
      intermediate value is far below [2^31].
    - [std::atomic<uint64_t>] and [std::atomic<size_t>] counters are [Z] with
      the wrap-around at [2^64] written out ([incr64], [add64]); [size_t] is
      taken to be 64 bits wide.
    - [std::string] is [string]; [std::unordered_map<std::string, Task>] is a
      [gmap string Task.t]; [std::queue<Task>] is a list, head first.
    - A function that can throw returns [exception + A].
    - Threads are interleaved at the granularity of the critical sections,
      see [System]; [Worker::addTask] is taken as one step although it
      holds the queue lock and the storage lock one after the other. *)

From Stdlib Require Import ZArith String Ascii List Lia Znumtheory.
From Stdlib Require Import DecimalString.
From stdpp Require Import base gmap strings list fin_maps.

Set Warnings "-register-all".

Local Open Scope string_scope.
Local Open Scope Z_scope.

(** ** Machine integers *)

Definition two64 : Z := 2 ^ 64.

(** [x++] on a [std::atomic<uint64_t>] and [fetch_add(1)] on a
    [std::atomic<size_t>]. *)
Definition incr64 (x : Z) : Z := (x + 1) mod two64.

(** [a += b] on a [uint64_t]. *)
Definition add64 (a b : Z) : Z := (a + b) mod two64.

(** [static_cast<int>] of a 64-bit JSON integer. *)
Definition to_int32 (z : Z) : Z := (z + 2 ^ 31) mod 2 ^ 32 - 2 ^ 31.

(** ** Exceptions *)

Inductive exception : Type :=
| invalid_argument (what : string)
| runtime_error (what : string)
| json_exception (what : string).

Definition what (e : exception) : string :=
  match e with
  | invalid_argument s => s
  | runtime_error s => s
  | json_exception s => s
  end.

(** ** JSON values

    The fragment of [nlohmann::json] that the [from_json] functions read
    and the [to_json] functions and the handlers write.  An object lists
    its fields in the order the code writes them; it is only ever read
    by key. *)

Module json.

Inductive t : Type :=
| null
| number_integer (z : Z)
| str (s : string)
| object (fields : list (string * t)).

Fixpoint find (fields : list (string * t)) (key : string) : option t :=
  match fields with
  | [] => None
  | (k, v) :: rest => if String.eqb k key then Some v else find rest key
  end.

Definition contains (j : t) (key : string) : bool :=
  match j with
  | object fields => match find fields key with Some _ => true | None => false end
  | _ => false
  end.

Definition at_ (j : t) (key : string) : exception + t :=
  match j with
  | object fields =>
      match find fields key with
      | Some v => inr v
      | None => inl (json_exception ("key '" ++ key ++ "' not found"))
      end
  | _ => inl (json_exception "cannot use at() with a non-object")
  end.

Definition get_string (j : t) : exception + string :=
  match j with
  | str s => inr s
  | _ => inl (json_exception "type must be string")
  end.

Definition get_int (j : t) : exception + Z :=
  match j with
  | number_integer z => inr (to_int32 z)
  | _ => inl (json_exception "type must be number")
  end.


(** [j[key] = v] on an object: the value of the key is replaced, or the
    key is added. *)
Fixpoint set_field (fields : list (string * t)) (key : string) (v : t)
    : list (string * t) :=
  match fields with
  | [] => [(key, v)]
  | (k, old) :: rest =>
      if String.eqb k key then (k, v) :: rest else (k, old) :: set_field rest key v
  end.

End json.

(** ** task.h *)

Inductive Priority : Type := LOW | MEDIUM | HIGH.

Inductive TaskStatus : Type := PENDING | PROCESSING | COMPLETED | FAILED.

#[global] Instance TaskStatus_eq_dec : EqDecision TaskStatus.
Proof. solve_decision. Defined.

Definition taskStatusToString (status : TaskStatus) : string :=
  match status with
  | PENDING => "pending"
  | PROCESSING => "processing"
  | COMPLETED => "completed"
  | FAILED => "failed"
  end.

Definition stringToTaskStatus (status : string) : TaskStatus :=
  if String.eqb status "pending" then PENDING
  else if String.eqb status "processing" then PROCESSING
  else if String.eqb status "completed" then COMPLETED
  else if String.eqb status "failed" then FAILED
  else PENDING.

(** [static_cast<int>(priority)]. *)
Definition Priority_to_int (priority : Priority) : Z :=
  match priority with LOW => 1 | MEDIUM => 2 | HIGH => 3 end.

Definition priorityToString (priority : Priority) : string :=
  match priority with
  | LOW => "low"
  | MEDIUM => "medium"
  | HIGH => "high"
  end.

Definition stringToPriority (priority : string) : Priority :=
  if String.eqb priority "low" || String.eqb priority "1" then LOW
  else if String.eqb priority "medium" || String.eqb priority "2" then MEDIUM
  else if String.eqb priority "high" || String.eqb priority "3" then HIGH
  else MEDIUM.

Module TaskData.

Record t : Type := mk {
  type : string;
  input : Z;
  operation : string
}.

(** [TaskData::from_json]: any exception of the JSON library is re-thrown
    as [std::invalid_argument]. *)
Definition from_json (j : json.t) : exception + t :=
  let body : exception + t :=
    match json.at_ j "type" with
    | inl e => inl e
    | inr jt =>
      match json.get_string jt with
      | inl e => inl e
      | inr ty =>
        match json.at_ j "input" with
        | inl e => inl e
        | inr ji =>
          match json.get_int ji with
          | inl e => inl e
          | inr inp =>
            match json.at_ j "operation" with
            | inl e => inl e
            | inr jo =>
              match json.get_string jo with
              | inl e => inl e
              | inr op => inr (mk ty inp op)
              end
            end
          end
        end
      end
    end in
  match body with
  | inl e => inl (invalid_argument ("Invalid TaskData JSON: " ++ what e))
  | inr d => inr d
  end.

(** [TaskData::to_json]. *)
Definition to_json (data : t) : json.t :=
  json.object
    [ ("type", json.str (type data));
      ("input", json.number_integer (input data));
      ("operation", json.str (operation data)) ].

End TaskData.

Module Task.

Record t : Type := mk {
  id_ : string;
  title_ : string;
  priority_ : Priority;
  created_at_ : Z;
  data_ : TaskData.t;
  status_ : TaskStatus;
  result_ : string;
  error_message_ : string
}.

(** [Task::Task(id, title, priority, data)]; [now] is the value of
    [std::chrono::system_clock::now()] at construction. *)
Definition create (now : Z) (id title : string) (priority : Priority)
    (data : TaskData.t) : t :=
  mk id title priority now data PENDING "" "".

Definition getId (task : t) : string := id_ task.
Definition getTitle (task : t) : string := title_ task.
Definition getPriority (task : t) : Priority := priority_ task.
Definition getCreatedAt (task : t) : Z := created_at_ task.
Definition getData (task : t) : TaskData.t := data_ task.
Definition getStatus (task : t) : TaskStatus := status_ task.
Definition getResult (task : t) : string := result_ task.
Definition getErrorMessage (task : t) : string := error_message_ task.

Definition setStatus (task : t) (status : TaskStatus) : t :=
  mk (id_ task) (title_ task) (priority_ task) (created_at_ task)
     (data_ task) status (result_ task) (error_message_ task).

Definition setResult (task : t) (result : string) : t :=
  mk (id_ task) (title_ task) (priority_ task) (created_at_ task)
     (data_ task) (status_ task) result (error_message_ task).

Definition setErrorMessage (task : t) (error : string) : t :=
  mk (id_ task) (title_ task) (priority_ task) (created_at_ task)
     (data_ task) (status_ task) (result_ task) error.

(** [std::string::empty()]. *)
Definition empty (s : string) : bool := String.eqb s "".

(** [Task::isValid], one early return per [if]. *)
Definition isValid (task : t) : bool :=
  let data := data_ task in
  let op := TaskData.operation data in
  let inp := TaskData.input data in
  if empty (id_ task) || empty (title_ task) then false
  else if negb (String.eqb (TaskData.type data) "calculation") then false
  else if negb (String.eqb op "factorial")
          && negb (String.eqb op "fibonacci")
          && negb (String.eqb op "prime_check") then false
  else if (inp <? 0) || (inp >? 100000) then false
  else if String.eqb op "factorial" && (inp >? 20) then false
  else if String.eqb op "fibonacci" && (inp >? 1000) then false
  else if String.eqb op "prime_check" && (inp <? 2) then false
  else true.

(** The optional fields of [Task::from_json]. *)
Definition read_priority (j : json.t) : exception + Priority :=
  if json.contains j "priority" then
    match json.at_ j "priority" with
    | inl e => inl e
    | inr jp =>
      match json.get_int jp with
      | inl e => inl e
      | inr priority_value =>
          inr (if (priority_value >=? 1) && (priority_value <=? 3) then
                 (if priority_value =? 1 then LOW
                  else if priority_value =? 2 then MEDIUM else HIGH)
               else MEDIUM)
      end
    end
  else inr MEDIUM.

Definition read_optional_string (j : json.t) (key : string) : exception + option string :=
  if json.contains j key then
    match json.at_ j key with
    | inl e => inl e
    | inr js =>
      match json.get_string js with
      | inl e => inl e
      | inr s => inr (Some s)
      end
    end
  else inr None.

(** [Task::from_json]: builds the task with the constructor, then installs
    the caller's ["status"], ["result"] and ["error"] when present. *)
Definition from_json (now : Z) (j : json.t) : exception + t :=
  let body : exception + t :=
    match json.at_ j "id" with
    | inl e => inl e
    | inr jid =>
      match json.get_string jid with
      | inl e => inl e
      | inr id =>
        match json.at_ j "title" with
        | inl e => inl e
        | inr jtitle =>
          match json.get_string jtitle with
          | inl e => inl e
          | inr title =>
            match read_priority j with
            | inl e => inl e
            | inr priority =>
              match json.at_ j "data" with
              | inl e => inl e
              | inr jdata =>
                match TaskData.from_json jdata with
                | inl e => inl e
                | inr data =>
                  let task := create now id title priority data in
                  match read_optional_string j "status" with
                  | inl e => inl e
                  | inr ostatus =>
                    let task :=
                      match ostatus with
                      | Some s => setStatus task (stringToTaskStatus s)
                      | None => task
                      end in
                    match read_optional_string j "result" with
                    | inl e => inl e
                    | inr oresult =>
                      let task :=
                        match oresult with
                        | Some s => setResult task s
                        | None => task
                        end in
                      match read_optional_string j "error" with
                      | inl e => inl e
                      | inr oerror =>
                        inr (match oerror with
                             | Some s => setErrorMessage task s
                             | None => task
                             end)
                      end
                    end
                  end
                end
              end
            end
          end
        end
      end
    end in
  match body with
  | inl e => inl (invalid_argument ("Invalid Task JSON: " ++ what e))
  | inr task => inr task
  end.

(** [Task::to_json]; [put_time] is the formatting of [created_at_] by
    [std::put_time(std::gmtime(...), "%Y-%m-%dT%H:%M:%SZ")]. *)
Definition to_json (put_time : Z -> string) (task : t) : json.t :=
  let j :=
    [ ("id", json.str (id_ task));
      ("title", json.str (title_ task));
      ("priority", json.number_integer (Priority_to_int (priority_ task)));
      ("created_at", json.str (put_time (created_at_ task)));
      ("data", TaskData.to_json (data_ task));
      ("status", json.str (taskStatusToString (status_ task))) ] in
  let j :=
    if negb (empty (result_ task))
    then json.set_field j "result" (json.str (result_ task)) else j in
  let j :=
    if negb (empty (error_message_ task))
    then json.set_field j "error" (json.str (error_message_ task)) else j in
  json.object j.

End Task.

(** [TaskComparator::operator()] of task.h: by priority, then by creation
    time. *)
Definition TaskComparator (a b : Task.t) : bool :=
  if negb (Priority_to_int (Task.getPriority a) =? Priority_to_int (Task.getPriority b))
  then Priority_to_int (Task.getPriority a) <? Priority_to_int (Task.getPriority b)
  else Task.getCreatedAt a >? Task.getCreatedAt b.

(** ** calculations.cpp *)

Module calculations.

(** [std::to_string(int)]. *)
Definition to_string (z : Z) : string := NilZero.string_of_int (Z.to_int z).

(** The inner [for] of [factorial]: multiplies the little-endian digit
    vector by [i]; returns the new digits and the carry left at the end. *)
Fixpoint multiply_digits (result : list Z) (i carry : Z) : list Z * Z :=
  match result with
  | [] => ([], carry)
  | d :: rest =>
      let prod := d * i + carry in
      let '(rest', carry') := multiply_digits rest i (Z.quot prod 10) in
      (Z.rem prod 10 :: rest', carry')
  end.

(** [while (carry) { result.push_back(carry % 10); carry /= 10; }];
    [|carry|] strictly decreases, so [Z.abs_nat carry] rounds suffice. *)
Fixpoint push_carry (fuel : nat) (carry : Z) : list Z :=
  match fuel with
  | O => []
  | S fuel' =>
      if carry =? 0 then []
      else Z.rem carry 10 :: push_carry fuel' (Z.quot carry 10)
  end.

(** [for (int i = 2; i <= n; i++)], [count] iterations left. *)
Fixpoint factorial_loop (count : nat) (i : Z) (result : list Z) : list Z :=
  match count with
  | O => result
  | S count' =>
      let '(digits, carry) := multiply_digits result i 0 in
      factorial_loop count' (i + 1) (digits ++ push_carry (Z.abs_nat carry) carry)
  end.

(** The final loop of [factorial]: most significant digit first. *)
Definition digits_to_string (result : list Z) : string :=
  fold_right (fun d acc => to_string d ++ acc)%string "" (rev result).

Definition factorial (n : Z) : exception + string :=
  if n <? 0 then
    inl (invalid_argument "Factorial is not defined for negative numbers")
  else if (n =? 0) || (n =? 1) then inr "1"
  else inr (digits_to_string (factorial_loop (Z.to_nat (n - 1)) 2 [1])).

(** [c - '0']. *)
Definition digit_value (c : ascii) : Z := Z.of_nat (nat_of_ascii c) - 48.

(** The iterations of [addStrings] in which [i >= 0 || j >= 0]: the two
    numbers are read from their last character, [iters] is the longer
    length; returns the digits produced and the carry. *)
Fixpoint addStrings_digits (iters : nat) (r1 r2 : list ascii) (carry : Z)
    (result : string) : string * Z :=
  match iters with
  | O => (result, carry)
  | S iters' =>
      let digit1 := match r1 with c :: _ => digit_value c | [] => 0 end in
      let digit2 := match r2 with c :: _ => digit_value c | [] => 0 end in
      let sum := digit1 + digit2 + carry in
      addStrings_digits iters' (tl r1) (tl r2) (Z.quot sum 10)
        (to_string (Z.rem sum 10) ++ result)%string
  end.

(** The remaining iterations, which run while [carry] is non-zero. *)
Fixpoint addStrings_carry (fuel : nat) (carry : Z) (result : string) : string :=
  match fuel with
  | O => result
  | S fuel' =>
      if carry =? 0 then result
      else addStrings_carry fuel' (Z.quot carry 10)
             (to_string (Z.rem carry 10) ++ result)%string
  end.

Definition addStrings (num1 num2 : string) : string :=
  let r1 := rev (list_ascii_of_string num1) in
  let r2 := rev (list_ascii_of_string num2) in
  let '(result, carry) :=
    addStrings_digits (Nat.max (length r1) (length r2)) r1 r2 0 "" in
  addStrings_carry (Z.abs_nat carry) carry result.

(** [for (int i = 2; i <= n; i++)] of [fibonacci]. *)
Fixpoint fibonacci_loop (count : nat) (prev curr : string) : string :=
  match count with
  | O => curr
  | S count' => fibonacci_loop count' curr (addStrings prev curr)
  end.

Definition fibonacci (n : Z) : exception + string :=
  if n <? 0 then
    inl (invalid_argument "Fibonacci is not defined for negative numbers")
  else if n =? 0 then inr "0"
  else if n =? 1 then inr "1"
  else inr (fibonacci_loop (Z.to_nat (n - 1)) "0" "1").

(** [for (int i = 3; i <= limit; i += 2)] of [prime_check]. *)
Fixpoint prime_check_loop (fuel : nat) (n i limit : Z) : string :=
  match fuel with
  | O => "true"
  | S fuel' =>
      if i <=? limit then
        if Z.rem n i =? 0 then "false"
        else prime_check_loop fuel' n (i + 2) limit
      else "true"
  end.

(** [static_cast<int>(std::sqrt(n))] is the integer square root: an [int]
    is exactly representable as a [double] and the correctly rounded root
    of an integer below [2^31] never reaches the next integer. *)
Definition prime_check (n : Z) : exception + string :=
  if n <? 2 then inl (invalid_argument "Prime check requires number >= 2")
  else if n =? 2 then inr "true"
  else if Z.rem n 2 =? 0 then inr "false"
  else
    let limit := Z.sqrt n in
    inr (prime_check_loop (Z.to_nat limit) n 3 limit).

Definition validate_calculation_input (operation : string) (input : Z) : bool :=
  if String.eqb operation "factorial" then input >=? 0
  else if String.eqb operation "fibonacci" then input >=? 0
  else if String.eqb operation "prime_check" then input >=? 2
  else false.

Definition execute_calculation (operation : string) (input : Z) : exception + string :=
  if negb (validate_calculation_input operation input) then
    inl (invalid_argument "Invalid operation or input")
  else if String.eqb operation "factorial" then factorial input
  else if String.eqb operation "fibonacci" then fibonacci input
  else if String.eqb operation "prime_check" then prime_check input
  else inl (invalid_argument ("Unknown operation: " ++ operation)).

End calculations.

(** ** worker.h / worker.cpp *)

Module WorkerStats.

Record t : Type := mk {
  tasks_processed : Z;
  tasks_completed : Z;
  tasks_failed : Z
}.

Definition init : t := mk 0 0 0.

End WorkerStats.

Module Worker.

Record t : Type := mk {
  worker_id_ : Z;
  thread_count_ : Z;
  task_queue_ : list Task.t;
  task_storage_ : gmap string Task.t;
  stats_ : WorkerStats.t
}.

(** [Worker::Worker(worker_id, thread_count)]. *)
Definition new (worker_id thread_count : Z) : t :=
  mk worker_id thread_count [] ∅ WorkerStats.init.

Definition with_queue (w : t) (q : list Task.t) : t :=
  mk (worker_id_ w) (thread_count_ w) q (task_storage_ w) (stats_ w).

Definition with_storage (w : t) (m : gmap string Task.t) : t :=
  mk (worker_id_ w) (thread_count_ w) (task_queue_ w) m (stats_ w).

Definition with_stats (w : t) (st : WorkerStats.t) : t :=
  mk (worker_id_ w) (thread_count_ w) (task_queue_ w) (task_storage_ w) st.

(** [task_storage_[task.getId()] = task] under [storage_mutex_]. *)
Definition store (w : t) (task : Task.t) : t :=
  with_storage w (<[Task.getId task := task]> (task_storage_ w)).

(** [stats_.tasks_processed++] and its two siblings. *)
Definition incr_processed (w : t) : t :=
  let st := stats_ w in
  with_stats w (WorkerStats.mk (incr64 (WorkerStats.tasks_processed st))
                  (WorkerStats.tasks_completed st) (WorkerStats.tasks_failed st)).

Definition incr_completed (w : t) : t :=
  let st := stats_ w in
  with_stats w (WorkerStats.mk (WorkerStats.tasks_processed st)
                  (incr64 (WorkerStats.tasks_completed st)) (WorkerStats.tasks_failed st)).

Definition incr_failed (w : t) : t :=
  let st := stats_ w in
  with_stats w (WorkerStats.mk (WorkerStats.tasks_processed st)
                  (WorkerStats.tasks_completed st) (incr64 (WorkerStats.tasks_failed st))).

(** [Worker::addTask]: push on the queue, then insert or overwrite the
    record of that id. *)
Definition addTask (w : t) (task : Task.t) : t :=
  store (with_queue w (task_queue_ w ++ [task])) task.

(** [Worker::getTask]: a copy of the stored record, or [nullptr]. *)
Definition getTask (w : t) (task_id : string) : option Task.t :=
  task_storage_ w !! task_id.

(** An update of the record found under [task_id], through the
    reference [it->second]. *)
Definition set_record (w : t) (task_id : string) (task : Task.t) : t :=
  with_storage w (<[task_id := task]> (task_storage_ w)).

(** [Worker::completeTask]. *)
Definition completeTask (w : t) (task_id : string) : bool * t :=
  match task_storage_ w !! task_id with
  | Some task =>
      if bool_decide (Task.getStatus task = PROCESSING)
         && negb (Task.empty (Task.getResult task)) then
        (true, incr_completed (set_record w task_id (Task.setStatus task COMPLETED)))
      else if bool_decide (Task.getStatus task = PROCESSING)
              && Task.empty (Task.getResult task) then
        if negb (Task.empty (Task.getErrorMessage task)) then
          (false, set_record w task_id (Task.setStatus task FAILED))
        else (false, w)
      else (false, w)
  | None => (false, w)
  end.

Definition getStats (w : t) : WorkerStats.t := stats_ w.

(** [Worker::processTask], up to and including the first write to the
    storage: the thread's copy of the task is set to PROCESSING and
    persisted. *)
Definition processTask_begin (w : t) (task : Task.t) : t * Task.t :=
  let task := Task.setStatus task PROCESSING in
  (store w task, task).

(** [Worker::processTask] from the calculation on: the [try] body on
    success, the [catch] body when [execute_calculation] throws. *)
Definition processTask_finish (w : t) (task : Task.t) : t :=
  match calculations.execute_calculation
          (TaskData.operation (Task.getData task))
          (TaskData.input (Task.getData task)) with
  | inr result =>
      let task := Task.setResult task result in
      incr_processed (store w task)
  | inl e =>
      let task := Task.setErrorMessage task (what e) in
      let task := Task.setStatus task FAILED in
      incr_processed (incr_failed (store w task))
  end.

Definition processTask (w : t) (task : Task.t) : t :=
  let '(w1, task1) := processTask_begin w task in
  processTask_finish w1 task1.

(** One iteration of [Worker::processTaskLoop] with a non-empty queue. *)
Definition processNext (w : t) : t :=
  match task_queue_ w with
  | [] => w
  | task :: rest => processTask (with_queue w rest) task
  end.

(** [iterations] rounds of [Worker::processTaskLoop] run by one thread
    with nothing else going on; a round on an empty queue does nothing. *)
Fixpoint processTaskLoop (iterations : nat) (w : t) : t :=
  match iterations with
  | O => w
  | S iterations' => processTaskLoop iterations' (processNext w)
  end.

End Worker.

(** ** orchestrator.h / orchestrator.cpp *)

Module SystemStats.

Record t : Type := mk {
  total_tasks_processed : Z;
  total_tasks_completed : Z;
  total_tasks_failed : Z;
  total_workers : Z
}.

End SystemStats.

Module OrchestratorConfig.

Record t : Type := mk {
  num_workers : Z;
  threads_per_worker : Z;
  orchestrator_port : Z
}.


(** The member initialisers of [OrchestratorConfig]. *)
Definition default : t := mk 3 4 5000.

(** [if (j.contains(key)) field = j[key];] with the conversion to [int]. *)
Definition read_field (j : json.t) (key : string) (current : Z) : exception + Z :=
  if json.contains j key then
    match json.at_ j key with
    | inl e => inl e
    | inr v => json.get_int v
    end
  else inr current.

(** [OrchestratorConfig::from_json]: the exceptions of the JSON library
    are not caught here. *)
Definition from_json (j : json.t) : exception + t :=
  match read_field j "num_workers" (num_workers default) with
  | inl e => inl e
  | inr workers =>
    match read_field j "threads_per_worker" (threads_per_worker default) with
    | inl e => inl e
    | inr threads =>
      match read_field j "orchestrator_port" (orchestrator_port default) with
      | inl e => inl e
      | inr port => inr (mk workers threads port)
      end
    end
  end.

(** [OrchestratorConfig::to_json]. *)
Definition to_json (config : t) : json.t :=
  json.object
    [ ("num_workers", json.number_integer (num_workers config));
      ("threads_per_worker", json.number_integer (threads_per_worker config));
      ("orchestrator_port", json.number_integer (orchestrator_port config)) ].

End OrchestratorConfig.

Module TaskOrchestrator.

Record t : Type := mk {
  config_ : OrchestratorConfig.t;
  workers_ : list Worker.t;
  current_worker_ : Z;
  system_stats_ : SystemStats.t
}.

(** [TaskOrchestrator::TaskOrchestrator(config)]. *)
Definition new (config : OrchestratorConfig.t) : t :=
  let n := OrchestratorConfig.num_workers config in
  mk config
     (map (fun i : nat => Worker.new (Z.of_nat i) (OrchestratorConfig.threads_per_worker config))
          (seq 0 (Z.to_nat n)))
     0
     (SystemStats.mk 0 0 0 n).

Definition with_workers (o : t) (ws : list Worker.t) : t :=
  mk (config_ o) ws (current_worker_ o) (system_stats_ o).

(** [TaskOrchestrator::selectWorker]:
    [current_worker_.fetch_add(1) % workers_.size()]. *)
Definition selectWorker (o : t) : nat * t :=
  let worker_index := current_worker_ o mod Z.of_nat (length (workers_ o)) in
  (Z.to_nat worker_index,
   mk (config_ o) (workers_ o) (incr64 (current_worker_ o)) (system_stats_ o)).

(** [TaskOrchestrator::distributeTask]. *)
Definition distributeTask (o : t) (task : Task.t) : (exception + nat) * t :=
  match workers_ o with
  | [] => (inl (runtime_error "No workers available"), o)
  | _ :: _ =>
      let '(worker_index, o1) := selectWorker o in
      (inr worker_index,
       with_workers o1 (alter (fun w => Worker.addTask w task) worker_index (workers_ o1)))
  end.

(** [TaskOrchestrator::validateTaskInput]. *)
Definition validateTaskInput (task : Task.t) : bool :=
  if negb (Task.isValid task) then false
  else
    let data := Task.getData task in
    let op := TaskData.operation data in
    let inp := TaskData.input data in
    if negb (String.eqb op "factorial")
       && negb (String.eqb op "fibonacci")
       && negb (String.eqb op "prime_check") then false
    else if String.eqb op "factorial" && ((inp <? 0) || (inp >? 20)) then false
    else if String.eqb op "fibonacci" && ((inp <? 0) || (inp >? 1000)) then false
    else if String.eqb op "prime_check" && (inp <? 2) then false
    else true.

(** [TaskOrchestrator::createTask]. *)
Definition createTask (o : t) (task : Task.t) : (exception + string) * t :=
  if negb (validateTaskInput task) then
    (inl (invalid_argument "Invalid task input"), o)
  else
    match distributeTask o task with
    | (inl e, o1) => (inl e, o1)
    | (inr _, o1) => (inr (Task.getId task), o1)
    end.

(** [TaskOrchestrator::getTask]: the first worker, in index order, that
    owns the id. *)
Fixpoint getTask_workers (ws : list Worker.t) (task_id : string) : option Task.t :=
  match ws with
  | [] => None
  | w :: rest =>
      match Worker.getTask w task_id with
      | Some task => Some task
      | None => getTask_workers rest task_id
      end
  end.

Definition getTask (o : t) (task_id : string) : option Task.t :=
  getTask_workers (workers_ o) task_id.

(** [TaskOrchestrator::completeTask]: workers are asked in index order
    until one reports success. *)
Fixpoint completeTask_workers (ws : list Worker.t) (task_id : string)
    : bool * list Worker.t :=
  match ws with
  | [] => (false, [])
  | w :: rest =>
      let '(ok, w') := Worker.completeTask w task_id in
      if ok then (true, w' :: rest)
      else
        let '(ok', rest') := completeTask_workers rest task_id in
        (ok', w' :: rest')
  end.

Definition completeTask (o : t) (task_id : string) : bool * t :=
  let '(ok, ws) := completeTask_workers (workers_ o) task_id in
  (ok, with_workers o ws).

(** The loop of [TaskOrchestrator::updateSystemStats], run on totals
    that were reset to zero. *)
Fixpoint sum_stats (ws : list Worker.t) (acc : SystemStats.t) : SystemStats.t :=
  match ws with
  | [] => acc
  | w :: rest =>
      let stats := Worker.getStats w in
      sum_stats rest
        (SystemStats.mk
           (add64 (SystemStats.total_tasks_processed acc) (WorkerStats.tasks_processed stats))
           (add64 (SystemStats.total_tasks_completed acc) (WorkerStats.tasks_completed stats))
           (add64 (SystemStats.total_tasks_failed acc) (WorkerStats.tasks_failed stats))
           (SystemStats.total_workers acc))
  end.

Definition updateSystemStats (o : t) : t :=
  let reset := SystemStats.mk 0 0 0 (SystemStats.total_workers (system_stats_ o)) in
  mk (config_ o) (workers_ o) (current_worker_ o) (sum_stats (workers_ o) reset).

(** [TaskOrchestrator::getSystemStats]. *)
Definition getSystemStats (o : t) : SystemStats.t * t :=
  let o1 := updateSystemStats o in
  (system_stats_ o1, o1).

End TaskOrchestrator.

(** ** The HTTP routes of the orchestrator ([setupRoutes])

    A handler receives what the HTTP library hands it and returns the
    status code and the JSON value whose [dump()] is the body.  The two
    routes with an id are registered under a regular expression; the
    library runs the handler when the whole request path matches it and
    hands over, as [req.matches[1]], the text matched by [([^/]+)].  A
    route gives [None] on a path its pattern does not match: the handler
    is not run. *)

Module routes.

Record Response : Type := mk {
  status : Z;
  body : json.t
}.

(** The two [catch] clauses of the create route. *)
Definition on_exception (e : exception) : Response :=
  match e with
  | invalid_argument msg =>
      mk 400 (json.object [("error", json.str ("Invalid input: " ++ msg))])
  | _ =>
      mk 500 (json.object [("error", json.str ("Internal server error: " ++ what e))])
  end.

(** [POST /task/create]; [parsed] is the outcome of
    [json::parse(req.body)]. *)
Definition post_task_create (now : Z) (o : TaskOrchestrator.t)
    (parsed : exception + json.t) : Response * TaskOrchestrator.t :=
  match parsed with
  | inl e => (on_exception e, o)
  | inr input =>
      match Task.from_json now input with
      | inl e => (on_exception e, o)
      | inr task =>
          match TaskOrchestrator.createTask o task with
          | (inl e, o1) => (on_exception e, o1)
          | (inr task_id, o1) =>
              (mk 200 (json.object
                         [ ("message", json.str "Task created successfully");
                           ("task_id", json.str task_id);
                           ("status", json.str "pending") ]),
               o1)
          end
      end
  end.

(** A literal at the start of a path; what follows it. *)
Fixpoint strip_prefix (literal path : string) : option string :=
  match literal with
  | EmptyString => Some path
  | String a literal' =>
      match path with
      | String b path' => if Ascii.eqb a b then strip_prefix literal' path' else None
      | EmptyString => None
      end
  end.

(** [[^/]+] cannot cross a slash and is followed by a slash or by the
    end of the path: it matches the longest slash-free prefix. *)
Fixpoint take_segment (path : string) : string * string :=
  match path with
  | EmptyString => (EmptyString, EmptyString)
  | String c rest =>
      if Ascii.eqb c "/"%char then (EmptyString, path)
      else let '(matched, rest') := take_segment rest in (String c matched, rest')
  end.

(** [std::regex_match] of a path against [/task/([^/]+)] followed by the
    literal [suffix]: the id captured, if the whole path matches. *)
Definition capture (path suffix : string) : option string :=
  match strip_prefix "/task/" path with
  | None => None
  | Some after =>
      let '(task_id, rest) := take_segment after in
      if negb (Task.empty task_id) && String.eqb rest suffix then Some task_id else None
  end.

(** [GET /task/{id}], registered under [/task/([^/]+)]. *)
Definition get_task (put_time : Z -> string) (o : TaskOrchestrator.t)
    (path : string) : option Response :=
  match capture path "" with
  | None => None
  | Some task_id =>
      Some (match TaskOrchestrator.getTask o task_id with
            | Some task => mk 200 (Task.to_json put_time task)
            | None => mk 404 (json.object [("error", json.str "Task not found")])
            end)
  end.

(** [POST /task/{id}/complete], registered under
    [/task/([^/]+)/complete]. *)
Definition post_task_complete (o : TaskOrchestrator.t) (path : string)
    : option (Response * TaskOrchestrator.t) :=
  match capture path "/complete" with
  | None => None
  | Some task_id =>
      Some
        (let '(completed, o1) := TaskOrchestrator.completeTask o task_id in
         if completed then
           let response :=
             [ ("message", json.str "Task marked as completed");
               ("task_id", json.str task_id);
               ("status", json.str "completed") ] in
           let response :=
             match TaskOrchestrator.getTask o1 task_id with
             | Some task =>
                 if negb (Task.empty (Task.getResult task))
                 then json.set_field response "result" (json.str (Task.getResult task))
                 else response
             | None => response
             end in
           (mk 200 (json.object response), o1)
         else
           match TaskOrchestrator.getTask o1 task_id with
           | Some task =>
               (mk 400 (json.object
                          [ ("error", json.str "Task cannot be completed");
                            ("task_id", json.str task_id);
                            ("current_status",
                             json.str (taskStatusToString (Task.getStatus task)));
                            ("reason",
                             json.str
                               "Task must be in processing state with result to be completed") ]),
                o1)
           | None => (mk 404 (json.object [("error", json.str "Task not found")]), o1)
           end)
  end.

End routes.

(** ** main.cpp: the command line

    [std::stoi] and the file system are given to [parseCommandLine] as
    functions: [stoi s] is the [int] the text converts to or the
    exception [std::stoi] throws; [read_config path] is [None] when no
    file exists at [path], and otherwise the outcome of [file >> j]. *)

Module main.

Inductive outcome : Type :=
| returned (config : OrchestratorConfig.t)
| exited (code : Z)
| thrown (e : exception).

Section parseCommandLine.

Variable stoi : string -> exception + Z.
Variable read_config : string -> option (exception + json.t).

(** The [for] loop of [parseCommandLine] over [argv[i..]], with the
    configuration built so far. *)
Fixpoint parse_arguments (args : list string) (config : OrchestratorConfig.t) : outcome :=
  match args with
  | [] => returned config
  | arg :: rest =>
      if String.eqb arg "--help" || String.eqb arg "-h" then exited 0
      else if String.eqb arg "--workers" || String.eqb arg "-w" then
        match rest with
        | value :: rest' =>
            match stoi value with
            | inl e => thrown e
            | inr n =>
                if (n <=? 0) || (n >? 50) then
                  thrown (invalid_argument "Number of workers must be between 1 and 50")
                else
                  parse_arguments rest'
                    (OrchestratorConfig.mk n
                       (OrchestratorConfig.threads_per_worker config)
                       (OrchestratorConfig.orchestrator_port config))
            end
        | [] => thrown (invalid_argument "--workers requires a value")
        end
      else if String.eqb arg "--threads" || String.eqb arg "-t" then
        match rest with
        | value :: rest' =>
            match stoi value with
            | inl e => thrown e
            | inr n =>
                if (n <=? 0) || (n >? 32) then
                  thrown (invalid_argument "Threads per worker must be between 1 and 32")
                else
                  parse_arguments rest'
                    (OrchestratorConfig.mk
                       (OrchestratorConfig.num_workers config) n
                       (OrchestratorConfig.orchestrator_port config))
            end
        | [] => thrown (invalid_argument "--threads requires a value")
        end
      else if String.eqb arg "--orchestrator-port" || String.eqb arg "-o" then
        match rest with
        | value :: rest' =>
            match stoi value with
            | inl e => thrown e
            | inr n =>
                if (n <=? 1024) || (n >? 65535) then
                  thrown (invalid_argument
                            "Orchestrator port must be between 1025 and 65535")
                else
                  parse_arguments rest'
                    (OrchestratorConfig.mk
                       (OrchestratorConfig.num_workers config)
                       (OrchestratorConfig.threads_per_worker config) n)
            end
        | [] => thrown (invalid_argument "--orchestrator-port requires a value")
        end
      else if String.eqb arg "--config" || String.eqb arg "-c" then
        match rest with
        | config_file :: rest' =>
            match read_config config_file with
            | None =>
                thrown (invalid_argument
                          ("Configuration file does not exist: " ++ config_file))
            | Some (inl e) => thrown e
            | Some (inr j) =>
                match OrchestratorConfig.from_json j with
                | inl e => thrown e
                | inr loaded => parse_arguments rest' loaded
                end
            end
        | [] => thrown (invalid_argument "--config requires a file path")
        end
      else thrown (invalid_argument ("Unknown argument: " ++ arg))
  end.

(** [parseCommandLine(argc, argv)]; [args] is [argv[1..argc-1]]. *)
Definition parseCommandLine (args : list string) : outcome :=
  parse_arguments args OrchestratorConfig.default.

End parseCommandLine.

End main.

(** ** The running system, one call at a time

    Callers and processing threads interleave: a [completeTask], a
    [getSystemStats], and for a processing thread the two halves of
    [processTask] (dequeue and persist PROCESSING; compute, persist the
    outcome and count it) are each one step.  [computing_] holds, for
    every thread that is between the two halves, its worker and its local
    copy of the task.  In [System] a [createTask] is one step as well,
    which it is not in the code: [Interleaving] below splits it, and a run
    of [System] is a run of [Interleaving] in which no [createTask] is
    interrupted. *)

Module System.

Record t : Type := mk {
  orchestrator_ : TaskOrchestrator.t;
  computing_ : list (nat * Task.t)
}.

Inductive event : Type :=
| Create (task : Task.t)
| Dequeue (worker_index : nat)
| Finish (slot : nat)
| Complete (task_id : string)
| Stats.

Definition init (config : OrchestratorConfig.t) : t :=
  mk (TaskOrchestrator.new config) [].

Definition set_worker (o : TaskOrchestrator.t) (i : nat) (w : Worker.t)
    : TaskOrchestrator.t :=
  TaskOrchestrator.with_workers o (<[i := w]> (TaskOrchestrator.workers_ o)).

Definition step (s : t) (e : event) : t :=
  let o := orchestrator_ s in
  match e with
  | Create task => mk (snd (TaskOrchestrator.createTask o task)) (computing_ s)
  | Dequeue i =>
      match TaskOrchestrator.workers_ o !! i with
      | Some w =>
          match Worker.task_queue_ w with
          | task :: rest =>
              let '(w1, task1) := Worker.processTask_begin (Worker.with_queue w rest) task in
              mk (set_worker o i w1) (computing_ s ++ [(i, task1)])
          | [] => s
          end
      | None => s
      end
  | Finish k =>
      match computing_ s !! k with
      | Some (i, task1) =>
          match TaskOrchestrator.workers_ o !! i with
          | Some w =>
              mk (set_worker o i (Worker.processTask_finish w task1))
                 (delete k (computing_ s))
          | None => s
          end
      | None => s
      end
  | Complete task_id => mk (snd (TaskOrchestrator.completeTask o task_id)) (computing_ s)
  | Stats => mk (snd (TaskOrchestrator.getSystemStats o)) (computing_ s)
  end.

Definition run (s : t) (events : list event) : t := fold_left step events s.

(** No processing thread is inside [processTask]. *)
Definition quiescent (s : t) : Prop := computing_ s = [].

(** The tasks submitted by a sequence of events. *)
Definition submitted (events : list event) : list Task.t :=
  omap (fun e => match e with Create task => Some task | _ => None end) events.

End System.

(** ** The running system, step by critical section

    [createTask] validates, takes a worker index with [fetch_add], and
    calls [Worker::addTask], which pushes the task on the queue under
    [queue_mutex_], releases it, and only then stores the record under
    [storage_mutex_].  Other threads run between these steps.
    [selected_] holds the calls that have their index and have not pushed
    yet, [enqueued_] those that have pushed and have not stored yet, each
    with its worker index and its task. *)

Module Interleaving.

Record t : Type := mk {
  orchestrator_ : TaskOrchestrator.t;
  selected_ : list (nat * Task.t);
  enqueued_ : list (nat * Task.t);
  computing_ : list (nat * Task.t)
}.

Inductive event : Type :=
| Select (task : Task.t)
| Enqueue (slot : nat)
| Store (slot : nat)
| Dequeue (worker_index : nat)
| Finish (slot : nat)
| Complete (task_id : string)
| Stats.

Definition init (config : OrchestratorConfig.t) : t :=
  mk (TaskOrchestrator.new config) [] [] [].

(** The state without the [createTask] calls that are under way. *)
Definition coarse (s : t) : System.t :=
  System.mk (orchestrator_ s) (computing_ s).

(** The outcome of a step in which no [createTask] call takes part. *)
Definition lift (s : t) (s' : System.t) : t :=
  mk (System.orchestrator_ s') (selected_ s) (enqueued_ s) (System.computing_ s').

Definition step (s : t) (e : event) : t :=
  let o := orchestrator_ s in
  match e with
  | Select task =>
      if negb (TaskOrchestrator.validateTaskInput task) then s
      else
        match TaskOrchestrator.workers_ o with
        | [] => s
        | _ :: _ =>
            let '(worker_index, o1) := TaskOrchestrator.selectWorker o in
            mk o1 (selected_ s ++ [(worker_index, task)]) (enqueued_ s) (computing_ s)
        end
  | Enqueue k =>
      match selected_ s !! k with
      | Some (i, task) =>
          match TaskOrchestrator.workers_ o !! i with
          | Some w =>
              mk (System.set_worker o i
                    (Worker.with_queue w (Worker.task_queue_ w ++ [task])))
                 (delete k (selected_ s)) (enqueued_ s ++ [(i, task)]) (computing_ s)
          | None => s
          end
      | None => s
      end
  | Store k =>
      match enqueued_ s !! k with
      | Some (i, task) =>
          match TaskOrchestrator.workers_ o !! i with
          | Some w =>
              mk (System.set_worker o i (Worker.store w task))
                 (selected_ s) (delete k (enqueued_ s)) (computing_ s)
          | None => s
          end
      | None => s
      end
  | Dequeue i => lift s (System.step (coarse s) (System.Dequeue i))
  | Finish k => lift s (System.step (coarse s) (System.Finish k))
  | Complete task_id => lift s (System.step (coarse s) (System.Complete task_id))
  | Stats => lift s (System.step (coarse s) System.Stats)
  end.

Definition run (s : t) (events : list event) : t := fold_left step events s.

(** The steps of one call, or of one half of [processTask], with nothing
    running in between. *)
Definition uninterrupted (e : System.event) : list event :=
  match e with
  | System.Create task => [Select task; Enqueue 0%nat; Store 0%nat]
  | System.Dequeue i => [Dequeue i]
  | System.Finish k => [Finish k]
  | System.Complete task_id => [Complete task_id]
  | System.Stats => [Stats]
  end.

(** A sequence of calls none of which is interrupted. *)
Definition schedule (events : list System.event) : list event :=
  flat_map uninterrupted events.

(** No processing thread is inside [processTask]. *)
Definition quiescent (s : t) : Prop := computing_ s = [].

(** No [createTask] call is under way. *)
Definition settled (s : t) : Prop := selected_ s = [] /\ enqueued_ s = [].

End Interleaving.

(** ** Vocabulary of the statements *)

(** A task as the constructor leaves it. *)
Definition fresh (task : Task.t) : Prop :=
  Task.status_ task = PENDING /\ Task.result_ task = "" /\ Task.error_message_ task = "".

(** The status [getTask] reports for an id, if the worker has it. *)
Definition status_of (w : Worker.t) (task_id : string) : option TaskStatus :=
  Task.status_ <$> Worker.getTask w task_id.

(** Number of records of a worker whose status is PROCESSING. *)
Definition is_processing (kv : string * Task.t) : Prop :=
  Task.status_ kv.2 = PROCESSING.

#[global] Instance is_processing_dec (kv : string * Task.t) : Decision (is_processing kv).
Proof. unfold is_processing. apply _. Defined.

Definition count_processing (m : gmap string Task.t) : nat :=
  size (filter is_processing m).

Definition processing_count (w : Worker.t) : nat :=
  count_processing (Worker.task_storage_ w).

Definition total_processing (o : TaskOrchestrator.t) : nat :=
  foldr (fun w acc => (processing_count w + acc)%nat) 0%nat (TaskOrchestrator.workers_ o).

(** [createTask] for each task of a list, in order. *)
Definition createTasks (o : TaskOrchestrator.t) (tasks : list Task.t) : TaskOrchestrator.t :=
  fold_left (fun o task => snd (TaskOrchestrator.createTask o task)) tasks o.

(** The queue of worker [j]. *)
Definition queue_of (o : TaskOrchestrator.t) (j : nat) : list Task.t :=
  match TaskOrchestrator.workers_ o !! j with
  | Some w => Worker.task_queue_ w
  | None => []
  end.

(** The allowed moves of a status. *)
Definition advances (before after : TaskStatus) : Prop :=
  before = after
  \/ (before = PENDING /\ after = PROCESSING)
  \/ (before = PROCESSING /\ (after = COMPLETED \/ after = FAILED)).

(** Mathematical factorial and Fibonacci numbers. *)
Fixpoint fact (n : nat) : Z :=
  match n with
  | O => 1
  | S m => Z.of_nat n * fact m
  end.

Fixpoint fib (n : nat) : Z :=
  match n with
  | O => 0
  | S m => match m with
           | O => 1
           | S k => fib k + fib m
           end
  end.

(** Decimal notation: [s] is a non-empty string of digits without a
    superfluous leading zero whose value, most significant digit first,
    is [z]. *)
Definition is_digit (c : ascii) : bool :=
  (48 <=? nat_of_ascii c)%nat && (nat_of_ascii c <=? 57)%nat.

Fixpoint decimal_value (acc : Z) (s : list ascii) : Z :=
  match s with
  | [] => acc
  | c :: rest => decimal_value (10 * acc + (Z.of_nat (nat_of_ascii c) - 48)) rest
  end.

Definition canonical (s : list ascii) : bool :=
  match s with
  | [] => false
  | c :: rest => forallb is_digit s && (negb (Ascii.eqb c "0"%char) || match rest with [] => true | _ => false end)
  end.

Definition decimal_of (z : Z) (s : string) : Prop :=
  canonical (list_ascii_of_string s) = true
  /\ decimal_value 0 (list_ascii_of_string s) = z.

(** Value of a digit list read from its least significant digit. *)
Fixpoint le_value (l : list ascii) : Z :=
  match l with
  | [] => 0
  | c :: rest => calculations.digit_value c + 10 * le_value rest
  end.

(** What [[^/]+] matches as a whole: a non-empty text without a slash. *)
Fixpoint slash_free (s : string) : bool :=
  match s with
  | EmptyString => true
  | String c rest => negb (Ascii.eqb c "/"%char) && slash_free rest
  end.

Definition segment (s : string) : bool := negb (Task.empty s) && slash_free s.

(** The counters of a worker are ordered and at most [bound]. *)
Definition counters_within (bound : Z) (w : Worker.t) : Prop :=
  0 <= WorkerStats.tasks_failed (Worker.stats_ w)
    <= WorkerStats.tasks_processed (Worker.stats_ w)
  /\ WorkerStats.tasks_processed (Worker.stats_ w) <= bound
  /\ 0 <= WorkerStats.tasks_completed (Worker.stats_ w) <= bound.

(** The ranges [parseCommandLine] enforces on its flags. *)
Definition within_limits (config : OrchestratorConfig.t) : Prop :=
  1 <= OrchestratorConfig.num_workers config <= 50
  /\ 1 <= OrchestratorConfig.threads_per_worker config <= 32
  /\ 1025 <= OrchestratorConfig.orchestrator_port config <= 65535.

(** The optional fields of a payload, as [Task::from_json] applies them. *)
Definition apply_optional {A : Type} (set : Task.t -> A -> Task.t) (task : Task.t)
    (value : option A) : Task.t :=
  match value with
  | Some v => set task v
  | None => task
  end.

(** ** Invariant of a run on freshly constructed tasks with distinct ids *)

(** Whether a record counts as PROCESSING, as 0 or 1. *)
Definition processing_bit (task : Task.t) : nat :=
  if decide (Task.status_ task = PROCESSING) then 1%nat else 0%nat.

(** The local copies held by the threads of worker [i] that are between
    the two halves of [processTask]. *)
Definition in_flight (computing : list (nat * Task.t)) (i : nat) : list Task.t :=
  omap (fun p : nat * Task.t => if decide (p.1 = i) then Some p.2 else None) computing.

(** What holds of a worker, given the tasks its threads are computing. *)
Record worker_inv (w : Worker.t) (flying : list Task.t) : Prop := {
  inv_queue :
    forall task, task ∈ Worker.task_queue_ w ->
      fresh task /\ Worker.task_storage_ w !! Task.id_ task = Some task;
  inv_flying :
    forall task, task ∈ flying ->
      Task.status_ task = PROCESSING /\ Task.result_ task = ""
      /\ Task.error_message_ task = ""
      /\ Worker.task_storage_ w !! Task.id_ task = Some task;
  inv_nodup : NoDup (Task.id_ <$> (Worker.task_queue_ w ++ flying)%list);
  inv_error :
    forall task_id record, Worker.task_storage_ w !! task_id = Some record ->
      Task.status_ record = PROCESSING -> Task.error_message_ record = "";
  inv_count :
    exists k : Z,
      WorkerStats.tasks_processed (Worker.stats_ w) + Z.of_nat (length flying)
      = WorkerStats.tasks_completed (Worker.stats_ w)
        + WorkerStats.tasks_failed (Worker.stats_ w)
        + Z.of_nat (processing_count w) + k * two64
}.

Definition system_inv (s : System.t) : Prop :=
  forall i w, TaskOrchestrator.workers_ (System.orchestrator_ s) !! i = Some w ->
    worker_inv w (in_flight (System.computing_ s) i).

(** Some worker stores a record under the id. *)
Definition known_id (s : System.t) (task_id : string) : Prop :=
  exists i w, TaskOrchestrator.workers_ (System.orchestrator_ s) !! i = Some w
              /\ is_Some (Worker.task_storage_ w !! task_id).

(** The status worker [i] reports for an id. *)
Definition status_at (s : System.t) (i : nat) (task_id : string) : option TaskStatus :=
  match TaskOrchestrator.workers_ (System.orchestrator_ s) !! i with
  | Some w => status_of w task_id
  | None => None
  end.

(** One event may create a record as PENDING, leave a status alone or
    advance it; only [completeTask] on that id makes a record COMPLETED. *)
Definition lifecycle_move (e : System.event) (task_id : string)
    (before after : option TaskStatus) : Prop :=
  match before, after with
  | None, None => True
  | None, Some b => b = PENDING /\ exists task, e = System.Create task /\ Task.id_ task = task_id
  | Some a, Some b =>
      advances a b /\ (a <> COMPLETED -> b = COMPLETED -> e = System.Complete task_id)
  | Some _, None => False
  end.

(** The outcome of an event, in the three respects that matter. *)
Definition step_ok (s : System.t) (e : System.event) (s' : System.t) : Prop :=
  system_inv s'
  /\ (forall i task_id,
        lifecycle_move e task_id (status_at s i task_id) (status_at s' i task_id))
  /\ (forall task_id,
        known_id s' task_id ->
        known_id s task_id
        \/ exists task, e = System.Create task /\ task_id = Task.id_ task).

(** Sum of a counter over the workers. *)
Definition sum_of (f : Worker.t -> Z) (ws : list Worker.t) : Z :=
  foldr (fun w acc => f w + acc) 0 ws.

(** ** Sample inputs *)

Definition sample_config : OrchestratorConfig.t := OrchestratorConfig.mk 3 4 5000.

Definition single_worker_config : OrchestratorConfig.t := OrchestratorConfig.mk 1 4 5000.

Definition sample_worker : Worker.t := Worker.new 0 4.

(** Factorial of five, as the constructor builds it. *)
Definition sample_task : Task.t :=
  Task.create 0 "test-001" "Calculate factorial" MEDIUM
    (TaskData.mk "calculation" 5 "factorial").

(** A task whose calculation throws: it can reach a worker through
    [Worker::addTask], which does not validate. *)
Definition failing_task : Task.t :=
  Task.create 0 "test-neg" "Negative factorial" LOW
    (TaskData.mk "calculation" (-1) "factorial").

(** A create payload that carries its own status and result. *)
Definition forged_payload : json.t :=
  json.object
    [ ("id", json.str "test-forged");
      ("title", json.str "Calculate factorial");
      ("priority", json.number_integer 2);
      ("data", json.object
                 [ ("type", json.str "calculation");
                   ("input", json.number_integer 20);
                   ("operation", json.str "factorial") ]);
      ("status", json.str "processing");
      ("result", json.str "forged") ].

Definition forged_task : Task.t :=
  Task.mk "test-forged" "Calculate factorial" MEDIUM 0
    (TaskData.mk "calculation" 20 "factorial") PROCESSING "forged" "".

(** A record as it stands while a task that was submitted with an error
    message of its own is being calculated. *)
Definition stalled_task : Task.t :=
  Task.mk "test-stalled" "Calculate factorial" MEDIUM 0
    (TaskData.mk "calculation" 20 "factorial") PROCESSING "" "reported by the caller".

(** A command line environment: every number reads as 5, and every
    path holds a configuration file that asks for no worker. *)
Definition sample_stoi (text : string) : exception + Z := inr 5.

Definition empty_pool_config : OrchestratorConfig.t := OrchestratorConfig.mk 0 4 5000.

Definition sample_files (path : string) : option (exception + json.t) :=
  Some (inr (OrchestratorConfig.to_json empty_pool_config)).

(** One task, processed by a thread of its worker. *)
Definition ordinary_run : list System.event :=
  [System.Create sample_task; System.Dequeue 0; System.Finish 0].

(** The same id submitted twice; the first copy is processed and
    completed while the second waits in the queue. *)
Definition resubmitted_run : list System.event :=
  [System.Create sample_task; System.Create sample_task;
   System.Dequeue 0; System.Finish 0; System.Complete "test-001"].

(** The same id submitted twice, both copies processed. *)
Definition twice_processed_run : list System.event :=
  [System.Create sample_task; System.Create sample_task;
   System.Dequeue 0; System.Finish 0; System.Dequeue 0; System.Finish 0].

(** A task submitted with a status and a result of its own, completed
    before any thread has dequeued it. *)
Definition forged_run : list System.event :=
  [System.Create forged_task; System.Complete "test-forged"].

(** A processing thread dequeues a task after [Worker::addTask] has
    pushed it and before [Worker::addTask] has stored its record. *)
Definition raced_run : list Interleaving.event :=
  [Interleaving.Select sample_task; Interleaving.Enqueue 0; Interleaving.Dequeue 0].

(** The thread has also finished the calculation by the time
    [Worker::addTask] stores the record. *)
Definition overtaken_run : list Interleaving.event :=
  [Interleaving.Select sample_task; Interleaving.Enqueue 0; Interleaving.Dequeue 0;
   Interleaving.Finish 0; Interleaving.Store 0].

(** * Properties *)

(** ** Task validation *)

Ltac case_strings :=
  repeat match goal with
         | |- context [String.eqb ?a ?b] => destruct (String.eqb_spec a b)
         end.

Ltac case_bounds :=
  rewrite ?Z.gtb_ltb, ?Z.geb_leb;
  repeat match goal with
         | |- context [Z.ltb ?a ?b] => destruct (Z.ltb_spec a b)
         | |- context [Z.leb ?a ?b] => destruct (Z.leb_spec a b)
         end.

Lemma isValid_spec (task : Task.t) :
  Task.isValid task = true <->
  Task.id_ task <> "" /\ Task.title_ task <> "" /\
  TaskData.type (Task.data_ task) = "calculation" /\
  (TaskData.operation (Task.data_ task) = "factorial"
   \/ TaskData.operation (Task.data_ task) = "fibonacci"
   \/ TaskData.operation (Task.data_ task) = "prime_check") /\
  0 <= TaskData.input (Task.data_ task) <= 100000 /\
  (TaskData.operation (Task.data_ task) = "factorial" ->
   TaskData.input (Task.data_ task) <= 20) /\
  (TaskData.operation (Task.data_ task) = "fibonacci" ->
   TaskData.input (Task.data_ task) <= 1000) /\
  (TaskData.operation (Task.data_ task) = "prime_check" ->
   2 <= TaskData.input (Task.data_ task)).
Proof.
  unfold Task.isValid, Task.empty.
  destruct task as [id title pr cr [ty inp op] st res err]; simpl.
  case_strings; simpl; case_bounds; simpl;
    (split;
     [ intros Hv; try discriminate Hv; repeat split; intros; try congruence; try lia; auto
     | intros (Hv1 & Hv2 & Hv3 & Hv4 & Hv5 & Hv6 & Hv7 & Hv8); try reflexivity;
       try congruence;
       try (pose proof (Hv6 ltac:(assumption)); lia);
       try (pose proof (Hv7 ltac:(assumption)); lia);
       try (pose proof (Hv8 ltac:(assumption)); lia);
       try lia; try (destruct Hv4 as [Hv4 | [Hv4 | Hv4]]; congruence) ]).
Qed.

(** C7. [Task::isValid] accepts exactly the tasks with a non-empty id and
    title, type "calculation", one of the three operations, an input in
    [0, 100000] and within the bound of its operation; it reads neither
    the priority, the creation time, the status, the result nor the error
    message. *)
Theorem Task_isValid_characterisation
    (id title : string) (data : TaskData.t)
    (priority priority' : Priority) (created created' : Z)
    (status status' : TaskStatus) (result result' error error' : string) :
  (Task.isValid (Task.mk id title priority created data status result error) = true <->
   id <> "" /\ title <> "" /\
   TaskData.type data = "calculation" /\
   (TaskData.operation data = "factorial"
    \/ TaskData.operation data = "fibonacci"
    \/ TaskData.operation data = "prime_check") /\
   0 <= TaskData.input data <= 100000 /\
   (TaskData.operation data = "factorial" -> TaskData.input data <= 20) /\
   (TaskData.operation data = "fibonacci" -> TaskData.input data <= 1000) /\
   (TaskData.operation data = "prime_check" -> 2 <= TaskData.input data))
  /\ Task.isValid (Task.mk id title priority' created' data status' result' error')
     = Task.isValid (Task.mk id title priority created data status result error).
Proof.
  split.
  - apply (isValid_spec (Task.mk id title priority created data status result error)).
  - reflexivity.
Qed.

(** ** Orchestrator admission *)

Lemma validateTaskInput_isValid (task : Task.t) :
  TaskOrchestrator.validateTaskInput task = Task.isValid task.
Proof.
  unfold TaskOrchestrator.validateTaskInput.
  destruct (Task.isValid task) eqn:Hvalid; [| reflexivity].
  apply isValid_spec in Hvalid.
  destruct Hvalid as (_ & _ & _ & Hop & Hin & Hf & Hb & Hp).
  unfold Task.getData. simpl.
  case_strings; simpl; case_bounds; simpl; try reflexivity;
    try (pose proof (Hf ltac:(assumption)); lia);
    try (pose proof (Hb ltac:(assumption)); lia);
    try (pose proof (Hp ltac:(assumption)); lia);
    try lia; destruct Hop as [Hop | [Hop | Hop]]; congruence.
Qed.

Lemma validateTaskInput_spec (task : Task.t) :
  TaskOrchestrator.validateTaskInput task = true <->
  Task.isValid task = true /\
  (TaskData.operation (Task.data_ task) = "factorial"
   \/ TaskData.operation (Task.data_ task) = "fibonacci"
   \/ TaskData.operation (Task.data_ task) = "prime_check") /\
  (TaskData.operation (Task.data_ task) = "factorial" ->
   0 <= TaskData.input (Task.data_ task) <= 20) /\
  (TaskData.operation (Task.data_ task) = "fibonacci" ->
   0 <= TaskData.input (Task.data_ task) <= 1000) /\
  (TaskData.operation (Task.data_ task) = "prime_check" ->
   2 <= TaskData.input (Task.data_ task)).
Proof.
  rewrite validateTaskInput_isValid. split.
  - intros Hvalid. split; [exact Hvalid |].
    apply isValid_spec in Hvalid.
    destruct Hvalid as (_ & _ & _ & Hop & Hin & Hf & Hb & Hp).
    split; [exact Hop |].
    split; [intros Heq; specialize (Hf Heq); lia |].
    split; [intros Heq; specialize (Hb Heq); lia | exact Hp].
  - tauto.
Qed.

Lemma selectWorker_index (o : TaskOrchestrator.t) :
  TaskOrchestrator.workers_ o <> [] ->
  (fst (TaskOrchestrator.selectWorker o) < length (TaskOrchestrator.workers_ o))%nat.
Proof.
  intros Hne. unfold TaskOrchestrator.selectWorker. simpl.
  assert (0 < Z.of_nat (length (TaskOrchestrator.workers_ o))).
  { destruct (TaskOrchestrator.workers_ o); [congruence | simpl length; lia]. }
  pose proof (Z.mod_pos_bound (TaskOrchestrator.current_worker_ o)
                (Z.of_nat (length (TaskOrchestrator.workers_ o))) H).
  lia.
Qed.

Lemma createTask_rejected (o : TaskOrchestrator.t) (task : Task.t) :
  TaskOrchestrator.validateTaskInput task = false ->
  TaskOrchestrator.createTask o task = (inl (invalid_argument "Invalid task input"), o).
Proof. intros Hv. unfold TaskOrchestrator.createTask. rewrite Hv. reflexivity. Qed.

Lemma list_alter_lookup {A : Type} (f : A -> A) (l : list A) (i : nat) (x : A) :
  l !! i = Some x -> alter f i l = <[i := f x]> l.
Proof.
  intros Hx. apply list_eq. intros j.
  destruct (decide (j = i)) as [-> | Hj].
  - rewrite list_lookup_alter_eq, Hx. simpl.
    rewrite list_lookup_insert_eq; [reflexivity |].
    apply lookup_lt_Some in Hx. exact Hx.
  - rewrite list_lookup_alter_ne, list_lookup_insert_ne by congruence. reflexivity.
Qed.

Lemma distributeTask_nonempty (o : TaskOrchestrator.t) (task : Task.t) :
  TaskOrchestrator.workers_ o <> [] ->
  TaskOrchestrator.distributeTask o task =
    (inr (fst (TaskOrchestrator.selectWorker o)),
     TaskOrchestrator.mk (TaskOrchestrator.config_ o)
       (alter (fun w => Worker.addTask w task) (fst (TaskOrchestrator.selectWorker o))
          (TaskOrchestrator.workers_ o))
       (incr64 (TaskOrchestrator.current_worker_ o))
       (TaskOrchestrator.system_stats_ o)).
Proof.
  intros Hne.
  destruct o as [cfg [| w0 ws] cw st]; [simpl in Hne; congruence | reflexivity].
Qed.

Lemma createTask_accepted (o : TaskOrchestrator.t) (task : Task.t) :
  TaskOrchestrator.workers_ o <> [] ->
  TaskOrchestrator.validateTaskInput task = true ->
  exists w,
    let i := Z.to_nat (TaskOrchestrator.current_worker_ o
                       mod Z.of_nat (length (TaskOrchestrator.workers_ o))) in
    TaskOrchestrator.workers_ o !! i = Some w /\
    TaskOrchestrator.createTask o task =
      (inr (Task.id_ task),
       TaskOrchestrator.mk (TaskOrchestrator.config_ o)
         (<[i := Worker.addTask w task]> (TaskOrchestrator.workers_ o))
         (incr64 (TaskOrchestrator.current_worker_ o))
         (TaskOrchestrator.system_stats_ o)).
Proof.
  intros Hne Hv.
  pose proof (selectWorker_index o Hne) as Hlt.
  destruct (lookup_lt_is_Some_2 _ _ Hlt) as [w Hw].
  exists w. split; [exact Hw |].
  unfold TaskOrchestrator.createTask.
  rewrite Hv, (distributeTask_nonempty o task Hne).
  cbn [negb]. rewrite (list_alter_lookup _ _ _ _ Hw). reflexivity.
Qed.

(** C6, for an orchestrator that has workers.  [createTask] accepts a
    task exactly when [Task::isValid] and the orchestrator's own re-check
    of the operation and of its bounds hold.  A rejected task raises
    [invalid_argument] and leaves the orchestrator as it was (no worker
    receives the task, the round-robin counter keeps its value); an
    accepted task is appended to exactly one worker, the one the counter
    selects, and its id is returned. *)
Theorem createTask_validates_then_distributes
    (o : TaskOrchestrator.t) (task : Task.t)
    (Hworkers : TaskOrchestrator.workers_ o <> []) :
  (TaskOrchestrator.validateTaskInput task = true <->
   Task.isValid task = true /\
   (TaskData.operation (Task.data_ task) = "factorial"
    \/ TaskData.operation (Task.data_ task) = "fibonacci"
    \/ TaskData.operation (Task.data_ task) = "prime_check") /\
   (TaskData.operation (Task.data_ task) = "factorial" ->
    0 <= TaskData.input (Task.data_ task) <= 20) /\
   (TaskData.operation (Task.data_ task) = "fibonacci" ->
    0 <= TaskData.input (Task.data_ task) <= 1000) /\
   (TaskData.operation (Task.data_ task) = "prime_check" ->
    2 <= TaskData.input (Task.data_ task)))
  /\ (TaskOrchestrator.validateTaskInput task = false ->
      TaskOrchestrator.createTask o task
      = (inl (invalid_argument "Invalid task input"), o))
  /\ (TaskOrchestrator.validateTaskInput task = true ->
      exists (i : nat) (w : Worker.t),
        i = Z.to_nat (TaskOrchestrator.current_worker_ o
                      mod Z.of_nat (length (TaskOrchestrator.workers_ o))) /\
        TaskOrchestrator.workers_ o !! i = Some w /\
        TaskOrchestrator.createTask o task =
          (inr (Task.id_ task),
           TaskOrchestrator.mk (TaskOrchestrator.config_ o)
             (<[i := Worker.addTask w task]> (TaskOrchestrator.workers_ o))
             (incr64 (TaskOrchestrator.current_worker_ o))
             (TaskOrchestrator.system_stats_ o))).
Proof.
  split; [apply validateTaskInput_spec |].
  split; [apply createTask_rejected |].
  intros Hv. destruct (createTask_accepted o task Hworkers Hv) as [w [Hw Hc]].
  eauto.
Qed.

(** ** Worker: completion *)

Lemma empty_true (s : string) : Task.empty s = true <-> s = "".
Proof. unfold Task.empty. apply String.eqb_eq. Qed.

Lemma empty_false (s : string) : Task.empty s = false <-> s <> "".
Proof. unfold Task.empty. apply String.eqb_neq. Qed.

Lemma completeTask_missing (w : Worker.t) (task_id : string) :
  Worker.task_storage_ w !! task_id = None ->
  Worker.completeTask w task_id = (false, w).
Proof. intros Hm. unfold Worker.completeTask. rewrite Hm. reflexivity. Qed.

Lemma completeTask_success (w : Worker.t) (task_id : string) (task : Task.t) :
  Worker.task_storage_ w !! task_id = Some task ->
  Task.status_ task = PROCESSING ->
  Task.result_ task <> "" ->
  Worker.completeTask w task_id =
    (true, Worker.incr_completed (Worker.set_record w task_id (Task.setStatus task COMPLETED))).
Proof.
  intros Hm Hs Hr. unfold Worker.completeTask, Task.getStatus, Task.getResult.
  rewrite Hm, Hs. apply empty_false in Hr. rewrite Hr. reflexivity.
Qed.

Lemma completeTask_lazy_failure (w : Worker.t) (task_id : string) (task : Task.t) :
  Worker.task_storage_ w !! task_id = Some task ->
  Task.status_ task = PROCESSING ->
  Task.result_ task = "" ->
  Task.error_message_ task <> "" ->
  Worker.completeTask w task_id =
    (false, Worker.set_record w task_id (Task.setStatus task FAILED)).
Proof.
  intros Hm Hs Hr He.
  unfold Worker.completeTask, Task.getStatus, Task.getResult, Task.getErrorMessage.
  rewrite Hm, Hs. apply empty_true in Hr. apply empty_false in He.
  rewrite Hr, He. reflexivity.
Qed.

Lemma completeTask_still_computing (w : Worker.t) (task_id : string) (task : Task.t) :
  Worker.task_storage_ w !! task_id = Some task ->
  Task.result_ task = "" ->
  Task.error_message_ task = "" ->
  Worker.completeTask w task_id = (false, w).
Proof.
  intros Hm Hr He.
  unfold Worker.completeTask, Task.getStatus, Task.getResult, Task.getErrorMessage.
  rewrite Hm. apply empty_true in Hr. apply empty_true in He. rewrite Hr, He.
  destruct (bool_decide (Task.status_ task = PROCESSING)); reflexivity.
Qed.

Lemma completeTask_not_processing (w : Worker.t) (task_id : string) (task : Task.t) :
  Worker.task_storage_ w !! task_id = Some task ->
  Task.status_ task <> PROCESSING ->
  Worker.completeTask w task_id = (false, w).
Proof.
  intros Hm Hs. unfold Worker.completeTask, Task.getStatus.
  rewrite Hm. rewrite (bool_decide_eq_false_2 _ Hs). reflexivity.
Qed.

Lemma completeTask_true_inv (w : Worker.t) (task_id : string) :
  fst (Worker.completeTask w task_id) = true ->
  exists task,
    Worker.task_storage_ w !! task_id = Some task /\
    Task.status_ task = PROCESSING /\ Task.result_ task <> "".
Proof.
  unfold Worker.completeTask, Task.getStatus, Task.getResult.
  destruct (Worker.task_storage_ w !! task_id) as [task |] eqn:Hm; [| discriminate].
  destruct (bool_decide (Task.status_ task = PROCESSING)) eqn:Hs;
    destruct (Task.empty (Task.result_ task)) eqn:Hr; simpl;
    try discriminate.
  - destruct (negb (Task.empty (Task.getErrorMessage task))); discriminate.
  - intros _. exists task. apply bool_decide_eq_true_1 in Hs. apply empty_false in Hr. auto.
Qed.

(** C1. [Worker::completeTask] succeeds exactly on a stored task that is
    PROCESSING with a non-empty result; it then marks the record COMPLETED,
    adds one to the completed counter and touches nothing else, and a
    second call on the same id fails and leaves the worker as it is.  On a
    PENDING, COMPLETED or FAILED record, and on an unknown id, it fails
    without any effect. *)
Theorem completeTask_completes_once (w : Worker.t) (task_id : string) :
  (fst (Worker.completeTask w task_id) = true <->
   exists task,
     Worker.getTask w task_id = Some task /\
     Task.status_ task = PROCESSING /\ Task.result_ task <> "")
  /\ (forall task,
        Worker.getTask w task_id = Some task ->
        Task.status_ task = PROCESSING -> Task.result_ task <> "" ->
        let w' := snd (Worker.completeTask w task_id) in
        Worker.getTask w' task_id = Some (Task.setStatus task COMPLETED) /\
        (forall other, other <> task_id -> Worker.getTask w' other = Worker.getTask w other) /\
        Worker.task_queue_ w' = Worker.task_queue_ w /\
        WorkerStats.tasks_completed (Worker.stats_ w')
        = incr64 (WorkerStats.tasks_completed (Worker.stats_ w)) /\
        WorkerStats.tasks_processed (Worker.stats_ w')
        = WorkerStats.tasks_processed (Worker.stats_ w) /\
        WorkerStats.tasks_failed (Worker.stats_ w')
        = WorkerStats.tasks_failed (Worker.stats_ w) /\
        Worker.completeTask w' task_id = (false, w'))
  /\ (forall task,
        Worker.getTask w task_id = Some task ->
        Task.status_ task = PENDING \/ Task.status_ task = COMPLETED
        \/ Task.status_ task = FAILED ->
        Worker.completeTask w task_id = (false, w))
  /\ (Worker.getTask w task_id = None -> Worker.completeTask w task_id = (false, w)).
Proof.
  unfold Worker.getTask. split; [| split; [| split]].
  - split; [apply completeTask_true_inv |].
    intros (task & Hm & Hs & Hr).
    rewrite (completeTask_success w task_id task Hm Hs Hr). reflexivity.
  - intros task Hm Hs Hr.
    rewrite (completeTask_success w task_id task Hm Hs Hr). simpl.
    split; [apply lookup_insert_eq |].
    split; [intros other Hother; apply lookup_insert_ne; congruence |].
    do 4 (split; [reflexivity |]).
    apply (completeTask_not_processing _ _ (Task.setStatus task COMPLETED)).
    + simpl. apply lookup_insert_eq.
    + simpl. discriminate.
  - intros task Hm Hs. apply (completeTask_not_processing w task_id task Hm).
    destruct Hs as [Hs | [Hs | Hs]]; rewrite Hs; discriminate.
  - apply completeTask_missing.
Qed.

(** ** Worker: processing *)

Lemma processTask_unfold (w : Worker.t) (task : Task.t) :
  Worker.processTask w task =
  Worker.processTask_finish (Worker.store w (Task.setStatus task PROCESSING))
    (Task.setStatus task PROCESSING).
Proof. reflexivity. Qed.

Lemma processTask_finish_success (w : Worker.t) (task : Task.t) (result : string) :
  calculations.execute_calculation (TaskData.operation (Task.data_ task))
    (TaskData.input (Task.data_ task)) = inr result ->
  Worker.processTask_finish w task
  = Worker.incr_processed (Worker.store w (Task.setResult task result)).
Proof.
  intros Hc. unfold Worker.processTask_finish, Task.getData. rewrite Hc. reflexivity.
Qed.

Lemma processTask_finish_failure (w : Worker.t) (task : Task.t) (e : exception) :
  calculations.execute_calculation (TaskData.operation (Task.data_ task))
    (TaskData.input (Task.data_ task)) = inl e ->
  Worker.processTask_finish w task
  = Worker.incr_processed
      (Worker.incr_failed
         (Worker.store w (Task.setStatus (Task.setErrorMessage task (what e)) FAILED))).
Proof.
  intros Hc. unfold Worker.processTask_finish, Task.getData. rewrite Hc. reflexivity.
Qed.



(** C3, as the code has it.  A task whose calculation throws is marked
    FAILED by [processTask] itself, with the message of the exception, and
    is counted as failed at that moment; [getTask] reports FAILED from then
    on, and a later [completeTask] on it fails and changes nothing. *)
Theorem failed_calculation_is_marked_by_processTask
    (w : Worker.t) (task : Task.t) (e : exception)
    (Hthrows : calculations.execute_calculation
                 (TaskData.operation (Task.data_ task))
                 (TaskData.input (Task.data_ task)) = inl e) :
  let w' := Worker.processTask w task in
  (exists record,
     Worker.getTask w' (Task.id_ task) = Some record /\
     Task.status_ record = FAILED /\
     Task.error_message_ record = what e /\
     Task.result_ record = Task.result_ task)
  /\ WorkerStats.tasks_failed (Worker.stats_ w')
     = incr64 (WorkerStats.tasks_failed (Worker.stats_ w))
  /\ Worker.completeTask w' (Task.id_ task) = (false, w').
Proof.
  cbv zeta. rewrite processTask_unfold.
  rewrite (processTask_finish_failure _ _ e) by exact Hthrows.
  split; [| split].
  - eexists. split; [unfold Worker.getTask; simpl; apply lookup_insert_eq |].
    simpl. auto.
  - reflexivity.
  - eapply completeTask_not_processing.
    + simpl. apply lookup_insert_eq.
    + simpl. discriminate.
Qed.

Lemma failed_calculation_is_marked_by_processTask_witness :
  let w' := Worker.processTask sample_worker failing_task in
  (exists record,
     Worker.getTask w' (Task.id_ failing_task) = Some record /\
     Task.status_ record = FAILED /\
     Task.error_message_ record = "Invalid operation or input" /\
     Task.result_ record = "")
  /\ WorkerStats.tasks_failed (Worker.stats_ w') = incr64 0
  /\ Worker.completeTask w' (Task.id_ failing_task) = (false, w').
Proof.
  apply (failed_calculation_is_marked_by_processTask sample_worker failing_task
           (invalid_argument "Invalid operation or input")).
  vm_compute. reflexivity.
Defined.

(** C3 as stated fails: right after the failed calculation, with no call
    of [completeTask], [getTask] already reports FAILED and not
    PROCESSING. *)
Lemma failed_task_not_reported_processing :
  calculations.execute_calculation
    (TaskData.operation (Task.data_ failing_task))
    (TaskData.input (Task.data_ failing_task))
  = inl (invalid_argument "Invalid operation or input")
  /\ status_of (Worker.processTask sample_worker failing_task) (Task.id_ failing_task)
     = Some FAILED
  /\ status_of (Worker.processTask sample_worker failing_task) (Task.id_ failing_task)
     <> Some PROCESSING.
Proof.
  assert (Hc : calculations.execute_calculation
                 (TaskData.operation (Task.data_ failing_task))
                 (TaskData.input (Task.data_ failing_task))
               = inl (invalid_argument "Invalid operation or input"))
    by (vm_compute; reflexivity).
  split; [exact Hc |].
  rewrite processTask_unfold, (processTask_finish_failure _ _ _) by exact Hc.
  unfold status_of, Worker.getTask. simpl Worker.task_storage_.
  rewrite lookup_insert_eq. simpl. split; [reflexivity | discriminate].
Qed.

(** ** Caller-supplied status *)

Lemma from_json_forged (now : Z) :
  Task.from_json now forged_payload
  = inr (Task.mk "test-forged" "Calculate factorial" MEDIUM now
           (TaskData.mk "calculation" 20 "factorial") PROCESSING "forged" "").
Proof. reflexivity. Qed.

(** C10. A create payload with ["status": "processing"] and a non-empty
    ["result"] is turned by [Task::from_json] into a task with that status
    and result, passes [createTask], is stored as it is, and
    [completeTask] succeeds on it at once: the record becomes COMPLETED and
    the completed total becomes one while the task is still in the queue
    of its worker and nothing has been processed. *)
Theorem forged_payload_completes_before_processing :
  exists (payload : json.t) (task : Task.t) (o1 o2 : TaskOrchestrator.t),
    json.contains payload "status" = true /\
    json.contains payload "result" = true /\
    Task.from_json 0 payload = inr task /\
    Task.status_ task = PROCESSING /\
    Task.result_ task = "forged" /\
    TaskOrchestrator.createTask (TaskOrchestrator.new sample_config) task
    = (inr (Task.id_ task), o1) /\
    TaskOrchestrator.getTask o1 (Task.id_ task) = Some task /\
    queue_of o1 0 = [task] /\
    SystemStats.total_tasks_processed (fst (TaskOrchestrator.getSystemStats o1)) = 0 /\
    SystemStats.total_tasks_completed (fst (TaskOrchestrator.getSystemStats o1)) = 0 /\
    TaskOrchestrator.completeTask o1 (Task.id_ task) = (true, o2) /\
    TaskOrchestrator.getTask o2 (Task.id_ task) = Some (Task.setStatus task COMPLETED) /\
    queue_of o2 0 = [task] /\
    SystemStats.total_tasks_processed (fst (TaskOrchestrator.getSystemStats o2)) = 0 /\
    SystemStats.total_tasks_completed (fst (TaskOrchestrator.getSystemStats o2)) = 1.
Proof.
  exists forged_payload, forged_task.
  exists (snd (TaskOrchestrator.createTask (TaskOrchestrator.new sample_config) forged_task)).
  exists (snd (TaskOrchestrator.completeTask
                 (snd (TaskOrchestrator.createTask (TaskOrchestrator.new sample_config)
                         forged_task))
                 (Task.id_ forged_task))).
  repeat split; vm_compute; reflexivity.
Qed.

(** ** Round-robin distribution *)

Lemma new_workers_length (config : OrchestratorConfig.t) :
  length (TaskOrchestrator.workers_ (TaskOrchestrator.new config))
  = Z.to_nat (OrchestratorConfig.num_workers config).
Proof. simpl. rewrite length_map, length_seq. reflexivity. Qed.

Lemma createTasks_snoc (o : TaskOrchestrator.t) (tasks : list Task.t) (task : Task.t) :
  createTasks o (tasks ++ [task])
  = snd (TaskOrchestrator.createTask (createTasks o tasks) task).
Proof. unfold createTasks. rewrite fold_left_app. reflexivity. Qed.

Lemma createTask_accepted_shape (o : TaskOrchestrator.t) (task : Task.t) :
  TaskOrchestrator.workers_ o <> [] ->
  TaskOrchestrator.validateTaskInput task = true ->
  length (TaskOrchestrator.workers_ (snd (TaskOrchestrator.createTask o task)))
  = length (TaskOrchestrator.workers_ o)
  /\ TaskOrchestrator.current_worker_ (snd (TaskOrchestrator.createTask o task))
     = incr64 (TaskOrchestrator.current_worker_ o)
  /\ TaskOrchestrator.config_ (snd (TaskOrchestrator.createTask o task))
     = TaskOrchestrator.config_ o.
Proof.
  intros Hne Hv. destruct (createTask_accepted o task Hne Hv) as [w [_ Hc]].
  rewrite Hc. simpl. rewrite length_insert. auto.
Qed.

Lemma nonempty_length {A : Type} (l : list A) : l <> [] <-> (0 < length l)%nat.
Proof. destruct l; simpl; split; intros; try congruence; lia. Qed.

Lemma incr64_mod (x : Z) : incr64 (x mod two64) = (x + 1) mod two64.
Proof. unfold incr64. apply Z.add_mod_idemp_l. discriminate. Qed.

(** After [n] accepted tasks the workers are the same in number and the
    counter has advanced by [n] modulo [2^64]. *)
Lemma createTasks_counter (o : TaskOrchestrator.t) (tasks : list Task.t) :
  TaskOrchestrator.workers_ o <> [] ->
  Forall (fun task => TaskOrchestrator.validateTaskInput task = true) tasks ->
  length (TaskOrchestrator.workers_ (createTasks o tasks))
  = length (TaskOrchestrator.workers_ o)
  /\ TaskOrchestrator.current_worker_ (createTasks o tasks) mod two64
     = (TaskOrchestrator.current_worker_ o + Z.of_nat (length tasks)) mod two64.
Proof.
  intros Hne. induction tasks as [| task tasks IH] using rev_ind; intros Hall.
  - simpl. rewrite Z.add_0_r. auto.
  - apply Forall_app in Hall. destruct Hall as [Hall Htask].
    apply Forall_cons in Htask. destruct Htask as [Htask _].
    destruct (IH Hall) as [IHlen IHcnt].
    assert (Hne' : TaskOrchestrator.workers_ (createTasks o tasks) <> []).
    { apply nonempty_length. rewrite IHlen. apply nonempty_length. exact Hne. }
    destruct (createTask_accepted_shape _ task Hne' Htask) as (Hlen & Hcnt & _).
    rewrite createTasks_snoc. split; [congruence |].
    rewrite Hcnt. unfold incr64. rewrite Z.mod_mod by discriminate.
    rewrite <- Z.add_mod_idemp_l by discriminate. rewrite IHcnt.
    rewrite Z.add_mod_idemp_l by discriminate.
    rewrite length_app. simpl. f_equal. lia.
Qed.

Lemma createTasks_new_counter (config : OrchestratorConfig.t) (tasks : list Task.t) :
  (1 <= Z.to_nat (OrchestratorConfig.num_workers config))%nat ->
  Forall (fun task => TaskOrchestrator.validateTaskInput task = true) tasks ->
  length (TaskOrchestrator.workers_ (createTasks (TaskOrchestrator.new config) tasks))
  = Z.to_nat (OrchestratorConfig.num_workers config)
  /\ TaskOrchestrator.current_worker_ (createTasks (TaskOrchestrator.new config) tasks)
     = Z.of_nat (length tasks) mod two64.
Proof.
  intros HW Hall.
  assert (Hne : TaskOrchestrator.workers_ (TaskOrchestrator.new config) <> []).
  { apply nonempty_length. rewrite new_workers_length. lia. }
  destruct (createTasks_counter _ tasks Hne Hall) as [Hlen Hcnt].
  rewrite new_workers_length in Hlen. split; [exact Hlen |].
  destruct tasks as [| task tasks _] using rev_ind; [reflexivity |].
  change (TaskOrchestrator.current_worker_ (TaskOrchestrator.new config)) with 0 in Hcnt.
  rewrite Z.add_0_l in Hcnt. rewrite <- Hcnt.
  rewrite createTasks_snoc.
  apply Forall_app in Hall. destruct Hall as [Hall Htask].
  apply Forall_cons in Htask. destruct Htask as [Htask _].
  destruct (createTasks_counter _ tasks Hne Hall) as [Hlen' _].
  assert (Hne' : TaskOrchestrator.workers_ (createTasks (TaskOrchestrator.new config) tasks) <> []).
  { apply nonempty_length. rewrite Hlen'. apply nonempty_length. exact Hne. }
  destruct (createTask_accepted_shape _ task Hne' Htask) as (_ & Hc & _).
  rewrite Hc. unfold incr64. rewrite Z.mod_mod by discriminate. reflexivity.
Qed.

(** The [i]-th accepted task, counted from zero, goes to the worker of
    index [(i mod 2^64) mod W]. *)
Lemma createTasks_next (config : OrchestratorConfig.t) (tasks : list Task.t) (task : Task.t) :
  let W := Z.to_nat (OrchestratorConfig.num_workers config) in
  let o := createTasks (TaskOrchestrator.new config) tasks in
  let i := Z.to_nat ((Z.of_nat (length tasks) mod two64) mod Z.of_nat W) in
  (1 <= W)%nat ->
  Forall (fun task => TaskOrchestrator.validateTaskInput task = true) tasks ->
  TaskOrchestrator.validateTaskInput task = true ->
  exists w,
    TaskOrchestrator.workers_ o !! i = Some w /\
    TaskOrchestrator.createTask o task =
      (inr (Task.id_ task),
       TaskOrchestrator.mk (TaskOrchestrator.config_ o)
         (<[i := Worker.addTask w task]> (TaskOrchestrator.workers_ o))
         (incr64 (TaskOrchestrator.current_worker_ o))
         (TaskOrchestrator.system_stats_ o)).
Proof.
  intros W o i HW Hall Htask.
  destruct (createTasks_new_counter config tasks HW Hall) as [Hlen Hcnt].
  fold o in Hlen, Hcnt.
  assert (Hne : TaskOrchestrator.workers_ o <> []).
  { apply nonempty_length. rewrite Hlen. fold W. lia. }
  destruct (createTask_accepted o task Hne Htask) as [w Hw].
  cbv zeta in Hw. rewrite Hlen, Hcnt in Hw. exists w.
  subst i W. rewrite Hcnt. exact Hw.
Qed.

Lemma div_mod_split (n W : nat) :
  (0 < W)%nat ->
  exists q r, (n = q * W + r /\ r < W /\ n / W = q /\ n mod W = r)%nat.
Proof.
  intros HW. exists (n / W)%nat, (n mod W)%nat.
  pose proof (Nat.div_mod_eq n W) as Hn.
  pose proof (Nat.mod_upper_bound n W ltac:(lia)) as Hr.
  repeat split; try assumption. rewrite Nat.mul_comm. exact Hn.
Qed.

(** [(n + (W - 1 - j)) / W] counts the [i < n] with [i mod W = j]. *)
Lemma share_same (W n : nat) :
  (0 < W)%nat ->
  ((n + 1 + (W - 1 - n mod W)) / W = (n + (W - 1 - n mod W)) / W + 1)%nat.
Proof.
  intros HW. destruct (div_mod_split n W HW) as (q & r & Hn & Hr & _ & ->).
  replace (n + 1 + (W - 1 - r))%nat with ((q + 1) * W + 0)%nat by lia.
  replace (n + (W - 1 - r))%nat with (q * W + (W - 1))%nat by lia.
  rewrite !Nat.div_add_l by lia.
  rewrite (Nat.div_small (W - 1) W) by lia. rewrite Nat.Div0.div_0_l. lia.
Qed.

Lemma share_other (W n j : nat) :
  (j < W)%nat -> j <> (n mod W)%nat ->
  ((n + 1 + (W - 1 - j)) / W = (n + (W - 1 - j)) / W)%nat.
Proof.
  intros Hj Hne. destruct (div_mod_split n W ltac:(lia)) as (q & r & Hn & Hr & _ & Hm).
  rewrite Hm in Hne.
  destruct (decide (r < j)%nat) as [Hlt | Hge].
  - replace (n + 1 + (W - 1 - j))%nat with (q * W + (r + 1 + (W - 1 - j)))%nat by lia.
    replace (n + (W - 1 - j))%nat with (q * W + (r + (W - 1 - j)))%nat by lia.
    rewrite !Nat.div_add_l by lia.
    rewrite !Nat.div_small by lia. reflexivity.
  - replace (n + 1 + (W - 1 - j))%nat with ((q + 1) * W + (r - j))%nat by lia.
    replace (n + (W - 1 - j))%nat with ((q + 1) * W + (r - j - 1))%nat by lia.
    rewrite !Nat.div_add_l by lia.
    rewrite !Nat.div_small by lia. reflexivity.
Qed.

Lemma share_full (W k j : nat) : (j < W)%nat -> ((k * W + (W - 1 - j)) / W = k)%nat.
Proof.
  intros Hj. rewrite Nat.div_add_l by lia. rewrite Nat.div_small by lia. lia.
Qed.

Lemma selected_index (n W : nat) :
  (0 < W)%nat -> Z.of_nat n < two64 ->
  Z.to_nat ((Z.of_nat n mod two64) mod Z.of_nat W) = (n mod W)%nat.
Proof.
  intros HW Hn. rewrite (Z.mod_small (Z.of_nat n)) by lia.
  rewrite <- Nat2Z.inj_mod. apply Nat2Z.id.
Qed.

Lemma queue_of_new (config : OrchestratorConfig.t) (j : nat) :
  queue_of (TaskOrchestrator.new config) j = [].
Proof.
  unfold queue_of. simpl. rewrite list_lookup_fmap.
  destruct (seq 0 (Z.to_nat (OrchestratorConfig.num_workers config)) !! j); reflexivity.
Qed.

Lemma createTasks_queue_lengths (config : OrchestratorConfig.t) (tasks : list Task.t) :
  let W := Z.to_nat (OrchestratorConfig.num_workers config) in
  (1 <= W)%nat ->
  Forall (fun task => TaskOrchestrator.validateTaskInput task = true) tasks ->
  Z.of_nat (length tasks) <= two64 ->
  forall j, (j < W)%nat ->
    length (queue_of (createTasks (TaskOrchestrator.new config) tasks) j)
    = ((length tasks + (W - 1 - j)) / W)%nat.
Proof.
  intros W HW. induction tasks as [| task tasks IH] using rev_ind; intros Hall Hbound j Hj.
  - change (createTasks (TaskOrchestrator.new config) []) with (TaskOrchestrator.new config).
    rewrite queue_of_new. simpl. symmetry. apply Nat.div_small. lia.
  - apply Forall_app in Hall. destruct Hall as [Hall Htask].
    apply Forall_cons in Htask. destruct Htask as [Htask _].
    rewrite length_app in Hbound |- *. simpl length in Hbound |- *.
    specialize (IH Hall ltac:(lia)).
    destruct (createTasks_next config tasks task HW Hall Htask) as (w & Hw & Hc).
    rewrite selected_index in Hw, Hc by (fold W; lia). fold W in Hw, Hc.
    rewrite createTasks_snoc, Hc. cbn [snd].
    unfold queue_of at 1. cbn [TaskOrchestrator.workers_].
    destruct (decide (j = (length tasks mod W)%nat)) as [-> | Hother].
    + rewrite list_lookup_insert_eq by (eapply lookup_lt_Some; exact Hw).
      simpl. rewrite length_app. simpl.
      rewrite share_same by lia.
      rewrite <- IH by (apply Nat.mod_upper_bound; lia).
      unfold queue_of. rewrite Hw. reflexivity.
    + rewrite list_lookup_insert_ne by congruence.
      rewrite share_other by (auto; lia).
      rewrite <- IH by exact Hj. reflexivity.
Qed.

(** C5, within the range of the counter.  From a fresh orchestrator with
    [W >= 1] workers, [k * W <= 2^64] accepted tasks leave exactly [k] tasks
    in the queue of every worker, and the [i]-th of them, counted from
    zero, is appended to the queue of worker [i mod W] and of no other,
    whatever its priority and whatever the queues hold. *)
Theorem round_robin_distribution
    (config : OrchestratorConfig.t) (tasks : list Task.t) (k : nat)
    (HW : (1 <= Z.to_nat (OrchestratorConfig.num_workers config))%nat)
    (Hvalid : Forall (fun task => TaskOrchestrator.validateTaskInput task = true) tasks)
    (Hlen : length tasks = (k * Z.to_nat (OrchestratorConfig.num_workers config))%nat)
    (Hrange : Z.of_nat (length tasks) <= two64) :
  let W := Z.to_nat (OrchestratorConfig.num_workers config) in
  (forall j, (j < W)%nat ->
     length (queue_of (createTasks (TaskOrchestrator.new config) tasks) j) = k)
  /\ (forall i task,
        tasks !! i = Some task ->
        let o := createTasks (TaskOrchestrator.new config) (take i tasks) in
        exists w,
          TaskOrchestrator.workers_ o !! (i mod W)%nat = Some w /\
          TaskOrchestrator.createTask o task =
            (inr (Task.id_ task),
             TaskOrchestrator.mk (TaskOrchestrator.config_ o)
               (<[(i mod W)%nat := Worker.addTask w task]> (TaskOrchestrator.workers_ o))
               (incr64 (TaskOrchestrator.current_worker_ o))
               (TaskOrchestrator.system_stats_ o))).
Proof.
  intros W. split.
  - intros j Hj.
    rewrite (createTasks_queue_lengths config tasks HW Hvalid Hrange j Hj).
    rewrite Hlen. apply share_full. exact Hj.
  - intros i task Hi o.
    pose proof (lookup_lt_Some _ _ _ Hi) as Hlt.
    assert (Hvalid' : Forall (fun task => TaskOrchestrator.validateTaskInput task = true)
                        (take i tasks)).
    { apply Forall_take. exact Hvalid. }
    assert (Htask : TaskOrchestrator.validateTaskInput task = true).
    { rewrite Forall_forall in Hvalid. apply Hvalid.
      eapply list_elem_of_lookup_2. exact Hi. }
    destruct (createTasks_next config (take i tasks) task HW Hvalid' Htask) as (w & Hw & Hc).
    rewrite length_take, Nat.min_l in Hw, Hc by lia.
    rewrite selected_index in Hw, Hc by (fold W; lia).
    exists w. split; [exact Hw | exact Hc].
Qed.

Lemma sample_task_valid : TaskOrchestrator.validateTaskInput sample_task = true.
Proof. vm_compute. reflexivity. Qed.

Lemma round_robin_distribution_witness :
  (1 <= Z.to_nat (OrchestratorConfig.num_workers sample_config))%nat
  /\ length (replicate 6 sample_task)
     = (2 * Z.to_nat (OrchestratorConfig.num_workers sample_config))%nat
  /\ (forall j, (j < 3)%nat ->
        length (queue_of (createTasks (TaskOrchestrator.new sample_config)
                            (replicate 6 sample_task)) j) = 2%nat).
Proof.
  split; [vm_compute; lia |]. split; [reflexivity |].
  apply (round_robin_distribution sample_config (replicate 6 sample_task) 2).
  - vm_compute. lia.
  - apply Forall_replicate. vm_compute. reflexivity.
  - reflexivity.
  - vm_compute. discriminate.
Defined.

(** C5 as stated fails beyond the range of the counter: with three
    workers, the task of index [2^64] is appended to the queue of worker
    0 and not to that of worker [2^64 mod 3 = 1]. *)
Lemma round_robin_counter_wraps :
  let o := createTasks (TaskOrchestrator.new sample_config)
             (replicate (Z.to_nat two64) sample_task) in
  let o' := snd (TaskOrchestrator.createTask o sample_task) in
  queue_of o' 0 = (queue_of o 0 ++ [sample_task])%list
  /\ queue_of o' 1 = queue_of o 1
  /\ two64 mod OrchestratorConfig.num_workers sample_config = 1.
Proof.
  intros o o'. subst o'.
  assert (Hn : Z.of_nat (Z.to_nat two64) = two64) by (apply Z2Nat.id; discriminate).
  revert o. generalize dependent (Z.to_nat two64). intros n Hn o.
  assert (HW : (1 <= Z.to_nat (OrchestratorConfig.num_workers sample_config))%nat)
    by (vm_compute; lia).
  assert (Hall : Forall (fun task => TaskOrchestrator.validateTaskInput task = true)
                   (replicate n sample_task))
    by (apply Forall_replicate; exact sample_task_valid).
  destruct (createTasks_next sample_config (replicate n sample_task) sample_task
              HW Hall sample_task_valid) as (w & Hw & Hc).
  rewrite length_replicate, Hn, Z_mod_same_full in Hw, Hc.
  change (Z.to_nat (0 mod Z.of_nat (Z.to_nat (OrchestratorConfig.num_workers sample_config))))
    with 0%nat in Hw, Hc.
  fold o in Hw, Hc. rewrite Hc. cbn [snd].
  split; [| split].
  - unfold queue_of. cbn [TaskOrchestrator.workers_].
    rewrite list_lookup_insert_eq by (eapply lookup_lt_Some; exact Hw).
    rewrite Hw. reflexivity.
  - unfold queue_of. cbn [TaskOrchestrator.workers_].
    rewrite list_lookup_insert_ne by discriminate. reflexivity.
  - reflexivity.
Qed.

Lemma createTask_validates_then_distributes_witness :
  TaskOrchestrator.workers_ (TaskOrchestrator.new sample_config) <> []
  /\ TaskOrchestrator.createTask (TaskOrchestrator.new sample_config) sample_task
     = (inr "test-001",
        snd (TaskOrchestrator.createTask (TaskOrchestrator.new sample_config) sample_task))
  /\ TaskOrchestrator.createTask (TaskOrchestrator.new sample_config) failing_task
     = (inl (invalid_argument "Invalid task input"), TaskOrchestrator.new sample_config).
Proof.
  assert (Hne : TaskOrchestrator.workers_ (TaskOrchestrator.new sample_config) <> [])
    by (vm_compute; discriminate).
  split; [exact Hne |]. split.
  - destruct (createTask_validates_then_distributes
                (TaskOrchestrator.new sample_config) sample_task Hne) as (_ & _ & Hacc).
    destruct (Hacc sample_task_valid) as (i & w & _ & _ & Hc).
    rewrite Hc. reflexivity.
  - destruct (createTask_validates_then_distributes
                (TaskOrchestrator.new sample_config) failing_task Hne) as (_ & Hrej & _).
    apply Hrej. vm_compute. reflexivity.
Defined.

(** C6 as stated fails.  An orchestrator built from a configuration file
    that asks for no worker has none; there a task that passes the
    validation raises [runtime_error], which is neither a validation error
    nor the return of its id. *)
Lemma valid_task_meets_no_worker :
  main.parseCommandLine sample_stoi sample_files ["--config"; "pool.json"]
  = main.returned empty_pool_config
  /\ TaskOrchestrator.workers_ (TaskOrchestrator.new empty_pool_config) = []
  /\ TaskOrchestrator.validateTaskInput sample_task = true
  /\ TaskOrchestrator.createTask (TaskOrchestrator.new empty_pool_config) sample_task
     = (inl (runtime_error "No workers available"), TaskOrchestrator.new empty_pool_config).
Proof. repeat split; vm_compute; reflexivity. Qed.


(** ** Decimal strings *)

Lemma is_digit_value (c : ascii) :
  is_digit c = true <-> 0 <= calculations.digit_value c <= 9.
Proof.
  unfold is_digit, calculations.digit_value.
  rewrite andb_true_iff, !Nat.leb_le. lia.
Qed.

Lemma to_string_digit (d : Z) :
  0 <= d <= 9 ->
  exists c, calculations.to_string d = String c "" /\ calculations.digit_value c = d.
Proof.
  intros Hd. remember (Z.to_nat d) as m eqn:Hm.
  assert (Hdm : d = Z.of_nat m) by lia. subst d. clear Hm.
  do 10 (destruct m as [| m];
         [eexists; split; vm_compute; reflexivity |]).
  lia.
Qed.

Lemma le_value_snoc (l : list ascii) (c : ascii) :
  le_value (l ++ [c]) = le_value l + 10 ^ Z.of_nat (length l) * calculations.digit_value c.
Proof.
  induction l as [| a l IH]; simpl le_value; simpl length.
  - lia.
  - rewrite IH. rewrite Nat2Z.inj_succ, Z.pow_succ_r by lia. ring.
Qed.

Lemma decimal_value_le (acc : Z) (cs : list ascii) :
  decimal_value acc cs = acc * 10 ^ Z.of_nat (length cs) + le_value (rev cs).
Proof.
  revert acc. induction cs as [| c cs IH]; intros acc; simpl decimal_value.
  - simpl. lia.
  - rewrite IH. simpl rev. rewrite le_value_snoc, length_rev.
    simpl length. rewrite Nat2Z.inj_succ, Z.pow_succ_r by lia.
    unfold calculations.digit_value. ring.
Qed.

Lemma le_value_bounds (l : list ascii) :
  forallb is_digit l = true -> 0 <= le_value l < 10 ^ Z.of_nat (length l).
Proof.
  induction l as [| c l IH]; intros Hd.
  - simpl. lia.
  - cbn [forallb] in Hd. apply andb_true_iff in Hd. destruct Hd as [Hc Hl].
    apply is_digit_value in Hc. specialize (IH Hl).
    cbn [le_value length]. rewrite Nat2Z.inj_succ, Z.pow_succ_r by lia. lia.
Qed.

Lemma forallb_rev {A : Type} (f : A -> bool) (l : list A) :
  forallb f (rev l) = forallb f l.
Proof.
  induction l as [| a l IH]; [reflexivity |].
  simpl. rewrite forallb_app, IH. simpl. rewrite andb_true_r. apply andb_comm.
Qed.

(** A digit string is canonical when it is a single digit or starts with
    a non-zero digit, that is, when its value has as many digits as it. *)
Lemma canonical_spec (cs : list ascii) :
  canonical cs = true <->
  forallb is_digit cs = true /\ cs <> [] /\
  (length cs = 1%nat \/ 10 ^ Z.of_nat (length cs - 1) <= decimal_value 0 cs).
Proof.
  destruct cs as [| c rest]; [simpl; split; [discriminate | intros (_ & H & _); congruence] |].
  unfold canonical. rewrite andb_true_iff, orb_true_iff.
  rewrite decimal_value_le. cbn [rev length forallb].
  rewrite le_value_snoc, length_rev.
  replace (S (length rest) - 1)%nat with (length rest) by lia.
  split.
  - intros [Hd Hlead]. split; [exact Hd |]. split; [discriminate |].
    apply andb_true_iff in Hd. destruct Hd as [Hc Hrest].
    apply is_digit_value in Hc.
    pose proof (le_value_bounds (rev rest)) as Hb.
    rewrite forallb_rev, length_rev in Hb. specialize (Hb Hrest).
    destruct Hlead as [Hlead | Hlead].
    + right. apply negb_true_iff in Hlead. apply Ascii.eqb_neq in Hlead.
      assert (calculations.digit_value c <> 0).
      { intros H0. apply Hlead. unfold calculations.digit_value in H0.
        rewrite <- (ascii_nat_embedding c). replace (nat_of_ascii c) with 48%nat by lia.
        reflexivity. }
      nia.
    + left. destruct rest; [reflexivity | discriminate].
  - intros (Hd & _ & Hlen). split; [exact Hd |].
    apply andb_true_iff in Hd. destruct Hd as [Hc Hrest].
    pose proof (le_value_bounds (rev rest)) as Hb.
    rewrite forallb_rev, length_rev in Hb. specialize (Hb Hrest).
    destruct Hlen as [Hlen | Hlen].
    + right. destruct rest; [reflexivity | simpl in Hlen; lia].
    + left. apply negb_true_iff. apply Ascii.eqb_neq. intros ->.
      change (calculations.digit_value "0") with 0 in Hlen. lia.
Qed.

Lemma list_ascii_of_string_app (s1 s2 : string) :
  list_ascii_of_string (s1 ++ s2)
  = (list_ascii_of_string s1 ++ list_ascii_of_string s2)%list.
Proof. induction s1 as [| c s1 IH]; simpl; [reflexivity | rewrite IH; reflexivity]. Qed.

Lemma le_value_tl (l : list ascii) :
  le_value l
  = match l with c :: _ => calculations.digit_value c | [] => 0 end + 10 * le_value (tl l).
Proof. destruct l; simpl; lia. Qed.

Lemma forallb_tl {A : Type} (f : A -> bool) (l : list A) :
  forallb f l = true -> forallb f (tl l) = true.
Proof. destruct l; simpl; [auto |]. intros H. apply andb_true_iff in H. tauto. Qed.

Lemma head_digit_bounds (l : list ascii) :
  forallb is_digit l = true ->
  0 <= match l with c :: _ => calculations.digit_value c | [] => 0 end <= 9.
Proof.
  destruct l; simpl; [lia |]. intros H. apply andb_true_iff in H.
  apply is_digit_value. tauto.
Qed.

(** The digit iterations of [addStrings]: [iters] digits are put in front
    of [result], and together with the carry they are worth the sum. *)
Lemma addStrings_digits_spec (iters : nat) :
  forall (r1 r2 : list ascii) (carry : Z) (result : string),
    forallb is_digit r1 = true -> forallb is_digit r2 = true ->
    (length r1 <= iters)%nat -> (length r2 <= iters)%nat ->
    0 <= carry <= 1 ->
    exists (cs : list ascii) (carry' : Z),
      calculations.addStrings_digits iters r1 r2 carry result
      = (string_of_list_ascii cs ++ result, carry')
      /\ length cs = iters
      /\ forallb is_digit cs = true
      /\ 0 <= carry' <= 1
      /\ le_value (rev cs) + 10 ^ Z.of_nat iters * carry'
         = le_value r1 + le_value r2 + carry.
Proof.
  induction iters as [| iters IH]; intros r1 r2 carry result Hd1 Hd2 Hl1 Hl2 Hc.
  - exists [], carry. destruct r1; [| simpl in Hl1; lia].
    destruct r2; [| simpl in Hl2; lia]. simpl. repeat split; try lia.
  - cbn [calculations.addStrings_digits].
    pose proof (head_digit_bounds r1 Hd1) as Hh1.
    pose proof (head_digit_bounds r2 Hd2) as Hh2.
    set (d1 := match r1 with c :: _ => calculations.digit_value c | [] => 0 end) in *.
    set (d2 := match r2 with c :: _ => calculations.digit_value c | [] => 0 end) in *.
    set (sum := d1 + d2 + carry).
    assert (Hsum : 0 <= sum <= 19) by (unfold sum; lia).
    assert (Hrem : 0 <= Z.rem sum 10 <= 9).
    { rewrite Z.rem_mod_nonneg by lia. pose proof (Z.mod_pos_bound sum 10). lia. }
    assert (Hquot : 0 <= Z.quot sum 10 <= 1).
    { rewrite Z.quot_div_nonneg by lia.
      pose proof (Z.div_le_mono sum 19 10 ltac:(lia) ltac:(lia)).
      pose proof (Z.div_pos sum 10 ltac:(lia) ltac:(lia)).
      change (19 / 10) with 1 in *. lia. }
    destruct (to_string_digit _ Hrem) as (c & Hstr & Hval).
    rewrite Hstr.
    destruct (IH (tl r1) (tl r2) (Z.quot sum 10) (String c "" ++ result)
                (forallb_tl _ _ Hd1) (forallb_tl _ _ Hd2)
                ltac:(destruct r1; simpl in *; lia) ltac:(destruct r2; simpl in *; lia)
                Hquot) as (cs & carry' & Heq & Hlen & Hdig & Hc' & Hv).
    exists (cs ++ [c])%list, carry'. rewrite Heq.
    split.
    { f_equal. rewrite <- (string_of_list_ascii_of_string (String c "" ++ result)).
      rewrite <- (string_of_list_ascii_of_string (string_of_list_ascii cs ++ _)).
      rewrite <- (string_of_list_ascii_of_string (string_of_list_ascii (cs ++ [c]) ++ _)).
      f_equal. rewrite !list_ascii_of_string_app, !list_ascii_of_string_of_list_ascii.
      simpl. rewrite <- app_assoc. reflexivity. }
    split; [rewrite length_app; simpl; lia |].
    split.
    { rewrite forallb_app, Hdig. simpl. rewrite andb_true_r.
      apply is_digit_value. lia. }
    split; [exact Hc' |].
    rewrite rev_app_distr. simpl rev. simpl app. cbn [le_value].
    rewrite (le_value_tl r1), (le_value_tl r2). fold d1 d2.
    rewrite Nat2Z.inj_succ, Z.pow_succ_r by lia.
    pose proof (Z.quot_rem' sum 10) as Hqr.
    rewrite Hval. unfold sum in *. lia.
Qed.

Lemma addStrings_carry_spec (carry : Z) (result : string) :
  0 <= carry <= 1 ->
  calculations.addStrings_carry (Z.abs_nat carry) carry result
  = if carry =? 0 then result else String "1" result.
Proof.
  intros Hc. assert (Hcases : carry = 0 \/ carry = 1) by lia.
  destruct Hcases as [-> | ->]; reflexivity.
Qed.

(** [addStrings] adds decimal notations. *)
Lemma addStrings_spec (a b : Z) (num1 num2 : string) :
  decimal_of a num1 -> decimal_of b num2 ->
  decimal_of (a + b) (calculations.addStrings num1 num2).
Proof.
  intros [Hcan1 Hval1] [Hcan2 Hval2].
  apply canonical_spec in Hcan1. destruct Hcan1 as (Hd1 & Hne1 & Hlead1).
  apply canonical_spec in Hcan2. destruct Hcan2 as (Hd2 & Hne2 & Hlead2).
  rewrite decimal_value_le in Hval1, Hval2. simpl in Hval1, Hval2.
  rewrite decimal_value_le in Hlead1, Hlead2. simpl in Hlead1, Hlead2.
  set (cs1 := list_ascii_of_string num1) in *.
  set (cs2 := list_ascii_of_string num2) in *.
  pose proof (le_value_bounds (rev cs1)) as Hb1.
  rewrite forallb_rev, length_rev in Hb1. specialize (Hb1 Hd1).
  pose proof (le_value_bounds (rev cs2)) as Hb2.
  rewrite forallb_rev, length_rev in Hb2. specialize (Hb2 Hd2).
  unfold calculations.addStrings. fold cs1 cs2. rewrite !length_rev.
  set (n := Nat.max (length cs1) (length cs2)).
  destruct (addStrings_digits_spec n (rev cs1) (rev cs2) 0 ""
              ltac:(rewrite forallb_rev; exact Hd1) ltac:(rewrite forallb_rev; exact Hd2)
              ltac:(rewrite length_rev; lia) ltac:(rewrite length_rev; lia) ltac:(lia))
    as (cs & carry & Heq & Hlen & Hdig & Hcarry & Hsum).
  rewrite Heq, addStrings_carry_spec by exact Hcarry.
  assert (Hn : (1 <= n)%nat).
  { destruct cs1; [congruence | simpl in n; lia]. }
  assert (Hchars : list_ascii_of_string (string_of_list_ascii cs ++ "") = cs).
  { rewrite list_ascii_of_string_app, list_ascii_of_string_of_list_ascii.
    simpl. apply app_nil_r. }
  pose proof (le_value_bounds (rev cs)) as Hb.
  rewrite forallb_rev, length_rev, Hlen in Hb. specialize (Hb Hdig).
  assert (Hcases : carry = 0 \/ carry = 1) by lia.
  destruct Hcases as [-> | ->]; cbn [Z.eqb]; unfold decimal_of.
  - rewrite Hchars. split.
    + apply canonical_spec. split; [exact Hdig |].
      split; [destruct cs; [simpl in Hlen; lia | discriminate] |].
      rewrite decimal_value_le, Hlen. simpl.
      destruct (decide (n = 1%nat)) as [H1 | H1]; [left; exact H1 | right].
      assert (Hlong : length cs1 = n \/ length cs2 = n) by lia.
      destruct Hlong as [Hlong | Hlong].
      * destruct Hlead1 as [Hlead1 | Hlead1]; [lia |]. rewrite Hlong in Hlead1. lia.
      * destruct Hlead2 as [Hlead2 | Hlead2]; [lia |]. rewrite Hlong in Hlead2. lia.
    + rewrite decimal_value_le. simpl. lia.
  - cbn [list_ascii_of_string]. rewrite Hchars. split.
    + apply canonical_spec. split; [cbn [forallb]; rewrite Hdig; reflexivity |].
      split; [discriminate |]. right.
      rewrite decimal_value_le. cbn [length rev]. rewrite le_value_snoc, length_rev, Hlen.
      replace (S n - 1)%nat with n by lia.
      change (calculations.digit_value "1") with 1. lia.
    + rewrite decimal_value_le. cbn [length rev]. rewrite le_value_snoc, length_rev, Hlen.
      change (calculations.digit_value "1") with 1. lia.
Qed.

Lemma fib_step (i : nat) : fib (S (S i)) = fib i + fib (S i).
Proof. reflexivity. Qed.

Lemma fibonacci_loop_spec (count : nat) :
  forall (i : nat) (prev curr : string),
    decimal_of (fib i) prev -> decimal_of (fib (S i)) curr ->
    decimal_of (fib (S i + count)) (calculations.fibonacci_loop count prev curr).
Proof.
  induction count as [| count IH]; intros i prev curr Hprev Hcurr.
  - rewrite Nat.add_0_r. exact Hcurr.
  - cbn [calculations.fibonacci_loop].
    replace (S i + S count)%nat with (S (S i) + count)%nat by lia.
    apply IH; [exact Hcurr |].
    rewrite fib_step. apply addStrings_spec; assumption.
Qed.

Lemma fibonacci_correct (n : Z) :
  0 <= n ->
  exists s, calculations.fibonacci n = inr s /\ decimal_of (fib (Z.to_nat n)) s.
Proof.
  intros Hn. unfold calculations.fibonacci.
  destruct (Z.ltb_spec n 0); [lia |].
  destruct (Z.eqb_spec n 0) as [-> | H0].
  { exists "0". split; [reflexivity | split; reflexivity]. }
  destruct (Z.eqb_spec n 1) as [-> | H1].
  { exists "1". split; [reflexivity | split; reflexivity]. }
  eexists. split; [reflexivity |].
  replace (Z.to_nat n) with (1 + Z.to_nat (n - 1))%nat by lia.
  apply (fibonacci_loop_spec (Z.to_nat (n - 1)) 0 "0" "1"); split; reflexivity.
Qed.

(** ** Primality by trial division *)

Lemma prime_check_loop_spec (n limit : Z) (fuel : nat) :
  forall i : Z,
    0 < i -> limit < i + 2 * Z.of_nat fuel ->
    (calculations.prime_check_loop fuel n i limit = "false"
     /\ exists k, 0 <= k /\ i + 2 * k <= limit /\ (i + 2 * k | n))
    \/ (calculations.prime_check_loop fuel n i limit = "true"
        /\ forall k, 0 <= k -> i + 2 * k <= limit -> ~ (i + 2 * k | n)).
Proof.
  induction fuel as [| fuel IH]; intros i Hi Hfuel.
  - right. split; [reflexivity |]. intros k Hk Hle. lia.
  - cbn [calculations.prime_check_loop].
    destruct (Z.leb_spec i limit) as [Hle | Hgt].
    + destruct (Z.eqb_spec (Z.rem n i) 0) as [Hrem | Hrem].
      * left. split; [reflexivity |]. exists 0. rewrite Z.mul_0_r, Z.add_0_r.
        split; [lia |]. split; [exact Hle |]. apply Z.rem_divide; [lia | exact Hrem].
      * destruct (IH (i + 2) ltac:(lia) ltac:(lia)) as [[Hf (k & Hk & Hkl & Hkd)] | [Ht Hnone]].
        -- left. split; [exact Hf |]. exists (k + 1).
           replace (i + 2 * (k + 1)) with (i + 2 + 2 * k) by lia. auto with zarith.
        -- right. split; [exact Ht |]. intros k Hk Hkl Hkd.
           destruct (Z.eq_dec k 0) as [-> | Hk0].
           ++ rewrite Z.mul_0_r, Z.add_0_r in Hkd. apply Hrem.
              apply Z.rem_divide; [lia | exact Hkd].
           ++ apply (Hnone (k - 1)); [lia | lia |].
              replace (i + 2 + 2 * (k - 1)) with (i + 2 * k) by lia. exact Hkd.
    + right. split; [reflexivity |]. intros k Hk Hkl. lia.
Qed.

Lemma small_divisor (n d : Z) :
  1 < d < n -> (d | n) -> exists e, 1 < e /\ e * e <= n /\ (e | n).
Proof.
  intros Hd [q Hq].
  assert (Hq1 : 1 < q) by nia.
  destruct (Z_le_gt_dec d q) as [Hle | Hgt].
  - exists d. split; [lia |]. split; [nia |]. exists q. exact Hq.
  - exists q. split; [lia |]. split; [nia |]. exists d. lia.
Qed.

Lemma prime_check_correct (n : Z) :
  2 <= n ->
  (Z.prime n -> calculations.prime_check n = inr "true")
  /\ (~ Z.prime n -> calculations.prime_check n = inr "false").
Proof.
  intros Hn. unfold calculations.prime_check.
  destruct (Z.ltb_spec n 2); [lia |].
  destruct (Z.eqb_spec n 2) as [-> | Hn2].
  { split; [reflexivity |]. intros Hnp. destruct (Hnp Z.prime_2). }
  destruct (Z.eqb_spec (Z.rem n 2) 0) as [Heven | Hodd].
  { split; [| reflexivity]. intros Hp.
    apply Z.rem_divide in Heven; [| lia].
    destruct (Z.divide_prime_r 2 n Hp Heven) as [H2 | [H2 | [H2 | H2]]]; lia. }
  assert (Hodd' : ~ (2 | n)).
  { intros Hdiv. apply Hodd. apply Z.rem_divide; [lia | exact Hdiv]. }
  pose proof (Z.sqrt_nonneg n) as Hs0.
  destruct (prime_check_loop_spec n (Z.sqrt n) (Z.to_nat (Z.sqrt n)) 3 ltac:(lia) ltac:(lia))
    as [[Hf (k & Hk & Hkl & Hkd)] | [Ht Hnone]]; rewrite ?Hf, ?Ht.
  - split; [| reflexivity]. intros Hp.
    assert (Hlt : Z.sqrt n < n) by (apply Z.sqrt_lt_lin; lia).
    destruct (Z.divide_prime_r _ n Hp Hkd) as [Hd | [Hd | [Hd | Hd]]]; lia.
  - split; [reflexivity |]. intros Hnp.
    assert (Hnp' : ~ prime n) by (intros Hp; apply Hnp, prime_alt, Hp).
    destruct (not_prime_divide n ltac:(lia) Hnp') as (d & Hd & Hdiv).
    destruct (small_divisor n d Hd Hdiv) as (e & He & Hee & Hediv).
    assert (Hesqrt : e <= Z.sqrt n) by (apply Z.sqrt_le_square; lia).
    assert (Heodd : exists k, 0 <= k /\ e = 3 + 2 * k).
    { destruct (Z.Even_or_Odd e) as [[m Hm] | [m Hm]].
      - exfalso. apply Hodd'. apply Z.divide_trans with e; [exists m; lia | exact Hediv].
      - exists (m - 1). lia. }
    destruct Heodd as (k & Hk & ->).
    destruct (Hnone k Hk Hesqrt Hediv).
Qed.

(** ** Factorial *)

Lemma factorial_correct (n : Z) :
  0 <= n <= 20 ->
  exists s, calculations.factorial n = inr s /\ decimal_of (fact (Z.to_nat n)) s.
Proof.
  intros Hn. remember (Z.to_nat n) as m eqn:Hm.
  assert (Hnm : n = Z.of_nat m) by lia. subst n. clear Hm.
  do 21 (destruct m as [| m];
         [eexists; split; [vm_compute; reflexivity | split; vm_compute; reflexivity] |]).
  lia.
Qed.


(** C9. [factorial] returns the decimal notation of [n!] for
    [0 <= n <= 20] and throws below zero; [fibonacci] returns the decimal
    notation of the [n]-th Fibonacci number, counted from [fib 0 = 0] and
    [fib 1 = 1], for [0 <= n <= 1000] and throws below zero;
    [prime_check] answers "true" on the primes and "false" on the other
    numbers from 2 on, and throws below 2. *)
Theorem calculations_contracts :
  (forall n, 0 <= n <= 20 ->
     exists s, calculations.factorial n = inr s /\ decimal_of (fact (Z.to_nat n)) s)
  /\ calculations.factorial 5 = inr "120"
  /\ calculations.factorial 20 = inr "2432902008176640000"
  /\ (forall n, n < 0 -> exists e, calculations.factorial n = inl e)
  /\ (forall n, 0 <= n <= 1000 ->
        exists s, calculations.fibonacci n = inr s /\ decimal_of (fib (Z.to_nat n)) s)
  /\ calculations.fibonacci 0 = inr "0"
  /\ calculations.fibonacci 1 = inr "1"
  /\ (forall n, n < 0 -> exists e, calculations.fibonacci n = inl e)
  /\ (forall n, 2 <= n ->
        (Z.prime n -> calculations.prime_check n = inr "true")
        /\ (~ Z.prime n -> calculations.prime_check n = inr "false"))
  /\ (forall n, n < 2 -> exists e, calculations.prime_check n = inl e).
Proof.
  split; [exact factorial_correct |].
  split; [vm_compute; reflexivity |].
  split; [vm_compute; reflexivity |].
  split.
  { intros n Hn. unfold calculations.factorial.
    destruct (Z.ltb_spec n 0); [eauto | lia]. }
  split; [intros n Hn; apply fibonacci_correct; lia |].
  split; [reflexivity |].
  split; [reflexivity |].
  split.
  { intros n Hn. unfold calculations.fibonacci.
    destruct (Z.ltb_spec n 0); [eauto | lia]. }
  split; [exact prime_check_correct |].
  intros n Hn. unfold calculations.prime_check.
  destruct (Z.ltb_spec n 2); [eauto | lia].
Qed.

(** ** Lifecycle and statistics along a run *)

Local Open Scope list_scope.

(** ** Counting PROCESSING records *)

Lemma count_processing_insert_new (m : gmap string Task.t) (task_id : string) (task : Task.t) :
  m !! task_id = None ->
  count_processing (<[task_id := task]> m) = (count_processing m + processing_bit task)%nat.
Proof.
  intros Hnone. unfold count_processing, processing_bit.
  rewrite map_filter_insert. unfold is_processing at 1. simpl.
  destruct (decide (Task.status_ task = PROCESSING)) as [Hp | Hp].
  - rewrite map_size_insert_None; [lia |].
    apply map_lookup_filter_None. left. exact Hnone.
  - rewrite delete_id by exact Hnone. lia.
Qed.

Lemma count_processing_insert_old (m : gmap string Task.t) (task_id : string)
    (old task : Task.t) :
  m !! task_id = Some old ->
  (count_processing (<[task_id := task]> m) + processing_bit old)%nat
  = (count_processing m + processing_bit task)%nat.
Proof.
  intros Hold. unfold count_processing, processing_bit.
  rewrite map_filter_insert. unfold is_processing at 1. simpl.
  assert (Hin : Task.status_ old = PROCESSING ->
                filter is_processing m !! task_id = Some old).
  { intros Ho. apply map_lookup_filter_Some. split; [exact Hold | exact Ho]. }
  assert (Hout : Task.status_ old <> PROCESSING ->
                 filter is_processing m !! task_id = None).
  { intros Ho. apply map_lookup_filter_None. right. intros x Hx. rewrite Hold in Hx.
    injection Hx as <-. exact Ho. }
  destruct (decide (Task.status_ task = PROCESSING)) as [Hp | Hp];
    destruct (decide (Task.status_ old = PROCESSING)) as [Ho | Ho].
  - rewrite map_size_insert_Some; [lia | eexists; apply Hin, Ho].
  - rewrite map_size_insert_None; [lia | apply Hout, Ho].
  - rewrite map_filter_delete, map_size_delete_Some by (eexists; apply Hin, Ho).
    assert (size (filter is_processing m) <> 0%nat); [| lia].
    intros Hz. apply map_size_empty_inv in Hz.
    specialize (Hin Ho). rewrite Hz, lookup_empty in Hin. discriminate.
  - rewrite map_filter_delete, map_size_delete_None; [lia | apply Hout, Ho].
Qed.

Lemma processing_bit_yes (task : Task.t) :
  Task.status_ task = PROCESSING -> processing_bit task = 1%nat.
Proof. intros Hs. unfold processing_bit. rewrite decide_True by exact Hs. reflexivity. Qed.

Lemma processing_bit_no (task : Task.t) :
  Task.status_ task <> PROCESSING -> processing_bit task = 0%nat.
Proof. intros Hs. unfold processing_bit. rewrite decide_False by exact Hs. reflexivity. Qed.

(** ** The worker invariant is kept by every operation *)

Lemma incr64_unfold (x : Z) : exists k, incr64 x = x + 1 + k * two64.
Proof.
  exists (- ((x + 1) / two64)). unfold incr64.
  rewrite Z.mod_eq by discriminate. lia.
Qed.

Lemma status_of_store (w : Worker.t) (task : Task.t) (task_id : string) :
  status_of (Worker.store w task) task_id
  = if decide (task_id = Task.id_ task) then Some (Task.status_ task)
    else status_of w task_id.
Proof.
  unfold status_of, Worker.getTask, Worker.store, Task.getId. simpl.
  destruct (decide (task_id = Task.id_ task)) as [-> | Hne].
  - rewrite lookup_insert_eq. reflexivity.
  - rewrite lookup_insert_ne by congruence. reflexivity.
Qed.

Lemma lifecycle_move_refl (e : System.event) (task_id : string) (st : option TaskStatus) :
  lifecycle_move e task_id st st.
Proof.
  destruct st as [a |]; simpl; [| exact I].
  split; [left; reflexivity | intros Hne Heq; congruence].
Qed.

Section WorkerSteps.

Variable w : Worker.t.
Variable flying : list Task.t.
Hypothesis Hinv : worker_inv w flying.

Lemma queued_or_flying_stored (task : Task.t) :
  task ∈ Worker.task_queue_ w ++ flying ->
  Worker.task_storage_ w !! Task.id_ task = Some task.
Proof.
  intros Hin. apply elem_of_app in Hin. destruct Hin as [Hin | Hin].
  - apply (inv_queue _ _ Hinv) in Hin. tauto.
  - apply (inv_flying _ _ Hinv) in Hin. tauto.
Qed.

Lemma worker_inv_addTask (task : Task.t) :
  fresh task ->
  Worker.task_storage_ w !! Task.id_ task = None ->
  worker_inv (Worker.addTask w task) flying.
Proof.
  intros Hfresh Hnew.
  assert (Hother : forall task0, task0 ∈ Worker.task_queue_ w ++ flying ->
                     Task.id_ task <> Task.id_ task0).
  { intros task0 Hin Heq. apply queued_or_flying_stored in Hin. congruence. }
  constructor; unfold Worker.addTask, Worker.store, Task.getId; simpl.
  - intros task0 Hin. apply elem_of_app in Hin. destruct Hin as [Hin | Hin].
    + pose proof (inv_queue _ _ Hinv task0 Hin) as [Hf Hs]. split; [exact Hf |].
      rewrite lookup_insert_ne; [exact Hs |].
      apply Hother. apply elem_of_app. left. exact Hin.
    + apply list_elem_of_singleton in Hin. subst task0.
      split; [exact Hfresh | apply lookup_insert_eq].
  - intros task0 Hin.
    pose proof (inv_flying _ _ Hinv task0 Hin) as (H1 & H2 & H3 & H4).
    repeat split; try assumption.
    rewrite lookup_insert_ne; [exact H4 |].
    apply Hother. apply elem_of_app. right. exact Hin.
  - assert (Hperm : (Worker.task_queue_ w ++ [task]) ++ flying
                    ≡ₚ task :: (Worker.task_queue_ w ++ flying)).
    { rewrite <- app_assoc. simpl. symmetry. apply Permutation_middle. }
    rewrite Hperm, fmap_cons. apply NoDup_cons. split; [| exact (inv_nodup _ _ Hinv)].
    intros Hin. apply list_elem_of_fmap in Hin. destruct Hin as (task0 & Heq & Hin).
    exact (Hother task0 Hin Heq).
  - intros task_id record Hlook Hproc.
    destruct (decide (task_id = Task.id_ task)) as [-> | Hne].
    + rewrite lookup_insert_eq in Hlook. injection Hlook as <-.
      destruct Hfresh as (Hst & _). congruence.
    + rewrite lookup_insert_ne in Hlook by congruence.
      exact (inv_error _ _ Hinv task_id record Hlook Hproc).
  - destruct (inv_count _ _ Hinv) as [k Hk]. exists k.
    unfold processing_count. simpl.
    rewrite count_processing_insert_new by exact Hnew.
    unfold processing_bit. destruct Hfresh as (Hst & _). rewrite Hst.
    rewrite decide_False by discriminate.
    unfold processing_count in Hk. lia.
Qed.

Lemma addTask_moves (task : Task.t) (task_id : string) :
  fresh task ->
  Worker.task_storage_ w !! Task.id_ task = None ->
  lifecycle_move (System.Create task) task_id
    (status_of w task_id) (status_of (Worker.addTask w task) task_id).
Proof.
  intros Hfresh Hnew. unfold Worker.addTask. rewrite status_of_store.
  destruct (decide (task_id = Task.id_ task)) as [-> | Hne].
  - unfold status_of at 1, Worker.getTask. simpl. rewrite Hnew. simpl.
    split; [apply Hfresh | eauto].
  - apply lifecycle_move_refl.
Qed.

Lemma worker_inv_begin (task : Task.t) (rest : list Task.t) :
  Worker.task_queue_ w = task :: rest ->
  worker_inv (fst (Worker.processTask_begin (Worker.with_queue w rest) task))
    (flying ++ [Task.setStatus task PROCESSING]).
Proof.
  intros Hq.
  pose proof (inv_nodup _ _ Hinv) as Hnd. rewrite Hq in Hnd.
  simpl in Hnd. apply NoDup_cons in Hnd. destruct Hnd as [Hhead Hnd].
  assert (Hother : forall task0, task0 ∈ rest ++ flying ->
                     Task.id_ task <> Task.id_ task0).
  { intros task0 Hin Heq. apply Hhead. rewrite Heq.
    apply list_elem_of_fmap. exists task0. split; [reflexivity | exact Hin]. }
  assert (Hhd : fresh task /\ Worker.task_storage_ w !! Task.id_ task = Some task).
  { apply (inv_queue _ _ Hinv). rewrite Hq. left. }
  destruct Hhd as [(Hst & Hres & Herr) Hstored].
  constructor; unfold Worker.processTask_begin, Worker.store, Task.getId; simpl.
  - intros task0 Hin.
    assert (Hin' : task0 ∈ Worker.task_queue_ w) by (rewrite Hq; right; exact Hin).
    pose proof (inv_queue _ _ Hinv task0 Hin') as [Hf Hs]. split; [exact Hf |].
    rewrite lookup_insert_ne; [exact Hs |].
    apply Hother. apply elem_of_app. left. exact Hin.
  - intros task0 Hin. apply elem_of_app in Hin. destruct Hin as [Hin | Hin].
    + pose proof (inv_flying _ _ Hinv task0 Hin) as (H1 & H2 & H3 & H4).
      repeat split; try assumption.
      rewrite lookup_insert_ne; [exact H4 |].
      apply Hother. apply elem_of_app. right. exact Hin.
    + apply list_elem_of_singleton in Hin. subst task0. simpl.
      repeat split; try assumption. apply lookup_insert_eq.
  - assert (Hperm : rest ++ flying ++ [Task.setStatus task PROCESSING]
                    ≡ₚ Task.setStatus task PROCESSING :: (rest ++ flying)).
    { rewrite app_assoc. symmetry. apply Permutation_cons_append. }
    rewrite Hperm, fmap_cons. simpl. apply NoDup_cons. split; assumption.
  - intros task_id record Hlook Hproc.
    destruct (decide (task_id = Task.id_ task)) as [-> | Hne].
    + rewrite lookup_insert_eq in Hlook. injection Hlook as <-. exact Herr.
    + rewrite lookup_insert_ne in Hlook by congruence.
      exact (inv_error _ _ Hinv task_id record Hlook Hproc).
  - destruct (inv_count _ _ Hinv) as [k Hk]. exists k.
    unfold processing_count in *. simpl.
    pose proof (count_processing_insert_old _ (Task.id_ task) task
                  (Task.setStatus task PROCESSING) Hstored) as Hc.
    rewrite (processing_bit_no task) in Hc by (rewrite Hst; discriminate).
    rewrite (processing_bit_yes (Task.setStatus task PROCESSING)) in Hc by reflexivity.
    rewrite length_app. simpl. lia.
Qed.

Lemma begin_moves (e : System.event) (task : Task.t) (rest : list Task.t) (task_id : string) :
  Worker.task_queue_ w = task :: rest ->
  lifecycle_move e task_id (status_of w task_id)
    (status_of (fst (Worker.processTask_begin (Worker.with_queue w rest) task)) task_id).
Proof.
  intros Hq.
  assert (Hhd : fresh task /\ Worker.task_storage_ w !! Task.id_ task = Some task).
  { apply (inv_queue _ _ Hinv). rewrite Hq. left. }
  destruct Hhd as [(Hst & _) Hstored].
  unfold Worker.processTask_begin. cbn [fst]. rewrite status_of_store.
  cbn [Task.id_ Task.status_ Task.setStatus].
  destruct (decide (task_id = Task.id_ task)) as [-> | Hne].
  - unfold status_of, Worker.getTask. rewrite Hstored. simpl. rewrite Hst.
    unfold lifecycle_move. split; [right; left; auto | discriminate].
  - apply lifecycle_move_refl.
Qed.

Lemma worker_inv_finish (flying1 flying2 : list Task.t) (task : Task.t) :
  flying = flying1 ++ task :: flying2 ->
  worker_inv (Worker.processTask_finish w task) (flying1 ++ flying2).
Proof.
  intros Hfl.
  pose proof (inv_nodup _ _ Hinv) as Hnd. rewrite Hfl in Hnd.
  assert (Hperm : Worker.task_queue_ w ++ flying1 ++ task :: flying2
                  ≡ₚ task :: (Worker.task_queue_ w ++ flying1 ++ flying2)).
  { rewrite !app_assoc. symmetry. apply Permutation_middle. }
  rewrite Hperm, fmap_cons in Hnd. apply NoDup_cons in Hnd. destruct Hnd as [Hhead Hnd].
  assert (Hother : forall task0, task0 ∈ Worker.task_queue_ w ++ flying1 ++ flying2 ->
                     Task.id_ task <> Task.id_ task0).
  { intros task0 Hin Heq. apply Hhead. rewrite Heq.
    apply list_elem_of_fmap. exists task0. split; [reflexivity | exact Hin]. }
  assert (Hmine : task ∈ flying) by (rewrite Hfl; apply elem_of_app; right; left).
  pose proof (inv_flying _ _ Hinv task Hmine) as (Hst & Hres & Herr & Hstored).
  assert (Hsub : forall task0, task0 ∈ flying1 ++ flying2 -> task0 ∈ flying).
  { intros task0 Hin. rewrite Hfl. apply elem_of_app in Hin. apply elem_of_app.
    destruct Hin as [Hin | Hin]; [left; exact Hin | right; right; exact Hin]. }
  assert (Hlen : length flying = S (length (flying1 ++ flying2))).
  { rewrite Hfl, !length_app. simpl. lia. }
  destruct (inv_count _ _ Hinv) as [k Hk]. unfold processing_count in Hk.
  unfold Worker.processTask_finish, Task.getData.
  destruct (calculations.execute_calculation _ _) as [e | result];
    constructor; unfold Worker.store, Task.getId; simpl.
  - intros task0 Hin. pose proof (inv_queue _ _ Hinv task0 Hin) as [Hf Hs].
    split; [exact Hf |]. rewrite lookup_insert_ne; [exact Hs |].
    apply Hother. apply elem_of_app. left. exact Hin.
  - intros task0 Hin.
    pose proof (inv_flying _ _ Hinv task0 (Hsub task0 Hin)) as (H1 & H2 & H3 & H4).
    repeat split; try assumption. rewrite lookup_insert_ne; [exact H4 |].
    apply Hother. apply elem_of_app. right. exact Hin.
  - exact Hnd.
  - intros task_id record Hlook Hproc.
    destruct (decide (task_id = Task.id_ task)) as [-> | Hne].
    + rewrite lookup_insert_eq in Hlook. injection Hlook as <-. discriminate Hproc.
    + rewrite lookup_insert_ne in Hlook by congruence.
      exact (inv_error _ _ Hinv task_id record Hlook Hproc).
  - pose proof (count_processing_insert_old _ (Task.id_ task) task
                  (Task.setStatus (Task.setErrorMessage task (what e)) FAILED) Hstored) as Hc.
    rewrite (processing_bit_yes task) in Hc by exact Hst.
    rewrite processing_bit_no in Hc by (simpl; discriminate).
    destruct (incr64_unfold (WorkerStats.tasks_processed (Worker.stats_ w))) as [k1 Hk1].
    destruct (incr64_unfold (WorkerStats.tasks_failed (Worker.stats_ w))) as [k2 Hk2].
    exists (k + k1 - k2). unfold processing_count. simpl. rewrite Hk1, Hk2. lia.
  - intros task0 Hin. pose proof (inv_queue _ _ Hinv task0 Hin) as [Hf Hs].
    split; [exact Hf |]. rewrite lookup_insert_ne; [exact Hs |].
    apply Hother. apply elem_of_app. left. exact Hin.
  - intros task0 Hin.
    pose proof (inv_flying _ _ Hinv task0 (Hsub task0 Hin)) as (H1 & H2 & H3 & H4).
    repeat split; try assumption. rewrite lookup_insert_ne; [exact H4 |].
    apply Hother. apply elem_of_app. right. exact Hin.
  - exact Hnd.
  - intros task_id record Hlook Hproc.
    destruct (decide (task_id = Task.id_ task)) as [-> | Hne].
    + rewrite lookup_insert_eq in Hlook. injection Hlook as <-. exact Herr.
    + rewrite lookup_insert_ne in Hlook by congruence.
      exact (inv_error _ _ Hinv task_id record Hlook Hproc).
  - pose proof (count_processing_insert_old _ (Task.id_ task) task
                  (Task.setResult task result) Hstored) as Hc.
    rewrite (processing_bit_yes task) in Hc by exact Hst.
    rewrite processing_bit_yes in Hc by exact Hst.
    destruct (incr64_unfold (WorkerStats.tasks_processed (Worker.stats_ w))) as [k1 Hk1].
    exists (k + k1). unfold processing_count. simpl. rewrite Hk1. lia.
Qed.

Lemma finish_moves (e : System.event) (task : Task.t) (task_id : string) :
  task ∈ flying ->
  lifecycle_move e task_id (status_of w task_id)
    (status_of (Worker.processTask_finish w task) task_id).
Proof.
  intros Hmine.
  pose proof (inv_flying _ _ Hinv task Hmine) as (Hst & Hres & Herr & Hstored).
  unfold Worker.processTask_finish, Task.getData.
  destruct (calculations.execute_calculation _ _) as [ex | result].
  - unfold Worker.incr_processed, Worker.incr_failed, status_of, Worker.getTask,
      Worker.store, Task.getId. simpl.
    destruct (decide (task_id = Task.id_ task)) as [-> | Hne].
    + rewrite lookup_insert_eq, Hstored. simpl. rewrite Hst.
      unfold lifecycle_move. split; [right; right; auto | discriminate].
    + rewrite lookup_insert_ne by congruence. apply lifecycle_move_refl.
  - unfold Worker.incr_processed, status_of, Worker.getTask, Worker.store, Task.getId. simpl.
    destruct (decide (task_id = Task.id_ task)) as [-> | Hne].
    + rewrite lookup_insert_eq, Hstored. simpl. rewrite Hst.
      unfold lifecycle_move. split; [left; reflexivity | discriminate].
    + rewrite lookup_insert_ne by congruence. apply lifecycle_move_refl.
Qed.

(** Under the invariant [completeTask] either completes a computed task
    or does nothing: the lazy FAILED branch needs a record that is
    PROCESSING with an error message, and there is none. *)
Lemma completeTask_cases (task_id : string) :
  Worker.completeTask w task_id = (false, w)
  \/ exists record,
       Worker.task_storage_ w !! task_id = Some record
       /\ Task.status_ record = PROCESSING /\ Task.result_ record <> ""
       /\ Worker.completeTask w task_id
          = (true, Worker.incr_completed
                     (Worker.set_record w task_id (Task.setStatus record COMPLETED))).
Proof.
  destruct (Worker.task_storage_ w !! task_id) as [record |] eqn:Hlook;
    [| left; apply completeTask_missing; exact Hlook].
  destruct (decide (Task.status_ record = PROCESSING)) as [Hst | Hst];
    [| left; apply (completeTask_not_processing w task_id record Hlook Hst)].
  destruct (decide (Task.result_ record = "")) as [Hres | Hres].
  - left. apply (completeTask_still_computing w task_id record Hlook Hres).
    exact (inv_error _ _ Hinv task_id record Hlook Hst).
  - right. exists record. repeat split; try assumption.
    apply completeTask_success; assumption.
Qed.

Lemma worker_inv_completeTask (task_id : string) :
  worker_inv (snd (Worker.completeTask w task_id)) flying.
Proof.
  destruct (completeTask_cases task_id) as [Hsame | (record & Hlook & Hst & Hres & Hdone)].
  { rewrite Hsame. exact Hinv. }
  rewrite Hdone. cbn [snd].
  assert (Hother : forall task0, task0 ∈ Worker.task_queue_ w ++ flying ->
                     task_id <> Task.id_ task0).
  { intros task0 Hin ->. pose proof (queued_or_flying_stored task0 Hin) as Hs.
    rewrite Hs in Hlook. injection Hlook as <-.
    apply elem_of_app in Hin. destruct Hin as [Hin | Hin].
    - pose proof (inv_queue _ _ Hinv task0 Hin) as [(Hp & _) _]. congruence.
    - pose proof (inv_flying _ _ Hinv task0 Hin) as (_ & Hr & _). congruence. }
  constructor; unfold Worker.set_record; simpl.
  - intros task0 Hin. pose proof (inv_queue _ _ Hinv task0 Hin) as [Hf Hs].
    split; [exact Hf |]. rewrite lookup_insert_ne; [exact Hs |].
    apply Hother. apply elem_of_app. left. exact Hin.
  - intros task0 Hin.
    pose proof (inv_flying _ _ Hinv task0 Hin) as (H1 & H2 & H3 & H4).
    repeat split; try assumption. rewrite lookup_insert_ne; [exact H4 |].
    apply Hother. apply elem_of_app. right. exact Hin.
  - exact (inv_nodup _ _ Hinv).
  - intros id' record' Hlook' Hproc.
    destruct (decide (id' = task_id)) as [-> | Hne].
    + rewrite lookup_insert_eq in Hlook'. injection Hlook' as <-. discriminate Hproc.
    + rewrite lookup_insert_ne in Hlook' by congruence.
      exact (inv_error _ _ Hinv id' record' Hlook' Hproc).
  - destruct (inv_count _ _ Hinv) as [k Hk]. unfold processing_count in Hk.
    pose proof (count_processing_insert_old _ task_id record
                  (Task.setStatus record COMPLETED) Hlook) as Hc.
    rewrite (processing_bit_yes record) in Hc by exact Hst.
    rewrite processing_bit_no in Hc by (simpl; discriminate).
    destruct (incr64_unfold (WorkerStats.tasks_completed (Worker.stats_ w))) as [k1 Hk1].
    exists (k - k1). unfold processing_count. simpl. rewrite Hk1. lia.
Qed.

Lemma completeTask_moves (task_id id' : string) :
  lifecycle_move (System.Complete task_id) id'
    (status_of w id') (status_of (snd (Worker.completeTask w task_id)) id').
Proof.
  destruct (completeTask_cases task_id) as [Hsame | (record & Hlook & Hst & Hres & Hdone)].
  { rewrite Hsame. apply lifecycle_move_refl. }
  rewrite Hdone. cbn [snd].
  unfold status_of, Worker.getTask, Worker.set_record. simpl.
  destruct (decide (id' = task_id)) as [-> | Hne].
  - rewrite lookup_insert_eq, Hlook. simpl. rewrite Hst.
    unfold lifecycle_move. split; [right; right; auto | reflexivity].
  - rewrite lookup_insert_ne by congruence. apply lifecycle_move_refl.
Qed.

Lemma completeTask_keeps_ids (task_id id' : string) :
  is_Some (Worker.task_storage_ (snd (Worker.completeTask w task_id)) !! id') ->
  is_Some (Worker.task_storage_ w !! id').
Proof.
  destruct (completeTask_cases task_id) as [Hsame | (record & Hlook & Hst & Hres & Hdone)].
  { rewrite Hsame. auto. }
  rewrite Hdone. cbn [snd]. unfold Worker.set_record. simpl.
  destruct (decide (id' = task_id)) as [-> | Hne].
  - intros _. rewrite Hlook. eauto.
  - rewrite lookup_insert_ne by congruence. auto.
Qed.

Lemma addTask_ids (task : Task.t) (id' : string) :
  is_Some (Worker.task_storage_ (Worker.addTask w task) !! id') ->
  id' = Task.id_ task \/ is_Some (Worker.task_storage_ w !! id').
Proof.
  unfold Worker.addTask, Worker.store, Task.getId. simpl.
  destruct (decide (id' = Task.id_ task)) as [-> | Hne]; [auto |].
  rewrite lookup_insert_ne by congruence. auto.
Qed.

Lemma begin_keeps_ids (task : Task.t) (rest : list Task.t) (id' : string) :
  Worker.task_queue_ w = task :: rest ->
  is_Some (Worker.task_storage_
             (fst (Worker.processTask_begin (Worker.with_queue w rest) task)) !! id') ->
  is_Some (Worker.task_storage_ w !! id').
Proof.
  intros Hq.
  assert (Hhd : fresh task /\ Worker.task_storage_ w !! Task.id_ task = Some task).
  { apply (inv_queue _ _ Hinv). rewrite Hq. left. }
  destruct Hhd as [_ Hstored].
  unfold Worker.processTask_begin, Worker.store, Task.getId. simpl.
  destruct (decide (id' = Task.id_ task)) as [-> | Hne].
  - intros _. rewrite Hstored. eauto.
  - rewrite lookup_insert_ne by congruence. auto.
Qed.

Lemma finish_keeps_ids (task : Task.t) (id' : string) :
  task ∈ flying ->
  is_Some (Worker.task_storage_ (Worker.processTask_finish w task) !! id') ->
  is_Some (Worker.task_storage_ w !! id').
Proof.
  intros Hmine.
  pose proof (inv_flying _ _ Hinv task Hmine) as (_ & _ & _ & Hstored).
  unfold Worker.processTask_finish, Task.getData.
  destruct (calculations.execute_calculation _ _) as [ex | result];
    unfold Worker.store, Task.getId; simpl;
    (destruct (decide (id' = Task.id_ task)) as [-> | Hne];
     [intros _; rewrite Hstored; eauto | rewrite lookup_insert_ne by congruence; auto]).
Qed.

End WorkerSteps.

(** ** The system invariant is kept by every event *)

Lemma in_flight_app (c1 c2 : list (nat * Task.t)) (i : nat) :
  in_flight (c1 ++ c2) i = in_flight c1 i ++ in_flight c2 i.
Proof. unfold in_flight. apply omap_app. Qed.

Lemma in_flight_one (i0 i : nat) (task : Task.t) :
  in_flight [(i0, task)] i = if decide (i0 = i) then [task] else [].
Proof. unfold in_flight. simpl. destruct (decide (i0 = i)); reflexivity. Qed.

Lemma known_id_workers (s s' : System.t) (task_id : string) :
  TaskOrchestrator.workers_ (System.orchestrator_ s')
  = TaskOrchestrator.workers_ (System.orchestrator_ s) ->
  known_id s' task_id -> known_id s task_id.
Proof. intros Hw (i & w & Hi & Hs). rewrite Hw in Hi. exists i, w. auto. Qed.

Lemma step_ok_same_workers (s s' : System.t) (e : System.event) :
  system_inv s ->
  TaskOrchestrator.workers_ (System.orchestrator_ s')
  = TaskOrchestrator.workers_ (System.orchestrator_ s) ->
  System.computing_ s' = System.computing_ s ->
  step_ok s e s'.
Proof.
  intros Hinv Hw Hc. split; [| split].
  - intros i w Hi. rewrite Hc. rewrite Hw in Hi. exact (Hinv i w Hi).
  - intros i task_id. unfold status_at. rewrite Hw. apply lifecycle_move_refl.
  - intros task_id Hk. left. exact (known_id_workers s s' task_id Hw Hk).
Qed.

(** An event that replaces one worker. *)
Lemma step_ok_one_worker (s s' : System.t) (e : System.event)
    (i0 : nat) (w w' : Worker.t) :
  system_inv s ->
  TaskOrchestrator.workers_ (System.orchestrator_ s) !! i0 = Some w ->
  TaskOrchestrator.workers_ (System.orchestrator_ s')
  = <[i0 := w']> (TaskOrchestrator.workers_ (System.orchestrator_ s)) ->
  (forall i, i <> i0 -> in_flight (System.computing_ s') i = in_flight (System.computing_ s) i) ->
  worker_inv w' (in_flight (System.computing_ s') i0) ->
  (forall task_id, lifecycle_move e task_id (status_of w task_id) (status_of w' task_id)) ->
  (forall task_id,
     is_Some (Worker.task_storage_ w' !! task_id) ->
     is_Some (Worker.task_storage_ w !! task_id)
     \/ exists task, e = System.Create task /\ task_id = Task.id_ task) ->
  step_ok s e s'.
Proof.
  intros Hinv Hi0 Hws Hothers Hw' Hmoves Hids.
  pose proof (lookup_lt_Some _ _ _ Hi0) as Hlt.
  split; [| split].
  - intros i wi Hi. rewrite Hws in Hi.
    destruct (decide (i = i0)) as [-> | Hne].
    + rewrite list_lookup_insert_eq in Hi by exact Hlt. injection Hi as <-. exact Hw'.
    + rewrite list_lookup_insert_ne in Hi by congruence.
      rewrite Hothers by exact Hne. exact (Hinv i wi Hi).
  - intros i task_id. unfold status_at. rewrite Hws.
    destruct (decide (i = i0)) as [-> | Hne].
    + rewrite list_lookup_insert_eq by exact Hlt. rewrite Hi0. apply Hmoves.
    + rewrite list_lookup_insert_ne by congruence. apply lifecycle_move_refl.
  - intros task_id (i & wi & Hi & Hsome). rewrite Hws in Hi.
    destruct (decide (i = i0)) as [-> | Hne].
    + rewrite list_lookup_insert_eq in Hi by exact Hlt. injection Hi as <-.
      destruct (Hids task_id Hsome) as [Hold | Hnew]; [left | right; exact Hnew].
      exists i0, w. auto.
    + rewrite list_lookup_insert_ne in Hi by congruence. left. exists i, wi. auto.
Qed.

Lemma system_eta (s : System.t) :
  s = System.mk (System.orchestrator_ s) (System.computing_ s).
Proof. destruct s. reflexivity. Qed.

Lemma step_ok_create (s : System.t) (task : Task.t) :
  system_inv s -> fresh task -> ~ known_id s (Task.id_ task) ->
  step_ok s (System.Create task) (System.step s (System.Create task)).
Proof.
  intros Hinv Hfresh Hnew. cbn [System.step].
  destruct (TaskOrchestrator.validateTaskInput task) eqn:Hvalid.
  2:{ rewrite createTask_rejected by exact Hvalid.
      apply step_ok_same_workers; [exact Hinv | reflexivity | reflexivity]. }
  destruct (TaskOrchestrator.workers_ (System.orchestrator_ s)) as [| w0 ws] eqn:Hws.
  { assert (Hsame : snd (TaskOrchestrator.createTask (System.orchestrator_ s) task)
                    = System.orchestrator_ s).
    { unfold TaskOrchestrator.createTask, TaskOrchestrator.distributeTask.
      rewrite Hvalid, Hws. reflexivity. }
    rewrite Hsame. apply step_ok_same_workers; [exact Hinv | reflexivity | reflexivity]. }
  assert (Hne : TaskOrchestrator.workers_ (System.orchestrator_ s) <> [])
    by (rewrite Hws; discriminate).
  destruct (createTask_accepted _ task Hne Hvalid) as (w & Hw & Hc). cbv zeta in Hw, Hc.
  rewrite Hc. cbn [snd].
  set (i0 := Z.to_nat _) in *.
  assert (Hstore : Worker.task_storage_ w !! Task.id_ task = None).
  { destruct (Worker.task_storage_ w !! Task.id_ task) eqn:Hl; [| reflexivity].
    exfalso. apply Hnew. exists i0, w. split; [exact Hw | rewrite Hl; eauto]. }
  apply (step_ok_one_worker s _ _ i0 w (Worker.addTask w task) Hinv Hw).
  - reflexivity.
  - reflexivity.
  - apply worker_inv_addTask; [apply (Hinv i0 w Hw) | exact Hfresh | exact Hstore].
  - intros task_id. apply addTask_moves; assumption.
  - intros task_id Hsome. destruct (addTask_ids w task task_id Hsome) as [-> | Hold];
      [right; eauto | left; exact Hold].
Qed.

Lemma step_ok_dequeue (s : System.t) (i0 : nat) :
  system_inv s ->
  step_ok s (System.Dequeue i0) (System.step s (System.Dequeue i0)).
Proof.
  intros Hinv. cbn [System.step].
  destruct (TaskOrchestrator.workers_ (System.orchestrator_ s) !! i0) as [w |] eqn:Hw;
    [| rewrite (system_eta s) at 2;
       apply step_ok_same_workers; [exact Hinv | reflexivity | reflexivity]].
  destruct (Worker.task_queue_ w) as [| task rest] eqn:Hq;
    [rewrite (system_eta s) at 2;
     apply step_ok_same_workers; [exact Hinv | reflexivity | reflexivity] |].
  pose proof (Hinv i0 w Hw) as Hwinv.
  change (Worker.processTask_begin (Worker.with_queue w rest) task)
    with (fst (Worker.processTask_begin (Worker.with_queue w rest) task),
          Task.setStatus task PROCESSING).
  cbv iota.
  eapply (step_ok_one_worker s _ _ i0 w); [exact Hinv | exact Hw | reflexivity | | | |].
  - intros i Hi. cbn [System.computing_]. rewrite in_flight_app, in_flight_one.
    rewrite decide_False by congruence. apply app_nil_r.
  - cbn [System.computing_]. rewrite in_flight_app, in_flight_one.
    rewrite decide_True by reflexivity.
    apply worker_inv_begin; assumption.
  - intros task_id. apply (begin_moves w _ Hwinv). exact Hq.
  - intros task_id Hsome. left. exact (begin_keeps_ids w _ Hwinv task rest task_id Hq Hsome).
Qed.

Lemma step_ok_finish (s : System.t) (k : nat) :
  system_inv s ->
  step_ok s (System.Finish k) (System.step s (System.Finish k)).
Proof.
  intros Hinv. cbn [System.step].
  destruct (System.computing_ s !! k) as [[i0 task] |] eqn:Hk;
    [| rewrite (system_eta s) at 2;
       apply step_ok_same_workers; [exact Hinv | reflexivity | reflexivity]].
  destruct (TaskOrchestrator.workers_ (System.orchestrator_ s) !! i0) as [w |] eqn:Hw;
    [| rewrite (system_eta s) at 2;
       apply step_ok_same_workers; [exact Hinv | reflexivity | reflexivity]].
  pose proof (Hinv i0 w Hw) as Hwinv.
  pose proof (take_drop_middle _ _ _ Hk) as Hsplit.
  assert (Hflying : forall i,
            in_flight (System.computing_ s) i
            = in_flight (take k (System.computing_ s)) i
              ++ (if decide (i0 = i) then [task] else [])
              ++ in_flight (drop (S k) (System.computing_ s)) i).
  { intros i. rewrite <- Hsplit at 1.
    rewrite in_flight_app.
    change ((i0, task) :: drop (S k) (System.computing_ s))
      with ([(i0, task)] ++ drop (S k) (System.computing_ s)).
    rewrite in_flight_app, in_flight_one. reflexivity. }
  assert (Hafter : forall i,
            in_flight (delete k (System.computing_ s)) i
            = in_flight (take k (System.computing_ s)) i
              ++ in_flight (drop (S k) (System.computing_ s)) i).
  { intros i. rewrite delete_take_drop. apply in_flight_app. }
  assert (Hmine : task ∈ in_flight (System.computing_ s) i0).
  { rewrite Hflying, decide_True by reflexivity.
    apply elem_of_app. right. left. }
  eapply (step_ok_one_worker s _ _ i0 w); [exact Hinv | exact Hw | reflexivity | | | |].
  - intros i Hi. cbn [System.computing_]. rewrite Hafter, Hflying.
    rewrite decide_False by congruence. reflexivity.
  - cbn [System.computing_]. rewrite Hafter.
    apply (worker_inv_finish w _ Hwinv).
    rewrite Hflying, decide_True by reflexivity. reflexivity.
  - intros task_id. apply (finish_moves w _ Hwinv). exact Hmine.
  - intros task_id Hsome. left. exact (finish_keeps_ids w _ Hwinv task task_id Hmine Hsome).
Qed.

Lemma completeTask_workers_each (ws : list Worker.t) (task_id : string) :
  Forall2 (fun w w' => w' = w \/ w' = snd (Worker.completeTask w task_id))
    ws (snd (TaskOrchestrator.completeTask_workers ws task_id)).
Proof.
  induction ws as [| w ws IH]; [constructor |].
  cbn [TaskOrchestrator.completeTask_workers].
  destruct (Worker.completeTask w task_id) as [ok w'] eqn:Hc.
  assert (Hw' : w' = snd (Worker.completeTask w task_id)) by (rewrite Hc; reflexivity).
  destruct ok.
  - cbn [snd]. constructor; [right; exact Hw' |].
    apply Forall2_same_length_lookup. split; [reflexivity |]. intros i x y Hx Hy.
    left. congruence.
  - destruct (TaskOrchestrator.completeTask_workers ws task_id) as [ok' ws'].
    cbn [snd] in *. constructor; [right; exact Hw' | exact IH].
Qed.

Lemma step_ok_complete (s : System.t) (task_id : string) :
  system_inv s ->
  step_ok s (System.Complete task_id) (System.step s (System.Complete task_id)).
Proof.
  intros Hinv. cbn [System.step]. unfold TaskOrchestrator.completeTask.
  pose proof (completeTask_workers_each
                (TaskOrchestrator.workers_ (System.orchestrator_ s)) task_id) as Hall.
  destruct (TaskOrchestrator.completeTask_workers _ task_id) as [ok ws'].
  cbn [snd] in *.
  split; [| split]; cbn [System.orchestrator_ System.computing_
                         TaskOrchestrator.with_workers TaskOrchestrator.workers_].
  - intros i w' Hi.
    destruct (Forall2_lookup_r _ _ _ _ _ Hall Hi) as (w & Hw & [-> | ->]).
    + exact (Hinv i w Hw).
    + apply (worker_inv_completeTask w _ (Hinv i w Hw)).
  - intros i id'. unfold status_at.
    cbn [System.orchestrator_ TaskOrchestrator.with_workers TaskOrchestrator.workers_].
    destruct (TaskOrchestrator.workers_ (System.orchestrator_ s) !! i) as [w |] eqn:Hw.
    + destruct (Forall2_lookup_l _ _ _ _ _ Hall Hw) as (w' & Hw' & [-> | ->]);
        rewrite Hw'.
      * apply lifecycle_move_refl.
      * apply (completeTask_moves w _ (Hinv i w Hw)).
    + apply lookup_ge_None in Hw. rewrite (Forall2_length _ _ _ Hall) in Hw.
      apply lookup_ge_None in Hw. rewrite Hw. exact I.
  - intros id' (i & w' & Hi & Hsome). left.
    cbn [System.orchestrator_ TaskOrchestrator.with_workers TaskOrchestrator.workers_] in Hi.
    destruct (Forall2_lookup_r _ _ _ _ _ Hall Hi) as (w & Hw & [-> | ->]).
    + exists i, w. auto.
    + exists i, w. split; [exact Hw |].
      exact (completeTask_keeps_ids w _ (Hinv i w Hw) task_id id' Hsome).
Qed.

Lemma step_ok_stats (s : System.t) :
  system_inv s -> step_ok s System.Stats (System.step s System.Stats).
Proof.
  intros Hinv. apply step_ok_same_workers; [exact Hinv | reflexivity | reflexivity].
Qed.

Lemma step_ok_step (s : System.t) (e : System.event) :
  system_inv s ->
  (forall task, e = System.Create task -> fresh task /\ ~ known_id s (Task.id_ task)) ->
  step_ok s e (System.step s e).
Proof.
  intros Hinv Hcreate. destruct e as [task | i | k | task_id |].
  - destruct (Hcreate task eq_refl) as [Hf Hn]. apply step_ok_create; assumption.
  - apply step_ok_dequeue. exact Hinv.
  - apply step_ok_finish. exact Hinv.
  - apply step_ok_complete. exact Hinv.
  - apply step_ok_stats. exact Hinv.
Qed.

(** ** Runs *)

Lemma submitted_cons (e : System.event) (events : list System.event) :
  System.submitted (e :: events)
  = match e with
    | System.Create task => task :: System.submitted events
    | _ => System.submitted events
    end.
Proof. destruct e; reflexivity. Qed.

Lemma submitted_app (events1 events2 : list System.event) :
  System.submitted (events1 ++ events2)
  = System.submitted events1 ++ System.submitted events2.
Proof. unfold System.submitted. apply omap_app. Qed.

(** A run on fresh tasks with distinct, unused ids keeps the invariant,
    and the ids it leaves in the stores are old ones or submitted ones. *)
Lemma run_keeps_inv (events : list System.event) :
  forall s : System.t,
    system_inv s ->
    Forall fresh (System.submitted events) ->
    NoDup (Task.id_ <$> System.submitted events) ->
    (forall task, task ∈ System.submitted events -> ~ known_id s (Task.id_ task)) ->
    system_inv (System.run s events)
    /\ (forall task_id,
          known_id (System.run s events) task_id ->
          known_id s task_id \/ task_id ∈ Task.id_ <$> System.submitted events).
Proof.
  induction events as [| e events IH]; intros s Hinv Hfresh Hnodup Hnew.
  - split; [exact Hinv | auto].
  - rewrite submitted_cons in Hfresh, Hnodup, Hnew.
    assert (Hstep : step_ok s e (System.step s e)).
    { apply step_ok_step; [exact Hinv |]. intros task ->.
      apply Forall_cons in Hfresh. destruct Hfresh as [Hf _].
      split; [exact Hf | apply Hnew; left]. }
    destruct Hstep as (Hinv' & _ & Hknown).
    assert (Htail : Forall fresh (System.submitted events)
                    /\ NoDup (Task.id_ <$> System.submitted events)
                    /\ forall task, task ∈ System.submitted events ->
                                    ~ known_id (System.step s e) (Task.id_ task)).
    { destruct e as [task0 | | | |];
        try (split; [exact Hfresh | split; [exact Hnodup |]];
             intros task Hin Hk; destruct (Hknown _ Hk) as [Hold | (t & Heq & _)];
             [exact (Hnew task Hin Hold) | discriminate Heq]).
      apply Forall_cons in Hfresh. destruct Hfresh as [_ Hfresh].
      rewrite fmap_cons in Hnodup. apply NoDup_cons in Hnodup.
      destruct Hnodup as [Hhead Hnodup].
      split; [exact Hfresh | split; [exact Hnodup |]].
      intros task Hin Hk. destruct (Hknown _ Hk) as [Hold | (t & Heq & Hid)].
      - apply (Hnew task); [right; exact Hin | exact Hold].
      - injection Heq as <-. apply Hhead. rewrite <- Hid.
        apply list_elem_of_fmap. exists task. split; [reflexivity | exact Hin]. }
    destruct Htail as (Hfresh' & Hnodup' & Hnew').
    destruct (IH (System.step s e) Hinv' Hfresh' Hnodup' Hnew') as [Hfinal Hids].
    split; [exact Hfinal |].
    intros task_id Hk. destruct (Hids task_id Hk) as [Hk' | Hin].
    + destruct (Hknown _ Hk') as [Hold | (t & -> & ->)]; [left; exact Hold | right].
      rewrite submitted_cons, fmap_cons. left.
    + right. rewrite submitted_cons.
      destruct e; try exact Hin. rewrite fmap_cons. right. exact Hin.
Qed.

Lemma count_processing_empty : count_processing ∅ = 0%nat.
Proof. unfold count_processing. rewrite map_filter_empty. apply map_size_empty. Qed.

Lemma worker_inv_new (worker_id thread_count : Z) :
  worker_inv (Worker.new worker_id thread_count) [].
Proof.
  constructor; simpl.
  - intros task Hin. apply elem_of_nil in Hin. destruct Hin.
  - intros task Hin. apply elem_of_nil in Hin. destruct Hin.
  - constructor.
  - intros task_id record Hlook. rewrite lookup_empty in Hlook. discriminate.
  - exists 0. unfold processing_count. simpl. rewrite count_processing_empty. reflexivity.
Qed.

Lemma new_worker_lookup (config : OrchestratorConfig.t) (i : nat) (w : Worker.t) :
  TaskOrchestrator.workers_ (TaskOrchestrator.new config) !! i = Some w ->
  w = Worker.new (Z.of_nat i) (OrchestratorConfig.threads_per_worker config).
Proof.
  simpl. rewrite list_lookup_fmap. intros Hl.
  destruct (seq 0 (Z.to_nat (OrchestratorConfig.num_workers config)) !! i) as [j |] eqn:Hj;
    [| discriminate].
  apply lookup_seq in Hj. destruct Hj as [-> _]. simpl in Hl. congruence.
Qed.

Lemma system_inv_init (config : OrchestratorConfig.t) : system_inv (System.init config).
Proof.
  intros i w Hw. apply new_worker_lookup in Hw. subst w. apply worker_inv_new.
Qed.

Lemma init_knows_nothing (config : OrchestratorConfig.t) (task_id : string) :
  ~ known_id (System.init config) task_id.
Proof.
  intros (i & w & Hw & Hsome). apply new_worker_lookup in Hw. subst w.
  simpl in Hsome. rewrite lookup_empty in Hsome. destruct Hsome as [x Hx]. discriminate.
Qed.

Lemma run_from_init (config : OrchestratorConfig.t) (events : list System.event) :
  Forall fresh (System.submitted events) ->
  NoDup (Task.id_ <$> System.submitted events) ->
  system_inv (System.run (System.init config) events)
  /\ (forall task_id,
        known_id (System.run (System.init config) events) task_id ->
        task_id ∈ Task.id_ <$> System.submitted events).
Proof.
  intros Hfresh Hnodup.
  destruct (run_keeps_inv events (System.init config) (system_inv_init config)
              Hfresh Hnodup) as [Hinv Hids].
  { intros task _. apply init_knows_nothing. }
  split; [exact Hinv |]. intros task_id Hk.
  destruct (Hids task_id Hk) as [Hold | Hin]; [| exact Hin].
  destruct (init_knows_nothing config task_id Hold).
Qed.

(** With every [createTask] uninterrupted, on tasks submitted as the
    constructor leaves them under ids used once: every event moves the
    status of every stored record only along PENDING -> PROCESSING ->
    {COMPLETED | FAILED}. *)
Lemma coarse_status_only_advances
    (config : OrchestratorConfig.t) (events : list System.event) (e : System.event)
    (Hfresh : Forall fresh (System.submitted (events ++ [e])))
    (Hdistinct : NoDup (Task.id_ <$> System.submitted (events ++ [e]))) :
  forall (i : nat) (task_id : string),
    lifecycle_move e task_id
      (status_at (System.run (System.init config) events) i task_id)
      (status_at (System.step (System.run (System.init config) events) e) i task_id).
Proof.
  rewrite submitted_app in Hfresh, Hdistinct.
  apply Forall_app in Hfresh. destruct Hfresh as [Hfresh He].
  rewrite fmap_app in Hdistinct. apply NoDup_app in Hdistinct.
  destruct Hdistinct as (Hnodup & Hdisjoint & _).
  destruct (run_from_init config events Hfresh Hnodup) as [Hinv Hids].
  assert (Hstep : step_ok (System.run (System.init config) events) e
                    (System.step (System.run (System.init config) events) e)).
  { apply step_ok_step; [exact Hinv |]. intros task ->.
    simpl in He. apply Forall_cons in He. destruct He as [Hf _].
    split; [exact Hf |]. intros Hk. apply Hids in Hk.
    apply (Hdisjoint _ Hk). simpl. left. }
  destruct Hstep as (_ & Hmoves & _). exact Hmoves.
Qed.

(** ** Statistics *)

Lemma add64_range (a b : Z) : 0 <= add64 a b < two64.
Proof. unfold add64. apply Z.mod_pos_bound. reflexivity. Qed.

Lemma sum_stats_totals (ws : list Worker.t) :
  forall acc : SystemStats.t,
    0 <= SystemStats.total_tasks_processed acc < two64 ->
    0 <= SystemStats.total_tasks_completed acc < two64 ->
    0 <= SystemStats.total_tasks_failed acc < two64 ->
    let total := TaskOrchestrator.sum_stats ws acc in
    SystemStats.total_tasks_processed total
    = (SystemStats.total_tasks_processed acc
       + sum_of (fun w => WorkerStats.tasks_processed (Worker.stats_ w)) ws) mod two64
    /\ SystemStats.total_tasks_completed total
       = (SystemStats.total_tasks_completed acc
          + sum_of (fun w => WorkerStats.tasks_completed (Worker.stats_ w)) ws) mod two64
    /\ SystemStats.total_tasks_failed total
       = (SystemStats.total_tasks_failed acc
          + sum_of (fun w => WorkerStats.tasks_failed (Worker.stats_ w)) ws) mod two64.
Proof.
  induction ws as [| w ws IH]; intros acc Hp Hc Hf; cbn [TaskOrchestrator.sum_stats sum_of foldr].
  - rewrite !Z.add_0_r, !Z.mod_small by assumption. auto.
  - cbv zeta.
    match goal with
    | |- context [TaskOrchestrator.sum_stats ws ?a] =>
        destruct (IH a) as (H1 & H2 & H3); [apply add64_range .. |]
    end.
    rewrite H1, H2, H3. cbn [SystemStats.total_tasks_processed
      SystemStats.total_tasks_completed SystemStats.total_tasks_failed].
    unfold add64, Worker.getStats, sum_of.
    rewrite !Z.add_mod_idemp_l by discriminate.
    rewrite !Z.add_assoc. auto.
Qed.

(** [getSystemStats] returns the sums of the workers' counters, whatever
    totals the orchestrator held before. *)
Lemma getSystemStats_sums (o : TaskOrchestrator.t) :
  let stats := fst (TaskOrchestrator.getSystemStats o) in
  SystemStats.total_tasks_processed stats
  = sum_of (fun w => WorkerStats.tasks_processed (Worker.stats_ w))
      (TaskOrchestrator.workers_ o) mod two64
  /\ SystemStats.total_tasks_completed stats
     = sum_of (fun w => WorkerStats.tasks_completed (Worker.stats_ w))
         (TaskOrchestrator.workers_ o) mod two64
  /\ SystemStats.total_tasks_failed stats
     = sum_of (fun w => WorkerStats.tasks_failed (Worker.stats_ w))
         (TaskOrchestrator.workers_ o) mod two64.
Proof.
  cbn [TaskOrchestrator.getSystemStats fst TaskOrchestrator.updateSystemStats
       TaskOrchestrator.system_stats_].
  apply (sum_stats_totals (TaskOrchestrator.workers_ o)); simpl; split; (lia || reflexivity).
Qed.

Lemma wrapped_sum (c f n k : Z) :
  (c + f + n + k * two64) mod two64 = (c mod two64 + f mod two64 + n) mod two64.
Proof.
  pose proof (Z.mod_eq c two64 ltac:(discriminate)) as Hc.
  pose proof (Z.mod_eq f two64 ltac:(discriminate)) as Hf.
  replace (c + f + n + k * two64)
    with (c mod two64 + f mod two64 + n + (k + c / two64 + f / two64) * two64) by lia.
  apply Z.mod_add. discriminate.
Qed.

Lemma quiescent_counts (ws : list Worker.t) :
  Forall (fun w => worker_inv w []) ws ->
  exists k : Z,
    sum_of (fun w => WorkerStats.tasks_processed (Worker.stats_ w)) ws
    = sum_of (fun w => WorkerStats.tasks_completed (Worker.stats_ w)) ws
      + sum_of (fun w => WorkerStats.tasks_failed (Worker.stats_ w)) ws
      + Z.of_nat (foldr (fun w acc => (processing_count w + acc)%nat) 0%nat ws)
      + k * two64.
Proof.
  induction 1 as [| w ws Hw _ IH]; cbn [sum_of foldr].
  - exists 0. reflexivity.
  - destruct IH as [k Hk]. destruct (inv_count _ _ Hw) as [k0 Hk0].
    simpl length in Hk0. unfold sum_of in Hk.
    exists (k0 + k). rewrite Nat2Z.inj_add. lia.
Qed.

Lemma quiescent_workers (s : System.t) :
  system_inv s -> System.quiescent s ->
  Forall (fun w => worker_inv w []) (TaskOrchestrator.workers_ (System.orchestrator_ s)).
Proof.
  intros Hinv Hq. apply Forall_lookup. intros i w Hw.
  specialize (Hinv i w Hw). unfold System.quiescent in Hq. rewrite Hq in Hinv. exact Hinv.
Qed.

(** With every [createTask] uninterrupted, on tasks submitted as the
    constructor leaves them under ids used once: the totals at a
    quiescent point. *)
Lemma coarse_statistics_invariant
    (config : OrchestratorConfig.t) (events : list System.event)
    (Hfresh : Forall fresh (System.submitted events))
    (Hdistinct : NoDup (Task.id_ <$> System.submitted events))
    (Hquiet : System.quiescent (System.run (System.init config) events)) :
  let o := System.orchestrator_ (System.run (System.init config) events) in
  let stats := fst (TaskOrchestrator.getSystemStats o) in
  SystemStats.total_tasks_processed stats
  = (SystemStats.total_tasks_completed stats + SystemStats.total_tasks_failed stats
     + Z.of_nat (total_processing o)) mod two64
  /\ (SystemStats.total_tasks_completed stats + SystemStats.total_tasks_failed stats
      + Z.of_nat (total_processing o) < two64 ->
      SystemStats.total_tasks_processed stats
      = SystemStats.total_tasks_completed stats + SystemStats.total_tasks_failed stats
        + Z.of_nat (total_processing o))
  /\ (forall o' : TaskOrchestrator.t,
        let stats' := fst (TaskOrchestrator.getSystemStats o') in
        SystemStats.total_tasks_processed stats'
        = sum_of (fun w => WorkerStats.tasks_processed (Worker.stats_ w))
            (TaskOrchestrator.workers_ o') mod two64
        /\ SystemStats.total_tasks_completed stats'
           = sum_of (fun w => WorkerStats.tasks_completed (Worker.stats_ w))
               (TaskOrchestrator.workers_ o') mod two64
        /\ SystemStats.total_tasks_failed stats'
           = sum_of (fun w => WorkerStats.tasks_failed (Worker.stats_ w))
               (TaskOrchestrator.workers_ o') mod two64).
Proof.
  intros o stats.
  destruct (run_from_init config events Hfresh Hdistinct) as [Hinv _].
  destruct (quiescent_counts _ (quiescent_workers _ Hinv Hquiet)) as [k Hk].
  destruct (getSystemStats_sums o) as (Hp & Hc & Hf).
  assert (Hwrapped :
            SystemStats.total_tasks_processed stats
            = (SystemStats.total_tasks_completed stats
               + SystemStats.total_tasks_failed stats
               + Z.of_nat (total_processing o)) mod two64).
  { subst stats. rewrite Hp, Hc, Hf. fold o in Hk. unfold total_processing.
    rewrite Hk. apply wrapped_sum. }
  split; [exact Hwrapped |]. split; [| exact getSystemStats_sums].
  intros Hsmall. rewrite Hwrapped. apply Z.mod_small.
  split; [| exact Hsmall].
  subst stats. rewrite Hc, Hf.
  pose proof (Z.mod_pos_bound
                (sum_of (fun w => WorkerStats.tasks_completed (Worker.stats_ w))
                   (TaskOrchestrator.workers_ o)) two64 ltac:(reflexivity)).
  pose proof (Z.mod_pos_bound
                (sum_of (fun w => WorkerStats.tasks_failed (Worker.stats_ w))
                   (TaskOrchestrator.workers_ o)) two64 ltac:(reflexivity)).
  lia.
Qed.

(** ** Runs in which no [createTask] is interrupted *)

Lemma uninterrupted_step (s : Interleaving.t) (e : System.event) :
  Interleaving.settled s ->
  Interleaving.run s (Interleaving.uninterrupted e)
  = Interleaving.mk (System.orchestrator_ (System.step (Interleaving.coarse s) e)) [] []
      (System.computing_ (System.step (Interleaving.coarse s) e)).
Proof.
  destruct s as [o sel enq comp]. intros [Hs He]. cbn in Hs, He. subst sel enq.
  destruct e as [task | i | k | task_id |]; try reflexivity.
  cbn [Interleaving.uninterrupted Interleaving.run fold_left].
  unfold Interleaving.step at 3.
  cbn [Interleaving.orchestrator_ Interleaving.selected_ Interleaving.enqueued_
       Interleaving.computing_ Interleaving.coarse System.step System.orchestrator_
       System.computing_].
  destruct (TaskOrchestrator.validateTaskInput task) eqn:Hv; cbn [negb].
  2: { rewrite (createTask_rejected o task Hv). reflexivity. }
  destruct (TaskOrchestrator.workers_ o) as [| w0 ws] eqn:Hws.
  { unfold TaskOrchestrator.createTask, TaskOrchestrator.distributeTask.
    rewrite Hv, Hws. reflexivity. }
  assert (Hne : TaskOrchestrator.workers_ o <> []) by (rewrite Hws; discriminate).
  destruct (createTask_accepted o task Hne Hv) as (w & Hw & Hc). cbv zeta in Hw, Hc.
  rewrite Hc. cbn [snd]. rewrite Hws in Hw |- *.
  unfold TaskOrchestrator.selectWorker.
  rewrite Hws.
  set (i := Z.to_nat (TaskOrchestrator.current_worker_ o mod Z.of_nat (length (w0 :: ws))))
    in *.
  assert (Hi : (i < length (w0 :: ws))%nat) by (apply lookup_lt_Some in Hw; exact Hw).
  cbn [app].
  unfold Interleaving.step.
  cbn [Interleaving.orchestrator_ Interleaving.selected_ Interleaving.enqueued_
       Interleaving.computing_ lookup list_lookup TaskOrchestrator.workers_].
  change (list_lookup i (w0 :: ws)) with ((w0 :: ws) !! i). rewrite Hw.
  cbn [Interleaving.orchestrator_ Interleaving.selected_ Interleaving.enqueued_
       Interleaving.computing_ app lookup list_lookup System.set_worker
       TaskOrchestrator.with_workers TaskOrchestrator.workers_].
  rewrite (list_lookup_insert_eq (w0 :: ws) i _ Hi).
  unfold System.set_worker.
  cbn [TaskOrchestrator.with_workers TaskOrchestrator.workers_
       TaskOrchestrator.config_ TaskOrchestrator.current_worker_
       TaskOrchestrator.system_stats_].
  rewrite list_insert_insert_eq. reflexivity.
Qed.

Lemma uninterrupted_run (events : list System.event) :
  forall s : Interleaving.t,
    Interleaving.settled s ->
    Interleaving.run s (Interleaving.schedule events)
    = Interleaving.mk
        (System.orchestrator_ (System.run (Interleaving.coarse s) events)) [] []
        (System.computing_ (System.run (Interleaving.coarse s) events)).
Proof.
  induction events as [| e events IH]; intros s Hs.
  - destruct s as [o sel enq comp]. destruct Hs as [H1 H2]. cbn in H1, H2. subst.
    reflexivity.
  - cbn [Interleaving.schedule flat_map]. unfold Interleaving.run.
    rewrite fold_left_app. fold (Interleaving.run s (Interleaving.uninterrupted e)).
    rewrite (uninterrupted_step s e Hs).
    fold (Interleaving.schedule events).
    match goal with
    | |- fold_left Interleaving.step _ ?s1 = _ =>
        fold (Interleaving.run s1 (Interleaving.schedule events));
        rewrite (IH s1 ltac:(split; reflexivity));
        assert (Hcoarse : Interleaving.coarse s1 = System.step (Interleaving.coarse s) e)
          by (symmetry; apply system_eta);
        rewrite Hcoarse
    end.
    reflexivity.
Qed.

(** A run of [System] is the run of [Interleaving] on the schedule that
    interrupts no [createTask]. *)
Lemma uninterrupted_from_init (config : OrchestratorConfig.t) (events : list System.event) :
  Interleaving.coarse
    (Interleaving.run (Interleaving.init config) (Interleaving.schedule events))
  = System.run (System.init config) events
  /\ Interleaving.settled
       (Interleaving.run (Interleaving.init config) (Interleaving.schedule events)).
Proof.
  rewrite (uninterrupted_run events (Interleaving.init config) ltac:(split; reflexivity)).
  split; [| split; reflexivity].
  unfold Interleaving.coarse. cbn [Interleaving.orchestrator_ Interleaving.computing_].
  symmetry. apply system_eta.
Qed.







(** * Further properties of the code *)

(** ** Names of statuses and priorities *)

(** X1. [taskStatusToString] and [stringToTaskStatus] are inverse to each
    other on the four status names, and every other string reads as
    PENDING. *)
Theorem status_names_round_trip :
  (forall status, stringToTaskStatus (taskStatusToString status) = status)
  /\ (forall name status,
        stringToTaskStatus name = status -> status <> PENDING ->
        name = taskStatusToString status)
  /\ (forall name,
        name <> "pending" -> name <> "processing" -> name <> "completed" ->
        name <> "failed" -> stringToTaskStatus name = PENDING).
Proof.
  split; [intros []; reflexivity |]. split.
  - intros name status Hread Hnot. unfold stringToTaskStatus in Hread.
    destruct (String.eqb_spec name "pending"); [congruence |].
    destruct (String.eqb_spec name "processing"); [subst; reflexivity |].
    destruct (String.eqb_spec name "completed"); [subst; reflexivity |].
    destruct (String.eqb_spec name "failed"); [subst; reflexivity | congruence].
  - intros name H1 H2 H3 H4. unfold stringToTaskStatus.
    apply String.eqb_neq in H1, H2, H3, H4. rewrite H1, H2, H3, H4. reflexivity.
Qed.

(** X2. [stringToPriority] reads back the name [priorityToString] gives
    and also the digit of the priority; every other string reads as
    MEDIUM. *)
Theorem priority_names_round_trip :
  (forall priority, stringToPriority (priorityToString priority) = priority)
  /\ (forall priority,
        stringToPriority (calculations.to_string (Priority_to_int priority)) = priority)
  /\ (forall name priority,
        stringToPriority name = priority -> priority <> MEDIUM ->
        name = priorityToString priority
        \/ name = calculations.to_string (Priority_to_int priority)).
Proof.
  split; [intros []; reflexivity |]. split; [intros []; reflexivity |].
  intros name priority Hread Hnot. unfold stringToPriority in Hread.
  destruct (String.eqb_spec name "low"); [subst; left; reflexivity |].
  destruct (String.eqb_spec name "1"); [subst; right; reflexivity |].
  destruct (String.eqb_spec name "medium"); [simpl in Hread; congruence |].
  destruct (String.eqb_spec name "2"); [simpl in Hread; congruence |].
  destruct (String.eqb_spec name "high"); [subst; left; reflexivity |].
  destruct (String.eqb_spec name "3"); [subst; right; reflexivity |].
  simpl in Hread. congruence.
Qed.

(** ** JSON *)

Lemma to_int32_small (z : Z) : - 2 ^ 31 <= z < 2 ^ 31 -> to_int32 z = z.
Proof. intros Hz. unfold to_int32. rewrite Z.mod_small; lia. Qed.

Lemma Priority_to_int32 (priority : Priority) :
  to_int32 (Priority_to_int priority) = Priority_to_int priority.
Proof. destruct priority; reflexivity. Qed.

(** X3. Reading back what [Task::to_json] wrote gives the same task with a
    new creation time: id, title, priority, data, status, result and error
    message survive the round trip, whatever text the time was printed
    as. *)
Theorem Task_json_round_trip
    (put_time : Z -> string) (now : Z) (task : Task.t)
    (Hint : - 2 ^ 31 <= TaskData.input (Task.data_ task) < 2 ^ 31) :
  Task.from_json now (Task.to_json put_time task)
  = inr (Task.mk (Task.id_ task) (Task.title_ task) (Task.priority_ task) now
           (Task.data_ task) (Task.status_ task) (Task.result_ task)
           (Task.error_message_ task)).
Proof.
  destruct task as [id title priority created [ty inp op] status result error].
  simpl in Hint. unfold Task.to_json. cbn [Task.id_ Task.title_ Task.priority_ Task.created_at_
    Task.data_ Task.status_ Task.result_ Task.error_message_].
  destruct (Task.empty result) eqn:Hres; destruct (Task.empty error) eqn:Herr;
    try (apply empty_true in Hres; subst result);
    try (apply empty_true in Herr; subst error);
    unfold Task.from_json, TaskData.from_json, Task.read_priority, Task.read_optional_string;
    destruct priority; destruct status;
    cbn -[to_int32]; rewrite (to_int32_small inp Hint); reflexivity.
Qed.

Ltac case_result H :=
  match type of H with
  | context [match ?x with inl _ => _ | inr _ => _ end] =>
      lazymatch x with
      | context [match _ with inl _ => _ | inr _ => _ end] => fail
      | _ => let E := fresh "E" in
             destruct x eqn:E; cbv beta iota zeta in H; try discriminate H
      end
  end.

(** What a successful [Task::from_json] has read. *)
Lemma from_json_inr (now : Z) (j : json.t) (task : Task.t) :
  Task.from_json now j = inr task ->
  exists id title priority data status result error,
    Task.read_priority j = inr priority
    /\ Task.read_optional_string j "status" = inr status
    /\ Task.read_optional_string j "result" = inr result
    /\ Task.read_optional_string j "error" = inr error
    /\ task = apply_optional Task.setErrorMessage
                (apply_optional Task.setResult
                   (apply_optional Task.setStatus
                      (Task.create now id title priority data)
                      (stringToTaskStatus <$> status))
                   result)
                error.
Proof.
  unfold Task.from_json. intros H. cbv zeta in H.
  repeat case_result H.
  injection H as <-.
  match goal with
  | Hs : Task.read_optional_string j "status" = inr ?a,
    Hr : Task.read_optional_string j "result" = inr ?b,
    He : Task.read_optional_string j "error" = inr ?c |- _ =>
      do 4 eexists; exists a, b, c;
      do 4 (split; [reflexivity |]);
      destruct a, b, c; reflexivity
  end.
Qed.

Lemma read_optional_absent (j : json.t) (key : string) :
  json.contains j key = false -> Task.read_optional_string j key = inr None.
Proof. intros H. unfold Task.read_optional_string. rewrite H. reflexivity. Qed.

Lemma from_json_throws_invalid_argument (now : Z) (j : json.t) (e : exception) :
  Task.from_json now j = inl e ->
  exists msg, e = invalid_argument ("Invalid Task JSON: " ++ msg)%string.
Proof.
  unfold Task.from_json.
  match goal with
  | |- match ?body with inl _ => _ | inr _ => _ end = _ -> _ => destruct body
  end; [| discriminate].
  intros H. injection H as <-. eauto.
Qed.


(** ** Configuration *)

Lemma from_json_to_json (config : OrchestratorConfig.t) :
  - 2 ^ 31 <= OrchestratorConfig.num_workers config < 2 ^ 31 ->
  - 2 ^ 31 <= OrchestratorConfig.threads_per_worker config < 2 ^ 31 ->
  - 2 ^ 31 <= OrchestratorConfig.orchestrator_port config < 2 ^ 31 ->
  OrchestratorConfig.from_json (OrchestratorConfig.to_json config) = inr config.
Proof.
  destruct config as [workers threads port]. intros Hw Ht Hp. simpl in Hw, Ht, Hp.
  unfold OrchestratorConfig.from_json, OrchestratorConfig.read_field,
    OrchestratorConfig.to_json.
  cbn -[to_int32]. rewrite !to_int32_small by assumption. reflexivity.
Qed.

(** X5. [OrchestratorConfig::from_json] reads back what [to_json] wrote,
    whatever the three values are: nothing is range-checked there; and a
    document with none of the three keys gives the defaults 3, 4 and
    5000. *)
Theorem OrchestratorConfig_json_round_trip :
  (forall config,
     - 2 ^ 31 <= OrchestratorConfig.num_workers config < 2 ^ 31 ->
     - 2 ^ 31 <= OrchestratorConfig.threads_per_worker config < 2 ^ 31 ->
     - 2 ^ 31 <= OrchestratorConfig.orchestrator_port config < 2 ^ 31 ->
     OrchestratorConfig.from_json (OrchestratorConfig.to_json config) = inr config)
  /\ (forall j,
        json.contains j "num_workers" = false ->
        json.contains j "threads_per_worker" = false ->
        json.contains j "orchestrator_port" = false ->
        OrchestratorConfig.from_json j = inr (OrchestratorConfig.mk 3 4 5000)).
Proof.
  split; [exact from_json_to_json |].
  intros j Hw Ht Hp.
  unfold OrchestratorConfig.from_json, OrchestratorConfig.read_field.
  rewrite Hw, Ht, Hp. reflexivity.
Qed.

(** ** The priority comparator *)

Ltac comparator_cases :=
  unfold TaskComparator, Task.getPriority, Task.getCreatedAt;
  repeat match goal with
         | a : Task.t |- _ => destruct a as [? ? [] ? ? ? ? ?]
         end;
  cbn [Task.priority_ Task.created_at_ Priority_to_int negb Z.eqb Z.ltb Z.compare
       Pos.compare Pos.compare_cont];
  rewrite ?Z.gtb_ltb;
  repeat match goal with
         | |- context [Z.ltb ?x ?y] => destruct (Z.ltb_spec x y)
         | H : context [Z.ltb ?x ?y] |- _ => destruct (Z.ltb_spec x y)
         end.

(** X6. [TaskComparator] is a strict weak ordering: irreflexive,
    transitive, and with a transitive incomparability.  A task of lower
    priority always compares below one of higher priority, and among
    tasks of one priority the later created compares below the earlier. *)
Theorem TaskComparator_strict_weak_order :
  (forall a, TaskComparator a a = false)
  /\ (forall a b c,
        TaskComparator a b = true -> TaskComparator b c = true ->
        TaskComparator a c = true)
  /\ (forall a b c,
        TaskComparator a b = false -> TaskComparator b a = false ->
        TaskComparator b c = false -> TaskComparator c b = false ->
        TaskComparator a c = false /\ TaskComparator c a = false)
  /\ (forall a b,
        Priority_to_int (Task.priority_ a) < Priority_to_int (Task.priority_ b) ->
        TaskComparator a b = true /\ TaskComparator b a = false)
  /\ (forall a b,
        Task.priority_ a = Task.priority_ b ->
        (TaskComparator a b = true <-> Task.created_at_ b < Task.created_at_ a)).
Proof.
  split; [| split; [| split; [| split]]].
  - intros a. comparator_cases; reflexivity || lia.
  - intros a b c. comparator_cases; intros; try reflexivity; try discriminate; lia.
  - intros a b c. comparator_cases; intros; try (split; reflexivity); try discriminate; lia.
  - intros a b. comparator_cases; intros; try (split; reflexivity); try discriminate; lia.
  - intros a b. comparator_cases; intros; try discriminate;
      split; intros; try reflexivity; try discriminate; lia.
Qed.

(** ** Factorial on every input *)

Lemma digit_value_inj (c1 c2 : ascii) :
  calculations.digit_value c1 = calculations.digit_value c2 -> c1 = c2.
Proof.
  unfold calculations.digit_value. intros H.
  rewrite <- (ascii_nat_embedding c1), <- (ascii_nat_embedding c2).
  f_equal. lia.
Qed.

Lemma to_string_of_digit (c : ascii) :
  is_digit c = true -> calculations.to_string (calculations.digit_value c) = String c "".
Proof.
  intros Hc. apply is_digit_value in Hc.
  destruct (to_string_digit _ Hc) as (c' & -> & Hv).
  apply digit_value_inj in Hv. subst c'. reflexivity.
Qed.

Lemma digit_char (d : Z) :
  0 <= d <= 9 -> exists c, is_digit c = true /\ calculations.digit_value c = d.
Proof.
  intros Hd. destruct (to_string_digit d Hd) as (c & _ & Hc).
  exists c. split; [apply is_digit_value; lia | exact Hc].
Qed.

Lemma multiply_digits_spec (cs : list ascii) :
  forall i carry,
    forallb is_digit cs = true -> 0 <= i -> 0 <= carry ->
    exists cs' carry',
      calculations.multiply_digits (map calculations.digit_value cs) i carry
      = (map calculations.digit_value cs', carry')
      /\ length cs' = length cs
      /\ forallb is_digit cs' = true
      /\ 0 <= carry'
      /\ le_value cs' + 10 ^ Z.of_nat (length cs) * carry' = le_value cs * i + carry.
Proof.
  induction cs as [| c cs IH]; intros i carry Hd Hi Hcarry.
  - exists [], carry. cbn. repeat split; try reflexivity; lia.
  - cbn [forallb] in Hd. apply andb_true_iff in Hd. destruct Hd as [Hc Hcs].
    apply is_digit_value in Hc.
    cbn [map calculations.multiply_digits].
    set (prod := calculations.digit_value c * i + carry).
    assert (Hprod : 0 <= prod) by (unfold prod; nia).
    rewrite Z.quot_div_nonneg, Z.rem_mod_nonneg by lia.
    destruct (IH i (prod / 10) Hcs Hi ltac:(apply Z.div_pos; lia))
      as (cs' & carry' & Heq & Hlen & Hdig & Hpos & Hval).
    rewrite Heq.
    pose proof (Z.mod_pos_bound prod 10 ltac:(lia)) as Hmod.
    destruct (digit_char (prod mod 10) ltac:(lia)) as (c' & Hc' & Hv').
    exists (c' :: cs'), carry'.
    cbn [map length forallb le_value]. rewrite Hv', Hc', Hdig, Hlen.
    repeat split; try reflexivity; try assumption.
    rewrite Nat2Z.inj_succ, Z.pow_succ_r by lia.
    pose proof (Z.div_mod prod 10 ltac:(lia)) as Hdm. unfold prod in *. nia.
Qed.

Lemma push_carry_spec (fuel : nat) :
  forall carry,
    0 <= carry <= Z.of_nat fuel ->
    exists cs,
      calculations.push_carry fuel carry = map calculations.digit_value cs
      /\ forallb is_digit cs = true
      /\ le_value cs = carry
      /\ (carry = 0 -> cs = [])
      /\ (0 < carry -> 10 ^ (Z.of_nat (length cs) - 1) <= carry /\ cs <> []).
Proof.
  induction fuel as [| fuel IH]; intros carry Hc.
  - exists []. cbn. repeat split; try reflexivity; lia.
  - cbn [calculations.push_carry].
    destruct (Z.eqb_spec carry 0) as [-> | Hne].
    { exists []. cbn. repeat split; try reflexivity; lia. }
    rewrite Z.quot_div_nonneg, Z.rem_mod_nonneg by lia.
    pose proof (Z.div_mod carry 10 ltac:(lia)) as Hdm.
    pose proof (Z.mod_pos_bound carry 10 ltac:(lia)) as Hmod.
    destruct (IH (carry / 10) ltac:(lia)) as (cs & Heq & Hdig & Hval & Hzero & Hpos).
    destruct (digit_char (carry mod 10) ltac:(lia)) as (c & Hcd & Hcv).
    exists (c :: cs). rewrite Heq.
    cbn [map forallb le_value length]. rewrite Hcv, Hcd, Hdig, Hval.
    repeat split; try reflexivity; try lia; try discriminate.
    rewrite Nat2Z.inj_succ.
    destruct (Z.eq_dec (carry / 10) 0) as [H0 | H0].
    + rewrite (Hzero H0). cbn. lia.
    + destruct (Hpos ltac:(lia)) as [Hlow _].
      replace (Z.succ (Z.of_nat (length cs)) - 1)
        with (Z.succ (Z.of_nat (length cs) - 1)) by lia.
      assert (0 < Z.of_nat (length cs)).
      { destruct cs; [cbn in Hval; lia | cbn [length]; lia]. }
      rewrite Z.pow_succ_r by lia. lia.
Qed.

Lemma le_value_app (l1 l2 : list ascii) :
  le_value (l1 ++ l2) = le_value l1 + 10 ^ Z.of_nat (length l1) * le_value l2.
Proof.
  induction l1 as [| c l1 IH]; cbn [le_value length app].
  - cbn. lia.
  - rewrite IH, Nat2Z.inj_succ, Z.pow_succ_r by lia. ring.
Qed.

Lemma factorial_loop_spec (count : nat) :
  forall (k : nat) (cs : list ascii),
    forallb is_digit cs = true -> cs <> [] ->
    le_value cs = fact k ->
    10 ^ (Z.of_nat (length cs) - 1) <= fact k ->
    exists cs',
      calculations.factorial_loop count (Z.of_nat (S k)) (map calculations.digit_value cs)
      = map calculations.digit_value cs'
      /\ forallb is_digit cs' = true /\ cs' <> []
      /\ le_value cs' = fact (k + count)
      /\ 10 ^ (Z.of_nat (length cs') - 1) <= fact (k + count).
Proof.
  induction count as [| count IH]; intros k cs Hd Hne Hval Hlow.
  - exists cs. rewrite Nat.add_0_r. cbn. auto.
  - cbn [calculations.factorial_loop].
    destruct (multiply_digits_spec cs (Z.of_nat (S k)) 0 Hd ltac:(lia) ltac:(lia))
      as (ds & carry & Heq & Hlen & Hdig & Hpos & Hsum).
    rewrite Heq.
    destruct (push_carry_spec (Z.abs_nat carry) carry ltac:(lia))
      as (ps & Hpeq & Hpdig & Hpval & Hpzero & Hppos).
    rewrite Hpeq, <- map_app.
    replace (Z.of_nat (S k) + 1) with (Z.of_nat (S (S k))) by lia.
    replace (k + S count)%nat with (S k + count)%nat by lia.
    assert (Hfact : fact (S k) = Z.of_nat (S k) * fact k) by reflexivity.
    assert (Hone : 1 <= fact k).
    { clear. induction k as [| k IHk]; [cbn; lia |].
      change (fact (S k)) with (Z.of_nat (S k) * fact k). nia. }
    apply IH.
    + rewrite forallb_app, Hdig, Hpdig. reflexivity.
    + destruct ds; [destruct cs; [congruence | discriminate] | discriminate].
    + rewrite le_value_app, Hlen, Hpval, Hfact. lia.
    + rewrite length_app, Nat2Z.inj_add, Hlen, Hfact.
      destruct (Z.eq_dec carry 0) as [H0 | H0].
      * rewrite (Hpzero H0). cbn [length]. rewrite Z.add_0_r. nia.
      * destruct (Hppos ltac:(lia)) as [Hplow Hpne].
        assert (0 < Z.of_nat (length ps)).
        { destruct ps; [congruence | cbn [length]; lia]. }
        replace (Z.of_nat (length cs) + Z.of_nat (length ps) - 1)
          with (Z.of_nat (length cs) + (Z.of_nat (length ps) - 1)) by lia.
        rewrite Z.pow_add_r by lia.
        pose proof (le_value_bounds ds Hdig) as Hb.
        assert (0 < 10 ^ Z.of_nat (length cs)) by (apply Z.pow_pos_nonneg; lia).
        nia.
Qed.

Lemma digits_to_string_fold (cs : list ascii) (acc : string) :
  forallb is_digit cs = true ->
  fold_right (fun d acc => calculations.to_string d ++ acc)%string acc
    (map calculations.digit_value cs)
  = (string_of_list_ascii cs ++ acc)%string.
Proof.
  induction cs as [| c cs IH]; intros Hd; [reflexivity |].
  cbn [forallb] in Hd. apply andb_true_iff in Hd. destruct Hd as [Hc Hcs].
  cbn [map fold_right string_of_list_ascii]. rewrite (IH Hcs), (to_string_of_digit c Hc).
  reflexivity.
Qed.

Lemma digits_to_string_spec (cs : list ascii) :
  forallb is_digit cs = true ->
  list_ascii_of_string (calculations.digits_to_string (map calculations.digit_value cs))
  = rev cs.
Proof.
  intros Hd. unfold calculations.digits_to_string.
  rewrite <- map_rev, digits_to_string_fold by (rewrite forallb_rev; exact Hd).
  rewrite list_ascii_of_string_app, list_ascii_of_string_of_list_ascii.
  apply app_nil_r.
Qed.

(** The digits [factorial] has computed when it leaves its outer loop. *)
Lemma factorial_digits (n : Z) :
  2 <= n ->
  exists cs,
    calculations.factorial n = inr (calculations.digits_to_string
                                      (map calculations.digit_value cs))
    /\ forallb is_digit cs = true /\ cs <> []
    /\ le_value cs = fact (Z.to_nat n)
    /\ 10 ^ (Z.of_nat (length cs) - 1) <= fact (Z.to_nat n).
Proof.
  intros Hn. unfold calculations.factorial.
  destruct (Z.ltb_spec n 0); [lia |].
  destruct (Z.eqb_spec n 0); [lia |]. destruct (Z.eqb_spec n 1); [lia |]. cbn [orb].
  destruct (factorial_loop_spec (Z.to_nat (n - 1)) 1 ["1"%char]
              ltac:(reflexivity) ltac:(discriminate) ltac:(reflexivity) ltac:(cbn; lia))
    as (cs & Heq & Hdig & Hne & Hval & Hlow).
  change (Z.of_nat 2) with 2 in Heq.
  change (map calculations.digit_value ["1"%char]) with [1] in Heq.
  replace (1 + Z.to_nat (n - 1))%nat with (Z.to_nat n) in Hval, Hlow by lia.
  exists cs. rewrite Heq. auto.
Qed.

(** X7. [factorial] is exact on every input, not only up to 20: for
    [n >= 0] it returns the decimal notation of [n!], without a leading
    zero.  Up to [n = 214748364] no product [result[j] * i + carry] of
    the C++ code leaves the range of [int]. *)
Theorem factorial_exact (n : Z) :
  0 <= n <= 214748364 ->
  exists s, calculations.factorial n = inr s /\ decimal_of (fact (Z.to_nat n)) s.
Proof.
  intros Hn.
  destruct (Z.eq_dec n 0) as [-> | H0];
    [exists "1"; split; [reflexivity | split; reflexivity] |].
  destruct (Z.eq_dec n 1) as [-> | H1];
    [exists "1"; split; [reflexivity | split; reflexivity] |].
  destruct (factorial_digits n ltac:(lia)) as (cs & -> & Hdig & Hne & Hval & Hlow).
  eexists. split; [reflexivity |].
  unfold decimal_of. rewrite digits_to_string_spec by exact Hdig.
  rewrite decimal_value_le, rev_involutive, Hval. split; [| lia].
  apply canonical_spec. rewrite forallb_rev, length_rev.
  split; [exact Hdig |].
  split; [intros Hnil; apply (f_equal (@length ascii)) in Hnil;
          rewrite length_rev in Hnil; destruct cs; [congruence | discriminate] |].
  right. rewrite decimal_value_le, rev_involutive, Hval.
  destruct cs as [| c cs]; [congruence |]. cbn [length] in *.
  replace (S (length cs) - 1)%nat with (length cs) by lia.
  replace (Z.of_nat (S (length cs)) - 1) with (Z.of_nat (length cs)) in Hlow by lia.
  lia.
Qed.

Lemma decimal_of_nonempty (z : Z) (s : string) : decimal_of z s -> s <> "".
Proof. intros [Hc _] ->. discriminate Hc. Qed.

Lemma prime_check_loop_verdict (fuel : nat) (n i limit : Z) :
  calculations.prime_check_loop fuel n i limit = "true"
  \/ calculations.prime_check_loop fuel n i limit = "false".
Proof.
  revert i. induction fuel as [| fuel IH]; intros i; cbn [calculations.prime_check_loop].
  - left; reflexivity.
  - destruct (i <=? limit); [| left; reflexivity].
    destruct (Z.rem n i =? 0); [right; reflexivity | apply IH].
Qed.

Lemma prime_check_verdict (n : Z) :
  2 <= n ->
  calculations.prime_check n = inr "true" \/ calculations.prime_check n = inr "false".
Proof.
  intros Hn. unfold calculations.prime_check.
  destruct (Z.ltb_spec n 2); [lia |].
  destruct (n =? 2); [left; reflexivity |].
  destruct (Z.rem n 2 =? 0); [right; reflexivity |].
  destruct (prime_check_loop_verdict (Z.to_nat (Z.sqrt n)) n 3 (Z.sqrt n)) as [-> | ->];
    [left | right]; reflexivity.
Qed.

Lemma factorial_nonempty (n : Z) :
  0 <= n -> exists s, calculations.factorial n = inr s /\ s <> "".
Proof.
  intros Hn.
  destruct (Z.eq_dec n 0) as [-> | H0]; [exists "1"; split; [reflexivity | discriminate] |].
  destruct (Z.eq_dec n 1) as [-> | H1]; [exists "1"; split; [reflexivity | discriminate] |].
  destruct (factorial_digits n ltac:(lia)) as (cs & -> & Hdig & Hne & _).
  eexists. split; [reflexivity |]. intros Hempty.
  apply (f_equal list_ascii_of_string) in Hempty.
  rewrite digits_to_string_spec in Hempty by exact Hdig. cbn in Hempty.
  apply (f_equal (@length ascii)) in Hempty. rewrite length_rev in Hempty.
  destruct cs; [congruence | discriminate].
Qed.

(** The three operations on what [validate_calculation_input] admits. *)
Lemma execute_calculation_valid (operation : string) (input : Z) :
  calculations.validate_calculation_input operation input = true ->
  (operation = "factorial" /\ 0 <= input
   /\ calculations.execute_calculation operation input = calculations.factorial input)
  \/ (operation = "fibonacci" /\ 0 <= input
      /\ calculations.execute_calculation operation input = calculations.fibonacci input)
  \/ (operation = "prime_check" /\ 2 <= input
      /\ calculations.execute_calculation operation input = calculations.prime_check input).
Proof.
  unfold calculations.execute_calculation. intros Hv. rewrite Hv. cbn [negb].
  revert Hv. unfold calculations.validate_calculation_input.
  destruct (String.eqb_spec operation "factorial") as [-> | Hf].
  { intros Hv. left. split; [reflexivity |]. split; [lia | reflexivity]. }
  destruct (String.eqb_spec operation "fibonacci") as [-> | Hb].
  { intros Hv. right; left. split; [reflexivity |]. split; [lia | reflexivity]. }
  destruct (String.eqb_spec operation "prime_check") as [-> | Hp]; [| discriminate].
  intros Hv. right; right. split; [reflexivity |]. split; [lia | reflexivity].
Qed.


(** X8. [execute_calculation] throws exactly when
    [validate_calculation_input] refuses the operation and the input, and
    then always with the one message "Invalid operation or input": the
    messages of [factorial], [fibonacci] and [prime_check] and the
    "Unknown operation" branch are never seen by a caller.  On every
    admitted pair it returns a non-empty string. *)
Theorem execute_calculation_outcome (operation : string) (input : Z) :
  (calculations.validate_calculation_input operation input = false ->
   calculations.execute_calculation operation input
   = inl (invalid_argument "Invalid operation or input"))
  /\ (calculations.validate_calculation_input operation input = true ->
      input <= 214748364 ->
      exists result,
        calculations.execute_calculation operation input = inr result /\ result <> "").
Proof.
  split.
  - intros Hv. unfold calculations.execute_calculation. rewrite Hv. reflexivity.
  - intros Hv _.
    destruct (execute_calculation_valid operation input Hv)
      as [(_ & Hin & ->) | [(_ & Hin & ->) | (_ & Hin & ->)]].
    + destruct (factorial_nonempty input Hin) as (s & -> & Hs).
      exists s. split; [reflexivity | exact Hs].
    + destruct (fibonacci_correct input Hin) as (s & -> & Hs).
      exists s. split; [reflexivity | exact (decimal_of_nonempty _ _ Hs)].
    + destruct (prime_check_verdict input Hin) as [-> | ->]; eexists; split;
        try reflexivity; discriminate.
Qed.

Lemma validated_input_is_admitted (task : Task.t) :
  TaskOrchestrator.validateTaskInput task = true ->
  calculations.validate_calculation_input
    (TaskData.operation (Task.data_ task)) (TaskData.input (Task.data_ task)) = true
  /\ TaskData.input (Task.data_ task) <= 100000.
Proof.
  intros Hv. apply validateTaskInput_spec in Hv.
  destruct Hv as (Hvalid & Hop & Hf & Hb & Hp).
  apply isValid_spec in Hvalid. destruct Hvalid as (_ & _ & _ & _ & Hin & _).
  split; [| lia].
  unfold calculations.validate_calculation_input.
  destruct Hop as [Hop | [Hop | Hop]]; rewrite Hop; cbn.
  - specialize (Hf Hop). lia.
  - specialize (Hb Hop). lia.
  - specialize (Hp Hop). lia.
Qed.

Lemma sum_stats_idle (threads : Z) (g : nat -> Z) (l : list nat) (acc : SystemStats.t) :
  0 <= SystemStats.total_tasks_processed acc < two64 ->
  0 <= SystemStats.total_tasks_completed acc < two64 ->
  0 <= SystemStats.total_tasks_failed acc < two64 ->
  TaskOrchestrator.sum_stats (map (fun i => Worker.new (g i) threads) l) acc = acc.
Proof.
  intros Hp Hc Hf. induction l as [| i l IH]; [reflexivity |].
  cbn [map TaskOrchestrator.sum_stats]. cbv zeta.
  cbn [Worker.getStats Worker.new Worker.stats_ WorkerStats.init WorkerStats.tasks_processed
       WorkerStats.tasks_completed WorkerStats.tasks_failed].
  unfold add64. rewrite !Z.add_0_r, !Z.mod_small by assumption.
  destruct acc. exact IH.
Qed.

Ltac list_head :=
  repeat match goal with
         | |- context [<[0%nat := ?x]> (?a :: ?l)] =>
             change (<[0%nat := x]> (a :: l)) with (x :: l)
         | |- context [(?a :: ?l) !! 0%nat] =>
             change ((a :: l) !! 0%nat) with (Some a)
         end.


(** ** The processing loop of a worker *)

Lemma processTask_queue (w : Worker.t) (task : Task.t) :
  Worker.task_queue_ (Worker.processTask w task) = Worker.task_queue_ w.
Proof.
  rewrite processTask_unfold. unfold Worker.processTask_finish.
  destruct (calculations.execute_calculation _ _); reflexivity.
Qed.

Lemma processTask_processed (w : Worker.t) (task : Task.t) :
  WorkerStats.tasks_processed (Worker.stats_ (Worker.processTask w task))
  = incr64 (WorkerStats.tasks_processed (Worker.stats_ w)).
Proof.
  rewrite processTask_unfold. unfold Worker.processTask_finish.
  destruct (calculations.execute_calculation _ _); reflexivity.
Qed.

Lemma processTaskLoop_snoc (k : nat) (w : Worker.t) :
  Worker.processTaskLoop (S k) w = Worker.processNext (Worker.processTaskLoop k w).
Proof.
  revert w. induction k as [| k IH]; intros w; [reflexivity |].
  change (Worker.processTaskLoop (S (S k)) w)
    with (Worker.processTaskLoop (S k) (Worker.processNext w)).
  rewrite IH. reflexivity.
Qed.

Lemma processTaskLoop_queue (k : nat) (w : Worker.t) :
  Worker.task_queue_ (Worker.processTaskLoop k w) = drop k (Worker.task_queue_ w).
Proof.
  induction k as [| k IH]; [reflexivity |].
  rewrite processTaskLoop_snoc. unfold Worker.processNext. rewrite IH.
  destruct (drop k (Worker.task_queue_ w)) as [| task rest] eqn:Hd.
  - rewrite IH.
    replace (S k) with (k + 1)%nat by lia. rewrite <- drop_drop, Hd. reflexivity.
  - rewrite processTask_queue. cbn [Worker.with_queue Worker.task_queue_].
    replace (S k) with (k + 1)%nat by lia. rewrite <- drop_drop, Hd. reflexivity.
Qed.

(** X10. A worker takes its tasks in the order of their arrival, whatever
    their priority: after [k] rounds of the processing loop the queue has
    lost its first [k] entries, round [k + 1] processes entry [k] of the
    original queue, rounds on an empty queue do nothing, and every round
    that found a task adds one to the processed counter. *)
Theorem processTaskLoop_fifo (k : nat) (w : Worker.t) :
  Worker.task_queue_ (Worker.processTaskLoop k w) = drop k (Worker.task_queue_ w)
  /\ (forall task,
        Worker.task_queue_ w !! k = Some task ->
        Worker.processTaskLoop (S k) w
        = Worker.processTask
            (Worker.with_queue (Worker.processTaskLoop k w)
               (drop (S k) (Worker.task_queue_ w)))
            task)
  /\ ((length (Worker.task_queue_ w) <= k)%nat ->
      Worker.processTaskLoop (S k) w = Worker.processTaskLoop k w)
  /\ WorkerStats.tasks_processed (Worker.stats_ (Worker.processTaskLoop k w)) mod two64
     = (WorkerStats.tasks_processed (Worker.stats_ w)
        + Z.of_nat (Nat.min k (length (Worker.task_queue_ w)))) mod two64.
Proof.
  split; [apply processTaskLoop_queue |]. split; [| split].
  - intros task Hk. rewrite processTaskLoop_snoc. unfold Worker.processNext.
    rewrite processTaskLoop_queue, (drop_S _ _ _ Hk). reflexivity.
  - intros Hlen. rewrite processTaskLoop_snoc. unfold Worker.processNext.
    rewrite processTaskLoop_queue, drop_ge by exact Hlen. reflexivity.
  - induction k as [| k IH].
    + cbn [Worker.processTaskLoop Nat.min Z.of_nat]. rewrite Z.add_0_r. reflexivity.
    + rewrite processTaskLoop_snoc. unfold Worker.processNext.
      rewrite processTaskLoop_queue.
      destruct (drop k (Worker.task_queue_ w)) as [| task rest] eqn:Hd.
      * apply (f_equal length) in Hd. rewrite length_drop in Hd. cbn [length] in Hd.
        rewrite IH. f_equal. lia.
      * apply (f_equal length) in Hd. rewrite length_drop in Hd. cbn [length] in Hd.
        rewrite processTask_processed.
        cbn [Worker.with_queue Worker.stats_].
        unfold incr64. rewrite Z.mod_mod by discriminate.
        rewrite <- Z.add_mod_idemp_l, IH, Z.add_mod_idemp_l by discriminate.
        f_equal. lia.
Qed.

(** ** Lookup and completion across the workers *)

Lemma getTask_workers_Some (ws : list Worker.t) (task_id : string) (task : Task.t) :
  TaskOrchestrator.getTask_workers ws task_id = Some task <->
  exists i w,
    ws !! i = Some w /\ Worker.getTask w task_id = Some task
    /\ forall j w', (j < i)%nat -> ws !! j = Some w' -> Worker.getTask w' task_id = None.
Proof.
  induction ws as [| w0 ws IH]; cbn [TaskOrchestrator.getTask_workers].
  - split; [discriminate | intros (i & w & Hw & _); rewrite lookup_nil in Hw; discriminate].
  - destruct (Worker.getTask w0 task_id) as [task0 |] eqn:H0.
    + split.
      * intros Heq. exists 0%nat, w0. split; [reflexivity |]. split; [congruence |].
        intros j w' Hj. lia.
      * intros (i & w & Hw & Hg & Hfirst). destruct i as [| i].
        -- cbn in Hw. congruence.
        -- specialize (Hfirst 0%nat w0 ltac:(lia) eq_refl). congruence.
    + rewrite IH. split.
      * intros (i & w & Hw & Hg & Hfirst). exists (S i), w.
        split; [exact Hw |]. split; [exact Hg |].
        intros [| j] w' Hj Hw'; [cbn in Hw'; congruence |].
        apply (Hfirst j w'); [lia | exact Hw'].
      * intros (i & w & Hw & Hg & Hfirst). destruct i as [| i].
        -- cbn in Hw. congruence.
        -- exists i, w. split; [exact Hw |]. split; [exact Hg |].
           intros j w' Hj Hw'. apply (Hfirst (S j) w'); [lia | exact Hw'].
Qed.

Lemma getTask_workers_None (ws : list Worker.t) (task_id : string) :
  TaskOrchestrator.getTask_workers ws task_id = None <->
  forall i w, ws !! i = Some w -> Worker.getTask w task_id = None.
Proof.
  induction ws as [| w0 ws IH]; cbn [TaskOrchestrator.getTask_workers].
  - split; [intros _ i w Hw; rewrite lookup_nil in Hw; discriminate | reflexivity].
  - destruct (Worker.getTask w0 task_id) as [task0 |] eqn:H0.
    + split; [discriminate |]. intros Hall. specialize (Hall 0%nat w0 eq_refl). congruence.
    + rewrite IH. split.
      * intros Hall [| i] w Hw; [cbn in Hw; congruence | exact (Hall i w Hw)].
      * intros Hall i w Hw. exact (Hall (S i) w Hw).
Qed.

(** X11. [TaskOrchestrator::getTask] returns the record of the worker of
    lowest index that stores the id, and nothing exactly when no worker
    stores it. *)
Theorem getTask_first_owner (o : TaskOrchestrator.t) (task_id : string) :
  (forall task,
     TaskOrchestrator.getTask o task_id = Some task <->
     exists i w,
       TaskOrchestrator.workers_ o !! i = Some w
       /\ Worker.getTask w task_id = Some task
       /\ forall j w', (j < i)%nat -> TaskOrchestrator.workers_ o !! j = Some w' ->
                       Worker.getTask w' task_id = None)
  /\ (TaskOrchestrator.getTask o task_id = None <->
      forall i w, TaskOrchestrator.workers_ o !! i = Some w ->
                  Worker.getTask w task_id = None).
Proof.
  split; [intros task; apply getTask_workers_Some | apply getTask_workers_None].
Qed.

Lemma completeTask_workers_none (ws : list Worker.t) (task_id : string) :
  (forall i w, ws !! i = Some w -> fst (Worker.completeTask w task_id) = false) ->
  TaskOrchestrator.completeTask_workers ws task_id
  = (false, map (fun w => snd (Worker.completeTask w task_id)) ws).
Proof.
  induction ws as [| w0 ws IH]; intros Hall; [reflexivity |].
  cbn [TaskOrchestrator.completeTask_workers map].
  pose proof (Hall 0%nat w0 eq_refl) as H0.
  destruct (Worker.completeTask w0 task_id) as [ok w0'] eqn:Hc. cbn [fst] in H0. subst ok.
  rewrite IH by (intros i w Hw; exact (Hall (S i) w Hw)). reflexivity.
Qed.

Lemma completeTask_workers_first (ws : list Worker.t) (task_id : string) :
  forall i w,
    ws !! i = Some w ->
    fst (Worker.completeTask w task_id) = true ->
    (forall j w', (j < i)%nat -> ws !! j = Some w' ->
                  fst (Worker.completeTask w' task_id) = false) ->
    TaskOrchestrator.completeTask_workers ws task_id
    = (true,
       map (fun w => snd (Worker.completeTask w task_id)) (take i ws)
       ++ snd (Worker.completeTask w task_id) :: drop (S i) ws).
Proof.
  induction ws as [| w0 ws IH]; intros i w Hw Hok Hfirst.
  - rewrite lookup_nil in Hw. discriminate.
  - cbn [TaskOrchestrator.completeTask_workers]. destruct i as [| i].
    + cbn in Hw. injection Hw as ->.
      destruct (Worker.completeTask w task_id) as [ok w'] eqn:Hc. cbn [fst] in Hok.
      subst ok. reflexivity.
    + pose proof (Hfirst 0%nat w0 ltac:(lia) eq_refl) as H0.
      destruct (Worker.completeTask w0 task_id) as [ok w0'] eqn:Hc. cbn [fst] in H0.
      subst ok.
      rewrite (IH i w Hw Hok)
        by (intros j w' Hj Hw'; apply (Hfirst (S j) w'); [lia | exact Hw']).
      cbn [take drop map app]. rewrite Hc. reflexivity.
Qed.

Lemma first_accepting (ws : list Worker.t) (task_id : string) :
  forall i w,
    ws !! i = Some w -> fst (Worker.completeTask w task_id) = true ->
    exists i0 w0,
      ws !! i0 = Some w0 /\ fst (Worker.completeTask w0 task_id) = true
      /\ forall j w', (j < i0)%nat -> ws !! j = Some w' ->
                      fst (Worker.completeTask w' task_id) = false.
Proof.
  induction ws as [| v ws IH]; intros i w Hw Hc; [rewrite lookup_nil in Hw; discriminate |].
  destruct (fst (Worker.completeTask v task_id)) eqn:Hv.
  - exists 0%nat, v. split; [reflexivity |]. split; [exact Hv |]. intros j w' Hj. lia.
  - destruct i as [| i]; [cbn in Hw; congruence |].
    destruct (IH i w Hw Hc) as (i0 & w0 & Hw0 & Hc0 & Hbefore).
    exists (S i0), w0. split; [exact Hw0 |]. split; [exact Hc0 |].
    intros [| j] w' Hj Hw'; [cbn in Hw'; congruence |].
    apply (Hbefore j w'); [lia | exact Hw'].
Qed.

(** A worker on which [completeTask] would succeed. *)
Lemma ready_iff (w : Worker.t) (task_id : string) :
  fst (Worker.completeTask w task_id) = true <->
  exists task, Worker.getTask w task_id = Some task
               /\ Task.status_ task = PROCESSING /\ Task.result_ task <> "".
Proof.
  split; [apply completeTask_true_inv |].
  intros (task & Hg & Hs & Hr). rewrite (completeTask_success w task_id task Hg Hs Hr).
  reflexivity.
Qed.

Lemma not_ready (w : Worker.t) (task_id : string) :
  ~ (exists task, Worker.getTask w task_id = Some task
                  /\ Task.status_ task = PROCESSING /\ Task.result_ task <> "") ->
  fst (Worker.completeTask w task_id) = false.
Proof.
  intros Hn. destruct (fst (Worker.completeTask w task_id)) eqn:Hc; [| reflexivity].
  apply ready_iff in Hc. destruct (Hn Hc).
Qed.

Lemma orchestrator_completeTask_true_iff (o : TaskOrchestrator.t) (task_id : string) :
  fst (TaskOrchestrator.completeTask o task_id) = true <->
  exists i w, TaskOrchestrator.workers_ o !! i = Some w
              /\ fst (Worker.completeTask w task_id) = true.
Proof.
  unfold TaskOrchestrator.completeTask. split.
  - intros Hok.
    destruct (decide (Exists (fun w => fst (Worker.completeTask w task_id) = true)
                        (TaskOrchestrator.workers_ o))) as [Hex | Hnex].
    + apply Exists_exists in Hex. destruct Hex as (w & Hin & Hc).
      apply list_elem_of_lookup in Hin. destruct Hin as [i Hw]. eauto.
    + rewrite completeTask_workers_none in Hok; [discriminate |].
      intros i w Hw. destruct (fst (Worker.completeTask w task_id)) eqn:Hc; [| reflexivity].
      destruct Hnex. apply Exists_exists. exists w.
      split; [apply list_elem_of_lookup; eauto | exact Hc].
  - intros (i & w & Hw & Hc).
    destruct (first_accepting _ task_id i w Hw Hc) as (i0 & w0 & Hw0 & Hc0 & Hbefore).
    rewrite (completeTask_workers_first _ task_id i0 w0 Hw0 Hc0 Hbefore). reflexivity.
Qed.

(** X12. [TaskOrchestrator::completeTask] asks the workers in index order
    and stops at the first that holds the id as a PROCESSING record with
    a result: that worker completes it and the workers behind it are not
    asked; the workers before it were asked and refused, which may have
    marked a record FAILED there.  When no worker is ready the call
    fails after asking every worker.  Configuration, round-robin counter
    and the stored totals are never touched. *)
Theorem orchestrator_completeTask_first_ready (o : TaskOrchestrator.t) (task_id : string) :
  let ready w :=
    exists task, Worker.getTask w task_id = Some task
                 /\ Task.status_ task = PROCESSING /\ Task.result_ task <> "" in
  let asked w := snd (Worker.completeTask w task_id) in
  let ws := TaskOrchestrator.workers_ o in
  (forall i w,
     ws !! i = Some w -> ready w ->
     (forall j w', (j < i)%nat -> ws !! j = Some w' -> ~ ready w') ->
     TaskOrchestrator.completeTask o task_id
     = (true,
        TaskOrchestrator.with_workers o
          (map asked (take i ws) ++ asked w :: drop (S i) ws)))
  /\ ((forall i w, ws !! i = Some w -> ~ ready w) ->
      TaskOrchestrator.completeTask o task_id
      = (false, TaskOrchestrator.with_workers o (map asked ws)))
  /\ (fst (TaskOrchestrator.completeTask o task_id) = true <->
      exists i w, ws !! i = Some w /\ ready w).
Proof.
  intros ready asked ws. split; [| split].
  - intros i w Hw Hr Hbefore. unfold TaskOrchestrator.completeTask. fold ws.
    rewrite (completeTask_workers_first ws task_id i w Hw (proj2 (ready_iff _ _) Hr))
      by (intros j w' Hj Hw'; apply not_ready; exact (Hbefore j w' Hj Hw')).
    reflexivity.
  - intros Hall. unfold TaskOrchestrator.completeTask. fold ws.
    rewrite completeTask_workers_none
      by (intros i w Hw; apply not_ready; exact (Hall i w Hw)).
    reflexivity.
  - rewrite orchestrator_completeTask_true_iff. fold ws.
    split; intros (i & w & Hw & Hc); exists i, w; (split; [exact Hw |]);
      apply ready_iff; exact Hc.
Qed.

(** ** A created task is visible *)

Lemma getTask_workers_ext (ws ws' : list Worker.t) (task_id : string) :
  Forall2 (fun w w' => Worker.getTask w task_id = Worker.getTask w' task_id) ws ws' ->
  TaskOrchestrator.getTask_workers ws task_id = TaskOrchestrator.getTask_workers ws' task_id.
Proof.
  induction 1 as [| w w' ws ws' Hw _ IH]; [reflexivity |].
  cbn [TaskOrchestrator.getTask_workers]. rewrite Hw, IH. reflexivity.
Qed.

Lemma Forall2_insert_same {A : Type} (R : A -> A -> Prop) (l : list A) (i : nat) (x y : A) :
  (forall a, R a a) -> l !! i = Some x -> R x y -> Forall2 R l (<[i := y]> l).
Proof.
  intros Hrefl Hx Hxy. apply Forall2_same_length_lookup.
  split; [rewrite length_insert; reflexivity |].
  intros j a b Ha Hb. destruct (decide (j = i)) as [-> | Hne].
  - rewrite list_lookup_insert_eq in Hb by (apply lookup_lt_Some in Hx; exact Hx).
    congruence.
  - rewrite list_lookup_insert_ne in Hb by congruence. assert (a = b) by congruence.
    subst b. apply Hrefl.
Qed.

Lemma addTask_getTask (w : Worker.t) (task : Task.t) :
  Worker.getTask (Worker.addTask w task) (Task.id_ task) = Some task.
Proof.
  unfold Worker.getTask, Worker.addTask, Worker.store, Task.getId. simpl.
  apply lookup_insert_eq.
Qed.

Lemma getTask_new_id (o : TaskOrchestrator.t) (task : Task.t) :
  TaskOrchestrator.workers_ o <> [] ->
  TaskOrchestrator.validateTaskInput task = true ->
  TaskOrchestrator.getTask o (Task.id_ task) = None ->
  TaskOrchestrator.getTask (snd (TaskOrchestrator.createTask o task)) (Task.id_ task)
  = Some task.
Proof.
  intros Hne Hv Hnone.
  destruct (createTask_accepted o task Hne Hv) as (w & Hw & Hc).
  cbv zeta in Hw, Hc. rewrite Hc. cbn [snd].
  unfold TaskOrchestrator.getTask in *. cbn [TaskOrchestrator.workers_].
  pose proof (proj1 (getTask_workers_None _ _) Hnone) as Hall.
  apply lookup_lt_Some in Hw as Hi.
  apply getTask_workers_Some. eexists _, (Worker.addTask w task).
  split; [apply list_lookup_insert_eq; exact Hi |]. split; [apply addTask_getTask |].
  intros j w' Hj Hw'. rewrite list_lookup_insert_ne in Hw' by lia.
  exact (Hall j w' Hw').
Qed.

(** X13. Right after [createTask] has accepted a task, [getTask] on its id
    returns the task as it was submitted when the id was new; in any
    case it returns either the new task or the record that was found
    under the id before, which is what happens when a worker of lower
    index already holds the id.  The records of other ids are not
    affected. *)
Theorem createTask_then_getTask (o : TaskOrchestrator.t) (task : Task.t) :
  TaskOrchestrator.workers_ o <> [] ->
  TaskOrchestrator.validateTaskInput task = true ->
  let o' := snd (TaskOrchestrator.createTask o task) in
  (TaskOrchestrator.getTask o (Task.id_ task) = None ->
   TaskOrchestrator.getTask o' (Task.id_ task) = Some task)
  /\ (forall record,
        TaskOrchestrator.getTask o' (Task.id_ task) = Some record ->
        record = task \/ TaskOrchestrator.getTask o (Task.id_ task) = Some record)
  /\ (forall other,
        other <> Task.id_ task ->
        TaskOrchestrator.getTask o' other = TaskOrchestrator.getTask o other).
Proof.
  intros Hne Hv o'. split; [apply getTask_new_id; assumption |].
  destruct (createTask_accepted o task Hne Hv) as (w & Hw & Hc).
  cbv zeta in Hw, Hc.
  set (i := Z.to_nat (TaskOrchestrator.current_worker_ o
                      mod Z.of_nat (length (TaskOrchestrator.workers_ o)))) in *.
  assert (Ho' : TaskOrchestrator.workers_ o'
                = <[i := Worker.addTask w task]> (TaskOrchestrator.workers_ o)).
  { subst o'. rewrite Hc. reflexivity. }
  assert (Hi : (i < length (TaskOrchestrator.workers_ o))%nat)
    by (apply lookup_lt_Some in Hw; exact Hw).
  pose proof (addTask_getTask w task) as Hmine.
  unfold TaskOrchestrator.getTask. rewrite Ho'. split.
  - intros record Hrec. apply getTask_workers_Some in Hrec.
    destruct Hrec as (k & wk & Hk & Hg & Hfirst).
    destruct (lt_eq_lt_dec k i) as [[Hlt | ->] | Hgt].
    + right. apply getTask_workers_Some. exists k, wk.
      rewrite list_lookup_insert_ne in Hk by lia.
      split; [exact Hk |]. split; [exact Hg |].
      intros j w' Hj Hw'. apply (Hfirst j w'); [exact Hj |].
      rewrite list_lookup_insert_ne by lia. exact Hw'.
    + rewrite list_lookup_insert_eq in Hk by exact Hi.
      injection Hk as <-. left. congruence.
    + assert (Hat : <[i := Worker.addTask w task]> (TaskOrchestrator.workers_ o) !! i
                    = Some (Worker.addTask w task))
        by (apply list_lookup_insert_eq; exact Hi).
      pose proof (Hfirst i (Worker.addTask w task) Hgt Hat) as Habs.
      congruence.
  - intros other Hother. symmetry. apply getTask_workers_ext.
    apply (Forall2_insert_same _ _ _ w); [reflexivity | exact Hw |].
    unfold Worker.getTask, Worker.addTask, Worker.store, Task.getId. simpl.
    rewrite lookup_insert_ne by congruence. reflexivity.
Qed.

(** ** Records are never dropped *)

Lemma getTask_known (o : TaskOrchestrator.t) (task_id : string) :
  is_Some (TaskOrchestrator.getTask o task_id) <->
  exists i w, TaskOrchestrator.workers_ o !! i = Some w
              /\ is_Some (Worker.task_storage_ w !! task_id).
Proof.
  unfold TaskOrchestrator.getTask. split.
  - intros [task Ht]. apply getTask_workers_Some in Ht.
    destruct Ht as (i & w & Hw & Hg & _). exists i, w. split; [exact Hw |].
    unfold Worker.getTask in Hg. rewrite Hg. eauto.
  - intros (i & w & Hw & Hs).
    destruct (TaskOrchestrator.getTask_workers (TaskOrchestrator.workers_ o) task_id)
      as [task |] eqn:Hg; [eauto |].
    pose proof (proj1 (getTask_workers_None _ _) Hg i w Hw) as Hnone. clear Hg.
    rename Hnone into Hg.
    unfold Worker.getTask in Hg. rewrite Hg in Hs. destruct Hs as [x Hx]. discriminate.
Qed.

Lemma store_keeps (w : Worker.t) (task : Task.t) (task_id : string) :
  is_Some (Worker.task_storage_ w !! task_id) ->
  is_Some (Worker.task_storage_ (Worker.store w task) !! task_id).
Proof.
  intros Hs. unfold Worker.store. cbn [Worker.with_storage Worker.task_storage_].
  apply lookup_insert_is_Some. destruct (decide (Task.getId task = task_id)); auto.
Qed.

Lemma processTask_finish_keeps (w : Worker.t) (task : Task.t) (task_id : string) :
  is_Some (Worker.task_storage_ w !! task_id) ->
  is_Some (Worker.task_storage_ (Worker.processTask_finish w task) !! task_id).
Proof.
  intros Hs. unfold Worker.processTask_finish.
  destruct (calculations.execute_calculation _ _);
    cbn [Worker.incr_processed Worker.incr_failed Worker.with_stats Worker.task_storage_];
    apply store_keeps; exact Hs.
Qed.

Lemma completeTask_keeps (w : Worker.t) (task_id id' : string) :
  is_Some (Worker.task_storage_ w !! id') <->
  is_Some (Worker.task_storage_ (snd (Worker.completeTask w task_id)) !! id').
Proof.
  unfold Worker.completeTask.
  destruct (Worker.task_storage_ w !! task_id) as [task |] eqn:Hl; [| reflexivity].
  repeat match goal with
         | |- context [if ?b then _ else _] => destruct b
         end; cbn [snd]; try reflexivity;
    unfold Worker.set_record;
    cbn [Worker.incr_completed Worker.with_stats Worker.with_storage Worker.task_storage_];
    rewrite lookup_insert_is_Some;
    (split; [intros Hs; destruct (decide (task_id = id')); auto
            | intros [<- | [_ Hs]]; [rewrite Hl; eauto | exact Hs]]).
Qed.

Lemma known_insert (ws : list Worker.t) (i : nat) (w w' : Worker.t) (task_id : string) :
  ws !! i = Some w ->
  (is_Some (Worker.task_storage_ w !! task_id) ->
   is_Some (Worker.task_storage_ w' !! task_id)) ->
  (exists j v, ws !! j = Some v /\ is_Some (Worker.task_storage_ v !! task_id)) ->
  exists j v, <[i := w']> ws !! j = Some v /\ is_Some (Worker.task_storage_ v !! task_id).
Proof.
  intros Hw Hgrow (j & v & Hv & Hs).
  destruct (decide (j = i)) as [-> | Hne].
  - exists i, w'. split; [apply list_lookup_insert_eq; apply lookup_lt_Some in Hw; exact Hw |].
    apply Hgrow. congruence.
  - exists j, v. split; [rewrite list_lookup_insert_ne by congruence; exact Hv | exact Hs].
Qed.

Lemma step_keeps_known (s : System.t) (e : System.event) (task_id : string) :
  known_id s task_id -> known_id (System.step s e) task_id.
Proof.
  unfold known_id. intros Hk. destruct e as [task | i | k | id' |]; cbn [System.step].
  - cbn [System.orchestrator_].
    destruct (TaskOrchestrator.validateTaskInput task) eqn:Hv.
    + destruct Hk as (j & v & Hv' & Hs).
      assert (Hne : TaskOrchestrator.workers_ (System.orchestrator_ s) <> []).
      { intros E. rewrite E, lookup_nil in Hv'. discriminate. }
      destruct (createTask_accepted _ task Hne Hv) as (w & Hw & Hc).
      rewrite Hc. cbn [snd TaskOrchestrator.workers_].
      apply (known_insert _ _ w); [exact Hw | | eauto].
      intros Hs'. unfold Worker.addTask. apply store_keeps. exact Hs'.
    + rewrite createTask_rejected by exact Hv. exact Hk.
  - destruct (TaskOrchestrator.workers_ (System.orchestrator_ s) !! i) as [w |] eqn:Hw;
      [| exact Hk].
    destruct (Worker.task_queue_ w) as [| task rest] eqn:Hq; [exact Hk |].
    cbn [Worker.processTask_begin System.orchestrator_ System.set_worker
         TaskOrchestrator.with_workers TaskOrchestrator.workers_].
    apply (known_insert _ _ w); [exact Hw | | exact Hk].
    intros Hs. apply store_keeps. exact Hs.
  - destruct (System.computing_ s !! k) as [[i task1] |] eqn:Hc; [| exact Hk].
    destruct (TaskOrchestrator.workers_ (System.orchestrator_ s) !! i) as [w |] eqn:Hw;
      [| exact Hk].
    cbn [System.orchestrator_ System.set_worker
         TaskOrchestrator.with_workers TaskOrchestrator.workers_].
    apply (known_insert _ _ w); [exact Hw | apply processTask_finish_keeps | exact Hk].
  - cbn [System.orchestrator_]. unfold TaskOrchestrator.completeTask.
    pose proof (completeTask_workers_each
                  (TaskOrchestrator.workers_ (System.orchestrator_ s)) id') as Heach.
    destruct (TaskOrchestrator.completeTask_workers _ id') as [ok ws'].
    cbn [snd TaskOrchestrator.with_workers TaskOrchestrator.workers_] in *.
    destruct Hk as (j & v & Hv & Hs).
    destruct (Forall2_lookup_l _ _ _ _ _ Heach Hv) as (v' & Hv' & Hrel).
    exists j, v'. split; [exact Hv' |].
    destruct Hrel as [-> | ->]; [exact Hs | apply completeTask_keeps; exact Hs].
  - exact Hk.
Qed.

(** X14. Nothing ever removes a record: once [getTask] finds an id it
    finds it after every further sequence of submissions, processing
    steps, completion calls and statistics calls. *)
Theorem stored_tasks_are_never_dropped
    (s : System.t) (events : list System.event) (task_id : string) :
  is_Some (TaskOrchestrator.getTask (System.orchestrator_ s) task_id) ->
  is_Some (TaskOrchestrator.getTask (System.orchestrator_ (System.run s events)) task_id).
Proof.
  rewrite !getTask_known. fold (known_id s task_id).
  fold (known_id (System.run s events) task_id).
  revert s. induction events as [| e events IH]; intros s Hk; [exact Hk |].
  cbn [System.run fold_left]. apply (IH (System.step s e)).
  apply step_keeps_known. exact Hk.
Qed.

(** ** The HTTP routes *)

Lemma createTask_no_workers (o : TaskOrchestrator.t) (task : Task.t) :
  TaskOrchestrator.validateTaskInput task = true ->
  TaskOrchestrator.workers_ o = [] ->
  TaskOrchestrator.createTask o task = (inl (runtime_error "No workers available"), o).
Proof.
  intros Hv Hw. unfold TaskOrchestrator.createTask, TaskOrchestrator.distributeTask.
  rewrite Hv, Hw. reflexivity.
Qed.

(** X15. [POST /task/create] answers 200, 400 or 500.  It answers 200
    exactly when the body parses, [Task::from_json] accepts it, the task
    passes validation and there is a worker; the body then carries the
    task's id and the word "pending", whatever status the payload gave
    the task, and the task has been handed to [createTask].  A payload
    that [from_json] or the validation refuses gets 400; a body that does
    not parse, and an orchestrator without workers, get 500.  Unless the
    answer is 200 the orchestrator is left as it was. *)
Theorem post_task_create_status
    (now : Z) (o : TaskOrchestrator.t) (parsed : exception + json.t) :
  let response := fst (routes.post_task_create now o parsed) in
  let o' := snd (routes.post_task_create now o parsed) in
  (routes.status response = 200 \/ routes.status response = 400
   \/ routes.status response = 500)
  /\ (routes.status response = 200 <->
      exists input task,
        parsed = inr input /\ Task.from_json now input = inr task
        /\ TaskOrchestrator.validateTaskInput task = true
        /\ TaskOrchestrator.workers_ o <> [])
  /\ (forall input task,
        parsed = inr input -> Task.from_json now input = inr task ->
        TaskOrchestrator.validateTaskInput task = true ->
        TaskOrchestrator.workers_ o <> [] ->
        response
        = routes.mk 200
            (json.object [ ("message", json.str "Task created successfully");
                           ("task_id", json.str (Task.id_ task));
                           ("status", json.str "pending") ])
        /\ o' = snd (TaskOrchestrator.createTask o task))
  /\ (routes.status response = 500 <->
      (exists e, parsed = inl e /\ forall msg, e <> invalid_argument msg)
      \/ (exists input task,
            parsed = inr input /\ Task.from_json now input = inr task
            /\ TaskOrchestrator.validateTaskInput task = true
            /\ TaskOrchestrator.workers_ o = []))
  /\ (routes.status response <> 200 -> o' = o).
Proof.
  intros response o'. subst response o'. unfold routes.post_task_create.
  destruct parsed as [e | input].
  { destruct e as [msg | msg | msg]; cbn [routes.on_exception fst snd routes.status];
      (split; [auto |]);
      (split; [split; [discriminate | intros (? & ? & ? & _); discriminate] |]);
      (split; [intros ? ? ?; discriminate |]);
      (split; [| reflexivity]).
    - split; [discriminate |].
      intros [(e & He & Hne) | (? & ? & ? & _)]; [| discriminate].
      injection He as <-. destruct (Hne msg eq_refl).
    - split; [intros _; left; eexists; split; [reflexivity | discriminate] | reflexivity].
    - split; [intros _; left; eexists; split; [reflexivity | discriminate] | reflexivity]. }
  destruct (Task.from_json now input) as [e | task] eqn:Hread.
  { destruct (from_json_throws_invalid_argument now input e Hread) as [msg ->].
    cbn [routes.on_exception fst snd routes.status].
    split; [auto |].
    split; [split; [discriminate | intros (? & ? & Hp & Hr & _); congruence] |].
    split; [intros ? ? Hp Hr; congruence |].
    split; [| reflexivity].
    split; [discriminate |].
    intros [(? & ? & _) | (? & ? & Hp & Hr & _)]; [discriminate | congruence]. }
  destruct (TaskOrchestrator.validateTaskInput task) eqn:Hv.
  - destruct (TaskOrchestrator.workers_ o) as [| w0 ws] eqn:Hws.
    + rewrite (createTask_no_workers o task Hv Hws).
      cbn [routes.on_exception fst snd routes.status what].
      split; [auto |].
      split; [split; [discriminate | intros (? & ? & _ & _ & _ & Hne); congruence] |].
      split; [intros ? ? _ _ _ Hne; congruence |].
      split; [| reflexivity].
      split; [| reflexivity].
      intros _. right. exists input, task. auto.
    + assert (Hne : TaskOrchestrator.workers_ o <> []) by (rewrite Hws; discriminate).
      destruct (createTask_accepted o task Hne Hv) as (w & _ & Hc). cbv zeta in Hc.
      rewrite Hc. cbn [fst snd routes.status].
      split; [auto |].
      split; [split; [intros _; exists input, task; rewrite <- Hws; auto | reflexivity] |].
      split.
      { intros input' task' Hp Hr _ _. injection Hp as <-.
        rewrite Hread in Hr. injection Hr as <-. rewrite Hc. split; reflexivity. }
      split; [| congruence].
      split; [discriminate |].
      intros [(? & ? & _) | (? & ? & _ & _ & _ & Hnil)]; [discriminate |].
      rewrite <- Hws in Hnil. congruence.
  - rewrite (createTask_rejected o task Hv).
    cbn [routes.on_exception fst snd routes.status].
    split; [auto |].
    split; [split; [discriminate | intros (? & ? & Hp & Hr & Hv' & _); congruence] |].
    split; [intros ? ? Hp Hr Hv'; congruence |].
    split; [| reflexivity].
    split; [discriminate |].
    intros [(? & ? & _) | (? & ? & Hp & Hr & Hv' & _)]; [discriminate | congruence].
Qed.

Lemma completeTask_workers_keep_ids (ws : list Worker.t) (task_id id' : string) :
  (exists i w, ws !! i = Some w /\ is_Some (Worker.task_storage_ w !! id')) <->
  (exists i w, snd (TaskOrchestrator.completeTask_workers ws task_id) !! i = Some w
               /\ is_Some (Worker.task_storage_ w !! id')).
Proof.
  pose proof (completeTask_workers_each ws task_id) as Heach. split.
  - intros (i & w & Hw & Hs).
    destruct (Forall2_lookup_l _ _ _ _ _ Heach Hw) as (w' & Hw' & Hrel).
    exists i, w'. split; [exact Hw' |].
    destruct Hrel as [-> | ->]; [exact Hs | apply completeTask_keeps; exact Hs].
  - intros (i & w' & Hw' & Hs).
    destruct (Forall2_lookup_r _ _ _ _ _ Heach Hw') as (w & Hw & Hrel).
    exists i, w. split; [exact Hw |].
    destruct Hrel as [-> | ->]; [exact Hs | apply completeTask_keeps in Hs; exact Hs].
Qed.

Lemma orchestrator_completeTask_keeps_ids (o : TaskOrchestrator.t) (task_id id' : string) :
  is_Some (TaskOrchestrator.getTask o id') <->
  is_Some (TaskOrchestrator.getTask (snd (TaskOrchestrator.completeTask o task_id)) id').
Proof.
  rewrite !getTask_known. unfold TaskOrchestrator.completeTask.
  rewrite (completeTask_workers_keep_ids _ task_id id').
  destruct (TaskOrchestrator.completeTask_workers _ task_id) as [ok ws']. reflexivity.
Qed.

(** Completion where [getTask] finds a record that is ready. *)
Lemma completeTask_found_ready (o : TaskOrchestrator.t) (task_id : string) (task : Task.t) :
  TaskOrchestrator.getTask o task_id = Some task ->
  Task.status_ task = PROCESSING -> Task.result_ task <> "" ->
  fst (TaskOrchestrator.completeTask o task_id) = true
  /\ TaskOrchestrator.getTask (snd (TaskOrchestrator.completeTask o task_id)) task_id
     = Some (Task.setStatus task COMPLETED).
Proof.
  intros Hget Hs Hr. unfold TaskOrchestrator.getTask in Hget.
  apply getTask_workers_Some in Hget. destruct Hget as (i & w & Hw & Hg & Hfirst).
  assert (Hc : Worker.completeTask w task_id
               = (true, Worker.incr_completed
                          (Worker.set_record w task_id (Task.setStatus task COMPLETED))))
    by (apply completeTask_success; assumption).
  assert (Hbefore : forall j w', (j < i)%nat -> TaskOrchestrator.workers_ o !! j = Some w' ->
                                 Worker.completeTask w' task_id = (false, w')).
  { intros j w' Hj Hw'. apply completeTask_missing. exact (Hfirst j w' Hj Hw'). }
  unfold TaskOrchestrator.completeTask.
  rewrite (completeTask_workers_first _ task_id i w Hw)
    by (try (rewrite Hc; reflexivity);
        intros j w' Hj Hw'; rewrite (Hbefore j w' Hj Hw'); reflexivity).
  cbn [fst snd]. split; [reflexivity |].
  unfold TaskOrchestrator.getTask. cbn [TaskOrchestrator.with_workers TaskOrchestrator.workers_].
  assert (Hi : (i < length (TaskOrchestrator.workers_ o))%nat)
    by (apply lookup_lt_Some in Hw; exact Hw).
  assert (Hlen : length (map (fun w => snd (Worker.completeTask w task_id))
                           (take i (TaskOrchestrator.workers_ o))) = i).
  { rewrite length_map, length_take. lia. }
  apply getTask_workers_Some. exists i, (snd (Worker.completeTask w task_id)).
  split.
  { rewrite lookup_app_r by lia. rewrite Hlen, Nat.sub_diag. reflexivity. }
  split.
  { rewrite Hc. cbn [snd]. unfold Worker.getTask, Worker.set_record. simpl.
    apply lookup_insert_eq. }
  intros j w' Hj Hw'. rewrite lookup_app_l in Hw' by lia.
  rewrite list_lookup_fmap in Hw'.
  destruct (take i (TaskOrchestrator.workers_ o) !! j) as [v |] eqn:Hv; [| discriminate].
  rewrite lookup_take_lt in Hv by lia.
  cbn in Hw'. injection Hw' as <-. rewrite (Hbefore j v Hj Hv). cbn [snd].
  exact (Hfirst j v Hj Hv).
Qed.

(** ** The patterns of the routes *)

Lemma append_cons (c : ascii) (s tail : string) :
  (String c s ++ tail)%string = String c (s ++ tail)%string.
Proof. reflexivity. Qed.

Lemma append_empty_r (s : string) : (s ++ "")%string = s.
Proof.
  induction s as [| c s IH]; [reflexivity |]. rewrite append_cons, IH. reflexivity.
Qed.

Lemma strip_prefix_inv (literal : string) :
  forall path after,
    routes.strip_prefix literal path = Some after -> path = (literal ++ after)%string.
Proof.
  induction literal as [| a literal IH]; intros path after H; cbn in H.
  - injection H as <-. reflexivity.
  - destruct path as [| b path]; [discriminate |].
    destruct (Ascii.eqb_spec a b) as [<- | Hne]; [| discriminate].
    rewrite (IH path after H). reflexivity.
Qed.

Lemma take_segment_inv (path : string) :
  forall matched rest,
    routes.take_segment path = (matched, rest) ->
    path = (matched ++ rest)%string /\ slash_free matched = true
    /\ (rest = "" \/ exists rest', rest = String "/" rest').
Proof.
  induction path as [| c path IH]; intros matched rest H; cbn in H.
  - injection H as <- <-. auto.
  - destruct (Ascii.eqb_spec c "/"%char) as [-> | Hne].
    + injection H as <- <-. eauto.
    + destruct (routes.take_segment path) as [matched' rest'] eqn:Ht.
      injection H as <- <-. destruct (IH matched' rest' eq_refl) as (-> & Hfree & Hrest).
      split; [reflexivity |]. split; [| exact Hrest].
      cbn [slash_free]. apply Ascii.eqb_neq in Hne. rewrite Hne, Hfree. reflexivity.
Qed.

Lemma take_segment_app (matched rest : string) :
  slash_free matched = true ->
  rest = "" \/ (exists rest', rest = String "/" rest') ->
  routes.take_segment (matched ++ rest) = (matched, rest).
Proof.
  intros Hfree Hrest. induction matched as [| c matched IH].
  - destruct Hrest as [-> | [rest' ->]]; reflexivity.
  - cbn [slash_free] in Hfree. apply andb_true_iff in Hfree. destruct Hfree as [Hc Hfree].
    apply negb_true_iff in Hc. rewrite append_cons. cbn [routes.take_segment].
    rewrite Hc, (IH Hfree). reflexivity.
Qed.

Lemma capture_segment (task_id suffix : string) :
  segment task_id = true ->
  suffix = "" \/ (exists rest', suffix = String "/" rest') ->
  routes.capture ("/task/" ++ task_id ++ suffix) suffix = Some task_id.
Proof.
  intros Hseg Hsuffix. unfold segment in Hseg. apply andb_true_iff in Hseg.
  destruct Hseg as [Hne Hfree]. unfold routes.capture.
  change (routes.strip_prefix "/task/" ("/task/" ++ task_id ++ suffix))
    with (Some (task_id ++ suffix)%string).
  cbv beta iota.
  rewrite (take_segment_app task_id suffix Hfree Hsuffix), Hne, String.eqb_refl.
  reflexivity.
Qed.

Lemma capture_inv (path suffix task_id : string) :
  routes.capture path suffix = Some task_id ->
  segment task_id = true /\ path = ("/task/" ++ task_id ++ suffix)%string.
Proof.
  unfold routes.capture. intros H.
  destruct (routes.strip_prefix "/task/" path) as [after |] eqn:Hp; [| discriminate].
  apply strip_prefix_inv in Hp.
  destruct (routes.take_segment after) as [matched rest] eqn:Ht.
  apply take_segment_inv in Ht. destruct Ht as (-> & Hfree & _).
  destruct (negb (Task.empty matched)) eqn:Hne; [| discriminate].
  destruct (String.eqb_spec rest suffix) as [-> | Hs]; [| discriminate].
  cbn [andb] in H. injection H as <-.
  split; [unfold segment; rewrite Hne, Hfree; reflexivity | exact Hp].
Qed.

Lemma append_inv_tail (a b tail : string) :
  (a ++ tail)%string = (b ++ tail)%string -> a = b.
Proof.
  intros H. apply (f_equal list_ascii_of_string) in H.
  rewrite !list_ascii_of_string_app in H. apply app_inv_tail in H.
  rewrite <- (string_of_list_ascii_of_string a), <- (string_of_list_ascii_of_string b).
  f_equal. exact H.
Qed.

Lemma capture_only_segments (task_id suffix : string) :
  segment task_id = false ->
  routes.capture ("/task/" ++ task_id ++ suffix) suffix = None.
Proof.
  intros Hseg.
  destruct (routes.capture ("/task/" ++ task_id ++ suffix) suffix) as [other |] eqn:Hc;
    [| reflexivity].
  apply capture_inv in Hc. destruct Hc as [Hother Heq].
  rewrite !append_cons in Heq. injection Heq as Heq.
  change (("" ++ task_id ++ suffix)%string = ("" ++ other ++ suffix)%string)
    with ((task_id ++ suffix)%string = (other ++ suffix)%string) in Heq.
  apply append_inv_tail in Heq. subst other. congruence.
Qed.

(** The handler of the completion route on the ids that reach it. *)
Lemma post_task_complete_on_segment (o : TaskOrchestrator.t) (task_id : string) :
  segment task_id = true ->
  let ready :=
    exists i w task,
      TaskOrchestrator.workers_ o !! i = Some w
      /\ Worker.getTask w task_id = Some task
      /\ Task.status_ task = PROCESSING /\ Task.result_ task <> "" in
  exists response o',
    routes.post_task_complete o ("/task/" ++ task_id ++ "/complete") = Some (response, o')
    /\ o' = snd (TaskOrchestrator.completeTask o task_id)
    /\ (routes.status response = 200 <-> ready)
    /\ (routes.status response = 404 <-> TaskOrchestrator.getTask o task_id = None)
    /\ (routes.status response = 400 <->
        is_Some (TaskOrchestrator.getTask o task_id) /\ ~ ready)
    /\ (routes.status response = 400 ->
        exists record,
          TaskOrchestrator.getTask o' task_id = Some record
          /\ json.find (match routes.body response with
                        | json.object fields => fields
                        | _ => []
                        end) "current_status"
             = Some (json.str (taskStatusToString (Task.status_ record))))
    /\ (forall task,
          TaskOrchestrator.getTask o task_id = Some task ->
          Task.status_ task = PROCESSING -> Task.result_ task <> "" ->
          response
          = routes.mk 200
              (json.object [ ("message", json.str "Task marked as completed");
                             ("task_id", json.str task_id);
                             ("status", json.str "completed");
                             ("result", json.str (Task.result_ task)) ])
          /\ TaskOrchestrator.getTask o' task_id = Some (Task.setStatus task COMPLETED)).
Proof.
  intros Hseg ready.
  assert (Hready : fst (TaskOrchestrator.completeTask o task_id) = true <-> ready).
  { rewrite orchestrator_completeTask_true_iff. unfold ready. split.
    - intros (i & w & Hw & Hc). apply ready_iff in Hc. destruct Hc as (task & Hc).
      exists i, w, task. tauto.
    - intros (i & w & task & Hw & Hc). exists i, w. split; [exact Hw |].
      apply ready_iff. eauto. }
  pose proof (orchestrator_completeTask_keeps_ids o task_id task_id) as Hkeep.
  pose proof (completeTask_found_ready o task_id) as Hfound.
  unfold routes.post_task_complete.
  rewrite (capture_segment task_id "/complete" Hseg) by (right; eauto).
  destruct (TaskOrchestrator.completeTask o task_id) as [ok o1] eqn:Hc.
  cbn [fst snd] in Hready, Hkeep, Hfound.
  destruct ok.
  - eexists _, o1. split; [reflexivity |].
    cbn [fst snd routes.status]. split; [reflexivity |].
    split; [split; [intros _; apply Hready; reflexivity | reflexivity] |].
    assert (Hsome : is_Some (TaskOrchestrator.getTask o task_id)).
    { destruct (proj1 Hready eq_refl) as (i & w & task & Hw & Hg & _).
      apply getTask_known. exists i, w. split; [exact Hw |].
      unfold Worker.getTask in Hg. rewrite Hg. eauto. }
    split; [split; [discriminate | intros Hn; rewrite Hn in Hsome;
                                   destruct Hsome; discriminate] |].
    split; [split; [discriminate | intros [_ Hn]; destruct Hn; apply Hready; reflexivity] |].
    split; [discriminate |].
    intros task Hg Hs Hr. destruct (Hfound task Hg Hs Hr) as [_ Hg1].
    rewrite Hg1. unfold Task.getResult. cbn [Task.setStatus Task.result_].
    apply empty_false in Hr. rewrite Hr. cbn. split; reflexivity.
  - assert (Hnot : ~ ready) by (intros Hr; apply Hready in Hr; discriminate).
    destruct (TaskOrchestrator.getTask o1 task_id) as [record |] eqn:Hg1.
    + eexists _, o1. split; [reflexivity |].
      cbn [fst snd routes.status routes.body].
      assert (Hsome : is_Some (TaskOrchestrator.getTask o task_id)) by (apply Hkeep; eauto).
      split; [reflexivity |].
      split; [split; [discriminate | intros Hr; destruct (Hnot Hr)] |].
      split; [split; [discriminate | intros Hn; rewrite Hn in Hsome;
                                     destruct Hsome; discriminate] |].
      split; [split; [auto | reflexivity] |].
      split; [intros _; exists record; split; [exact Hg1 | reflexivity] |].
      intros task Hg Hs Hr. destruct (Hfound task Hg Hs Hr) as [Habs _]. discriminate.
    + eexists _, o1. split; [reflexivity |].
      cbn [fst snd routes.status routes.body].
      assert (Hnone : TaskOrchestrator.getTask o task_id = None).
      { destruct (TaskOrchestrator.getTask o task_id) eqn:Hg; [| reflexivity].
        destruct (proj1 Hkeep ltac:(eauto)) as [x Hx]. discriminate. }
      split; [reflexivity |].
      split; [split; [discriminate | intros Hr; destruct (Hnot Hr)] |].
      split; [split; [intros _; exact Hnone | reflexivity] |].
      split; [split; [discriminate | intros [Hs _]; rewrite Hnone in Hs;
                                     destruct Hs; discriminate] |].
      split; [discriminate |].
      intros task Hg. congruence.
Qed.

(** X16. [POST /task/{id}/complete] runs its handler on the paths
    [/task/ID/complete] whose ID is not empty and has no slash, and on no
    other path: a record whose id contains a slash cannot be completed
    through it.  On such a path the orchestrator is changed as by
    [completeTask]; the answer is 200 exactly when some worker holds the
    id as a PROCESSING record with a result, 404 exactly when no worker
    holds the id, and 400 in between, naming the status the record has
    after the attempt.  When the record [getTask] finds is the one that
    is ready, the answer carries its result and the record is COMPLETED
    afterwards. *)
Theorem post_task_complete_status (o : TaskOrchestrator.t) :
  (forall task_id,
     segment task_id = true ->
     let ready :=
       exists i w task,
         TaskOrchestrator.workers_ o !! i = Some w
         /\ Worker.getTask w task_id = Some task
         /\ Task.status_ task = PROCESSING /\ Task.result_ task <> "" in
     exists response o',
       routes.post_task_complete o ("/task/" ++ task_id ++ "/complete")
       = Some (response, o')
       /\ o' = snd (TaskOrchestrator.completeTask o task_id)
       /\ (routes.status response = 200 <-> ready)
       /\ (routes.status response = 404 <-> TaskOrchestrator.getTask o task_id = None)
       /\ (routes.status response = 400 <->
           is_Some (TaskOrchestrator.getTask o task_id) /\ ~ ready)
       /\ (routes.status response = 400 ->
           exists record,
             TaskOrchestrator.getTask o' task_id = Some record
             /\ json.find (match routes.body response with
                           | json.object fields => fields
                           | _ => []
                           end) "current_status"
                = Some (json.str (taskStatusToString (Task.status_ record))))
       /\ (forall task,
             TaskOrchestrator.getTask o task_id = Some task ->
             Task.status_ task = PROCESSING -> Task.result_ task <> "" ->
             response
             = routes.mk 200
                 (json.object [ ("message", json.str "Task marked as completed");
                                ("task_id", json.str task_id);
                                ("status", json.str "completed");
                                ("result", json.str (Task.result_ task)) ])
             /\ TaskOrchestrator.getTask o' task_id
                = Some (Task.setStatus task COMPLETED)))
  /\ (forall path outcome,
        routes.post_task_complete o path = Some outcome ->
        exists task_id,
          segment task_id = true /\ path = ("/task/" ++ task_id ++ "/complete")%string)
  /\ (forall task_id,
        segment task_id = false ->
        routes.post_task_complete o ("/task/" ++ task_id ++ "/complete") = None).
Proof.
  split; [exact (post_task_complete_on_segment o) |]. split.
  - intros path outcome H. unfold routes.post_task_complete in H.
    destruct (routes.capture path "/complete") as [task_id |] eqn:Hc; [| discriminate].
    exists task_id. apply capture_inv. exact Hc.
  - intros task_id Hseg. unfold routes.post_task_complete.
    rewrite (capture_only_segments task_id "/complete" Hseg). reflexivity.
Qed.

(** X17. A task created through [POST /task/create] under a new id that
    is not empty and has no slash is served by [GET /task/{id}] at once:
    the answer is 200 and its body is the JSON form of the task as
    [Task::from_json] read it, so it shows the status the payload
    carried, not necessarily "pending".  Ids that were unknown and are
    not the new one still get 404.  A task created under an id with a
    slash is stored and cannot be fetched: no path hands its id to the
    handler. *)
Theorem created_task_is_served
    (put_time : Z -> string) (now : Z) (o : TaskOrchestrator.t) (input : json.t)
    (task : Task.t) :
  Task.from_json now input = inr task ->
  routes.status (fst (routes.post_task_create now o (inr input))) = 200 ->
  TaskOrchestrator.getTask o (Task.id_ task) = None ->
  let o' := snd (routes.post_task_create now o (inr input)) in
  TaskOrchestrator.getTask o' (Task.id_ task) = Some task
  /\ (segment (Task.id_ task) = true ->
      routes.get_task put_time o' ("/task/" ++ Task.id_ task)
      = Some (routes.mk 200 (Task.to_json put_time task)))
  /\ (segment (Task.id_ task) = false ->
      routes.get_task put_time o' ("/task/" ++ Task.id_ task) = None
      /\ forall path, routes.capture path "" <> Some (Task.id_ task))
  /\ (forall other,
        segment other = true ->
        other <> Task.id_ task -> TaskOrchestrator.getTask o other = None ->
        routes.get_task put_time o' ("/task/" ++ other)
        = Some (routes.mk 404 (json.object [("error", json.str "Task not found")]))).
Proof.
  intros Hread Hok Hnew o'. subst o'. revert Hok.
  unfold routes.post_task_create. rewrite Hread.
  destruct (TaskOrchestrator.validateTaskInput task) eqn:Hv;
    [| rewrite (createTask_rejected o task Hv); discriminate].
  intros Hok.
  assert (Hne : TaskOrchestrator.workers_ o <> []).
  { intros Hnil. rewrite (createTask_no_workers o task Hv Hnil) in Hok. discriminate. }
  clear Hok.
  pose proof (getTask_new_id o task Hne Hv Hnew) as Hget.
  destruct (createTask_accepted o task Hne Hv) as (w & Hw & Hc). cbv zeta in Hw, Hc.
  rewrite Hc in Hget |- *. cbn [fst snd] in *.
  assert (Hpath : forall id, ("/task/" ++ id)%string = ("/task/" ++ id ++ "")%string)
    by (intros id; rewrite append_empty_r; reflexivity).
  split; [exact Hget |]. split; [| split].
  - intros Hseg. unfold routes.get_task.
    rewrite Hpath, (capture_segment _ "" Hseg) by (left; reflexivity).
    rewrite Hget. reflexivity.
  - intros Hseg. split.
    + unfold routes.get_task.
      rewrite Hpath, (capture_only_segments _ "" Hseg). reflexivity.
    + intros path Hcap. apply capture_inv in Hcap. destruct Hcap as [Hyes _]. congruence.
  - intros other Hseg Hother Hnone. unfold routes.get_task.
    rewrite Hpath, (capture_segment _ "" Hseg) by (left; reflexivity).
    match goal with
    | |- context [TaskOrchestrator.getTask ?o1 other] =>
        assert (Hsame : TaskOrchestrator.getTask o1 other = TaskOrchestrator.getTask o other)
    end.
    { unfold TaskOrchestrator.getTask. cbn [TaskOrchestrator.workers_].
      symmetry. apply getTask_workers_ext.
      apply (Forall2_insert_same _ _ _ w); [reflexivity | exact Hw |].
      unfold Worker.getTask, Worker.addTask, Worker.store, Task.getId. simpl.
      rewrite lookup_insert_ne by congruence. reflexivity. }
    rewrite Hsame, Hnone. reflexivity.
Qed.

(** ** Completion of a record that has no result *)

(** X18. On a PROCESSING record without a result [Worker::completeTask]
    always fails.  When the record has no error message either, nothing
    changes.  When it has one, the record is marked FAILED and nothing
    else changes: no counter moves, the failed counter included, and a
    second call has no effect. *)
Theorem completeTask_without_result (w : Worker.t) (task_id : string) (task : Task.t) :
  Worker.getTask w task_id = Some task ->
  Task.status_ task = PROCESSING ->
  Task.result_ task = "" ->
  let w' := snd (Worker.completeTask w task_id) in
  fst (Worker.completeTask w task_id) = false
  /\ (Task.error_message_ task = "" -> w' = w)
  /\ (Task.error_message_ task <> "" ->
      Worker.getTask w' task_id = Some (Task.setStatus task FAILED)
      /\ (forall other, other <> task_id -> Worker.getTask w' other = Worker.getTask w other)
      /\ Worker.stats_ w' = Worker.stats_ w
      /\ Worker.task_queue_ w' = Worker.task_queue_ w
      /\ Worker.completeTask w' task_id = (false, w')).
Proof.
  intros Hg Hs Hr w'. subst w'. unfold Worker.getTask in *.
  destruct (decide (Task.error_message_ task = "")) as [He | He].
  - rewrite (completeTask_still_computing w task_id task Hg Hr He).
    split; [reflexivity |]. split; [reflexivity | intros Hn; destruct (Hn He)].
  - rewrite (completeTask_lazy_failure w task_id task Hg Hs Hr He). cbn [fst snd].
    split; [reflexivity |]. split; [intros Hn; destruct (He Hn) |]. intros _.
    unfold Worker.set_record. cbn [Worker.with_storage Worker.task_storage_
      Worker.stats_ Worker.task_queue_].
    split; [apply lookup_insert_eq |].
    split; [intros other Hother; apply lookup_insert_ne; congruence |].
    do 2 (split; [reflexivity |]).
    apply (completeTask_not_processing _ _ (Task.setStatus task FAILED)).
    + cbn [Worker.task_storage_]. apply lookup_insert_eq.
    + discriminate.
Qed.

(** ** Statistics *)

(** X19. [getSystemStats] recomputes the three totals as the sums of the
    workers' counters modulo [2^64], whatever totals were stored before;
    it keeps the number of workers it was built with, changes nothing
    but the stored totals, and calling it again gives the same answer. *)
Theorem getSystemStats_recomputes (o : TaskOrchestrator.t) :
  let stats := fst (TaskOrchestrator.getSystemStats o) in
  let o' := snd (TaskOrchestrator.getSystemStats o) in
  SystemStats.total_tasks_processed stats
  = sum_of (fun w => WorkerStats.tasks_processed (Worker.stats_ w))
      (TaskOrchestrator.workers_ o) mod two64
  /\ SystemStats.total_tasks_completed stats
     = sum_of (fun w => WorkerStats.tasks_completed (Worker.stats_ w))
         (TaskOrchestrator.workers_ o) mod two64
  /\ SystemStats.total_tasks_failed stats
     = sum_of (fun w => WorkerStats.tasks_failed (Worker.stats_ w))
         (TaskOrchestrator.workers_ o) mod two64
  /\ SystemStats.total_workers stats
     = SystemStats.total_workers (TaskOrchestrator.system_stats_ o)
  /\ o' = TaskOrchestrator.mk (TaskOrchestrator.config_ o) (TaskOrchestrator.workers_ o)
            (TaskOrchestrator.current_worker_ o) stats
  /\ TaskOrchestrator.getSystemStats o' = (stats, o').
Proof.
  intros stats o'. destruct (getSystemStats_sums o) as (Hp & Hc & Hf).
  split; [exact Hp |]. split; [exact Hc |]. split; [exact Hf |].
  assert (Hworkers : forall ws acc,
             SystemStats.total_workers (TaskOrchestrator.sum_stats ws acc)
             = SystemStats.total_workers acc).
  { induction ws as [| w ws IH]; intros acc; [reflexivity |].
    cbn [TaskOrchestrator.sum_stats]. cbv zeta. rewrite IH. reflexivity. }
  split.
  { subst stats. unfold TaskOrchestrator.getSystemStats, TaskOrchestrator.updateSystemStats.
    cbn [fst TaskOrchestrator.system_stats_]. rewrite Hworkers. reflexivity. }
  split; [reflexivity |].
  subst stats o'. unfold TaskOrchestrator.getSystemStats, TaskOrchestrator.updateSystemStats.
  cbn [fst snd TaskOrchestrator.system_stats_ TaskOrchestrator.workers_
       TaskOrchestrator.config_ TaskOrchestrator.current_worker_].
  rewrite Hworkers. reflexivity.
Qed.

(** ** A newly built orchestrator *)

Lemma new_lookup (config : OrchestratorConfig.t) (i : nat) :
  (i < Z.to_nat (OrchestratorConfig.num_workers config))%nat ->
  TaskOrchestrator.workers_ (TaskOrchestrator.new config) !! i
  = Some (Worker.new (Z.of_nat i) (OrchestratorConfig.threads_per_worker config)).
Proof.
  intros Hi. cbn [TaskOrchestrator.new TaskOrchestrator.workers_].
  rewrite list_lookup_fmap, lookup_seq_lt by exact Hi. reflexivity.
Qed.

(** X20. The constructor builds [num_workers] workers numbered from 0,
    each with [threads_per_worker] threads, an empty queue, an empty
    storage and counters at zero; the round-robin counter starts at 0,
    no id is known and the statistics are all zero.  With
    [num_workers = 0], which a configuration file may say, the
    orchestrator has no worker, and every valid task sent to
    [POST /task/create] is answered 500 "No workers available". *)
Theorem new_orchestrator (config : OrchestratorConfig.t) :
  0 <= OrchestratorConfig.num_workers config ->
  let o := TaskOrchestrator.new config in
  Z.of_nat (length (TaskOrchestrator.workers_ o)) = OrchestratorConfig.num_workers config
  /\ (forall i, (i < length (TaskOrchestrator.workers_ o))%nat ->
        TaskOrchestrator.workers_ o !! i
        = Some (Worker.mk (Z.of_nat i) (OrchestratorConfig.threads_per_worker config)
                  [] ∅ (WorkerStats.mk 0 0 0)))
  /\ TaskOrchestrator.current_worker_ o = 0
  /\ (forall task_id, TaskOrchestrator.getTask o task_id = None)
  /\ fst (TaskOrchestrator.getSystemStats o)
     = SystemStats.mk 0 0 0 (OrchestratorConfig.num_workers config)
  /\ (OrchestratorConfig.num_workers config = 0 ->
      forall now input task,
        Task.from_json now input = inr task ->
        TaskOrchestrator.validateTaskInput task = true ->
        routes.post_task_create now o (inr input)
        = (routes.mk 500
             (json.object
                [("error", json.str "Internal server error: No workers available")]),
           o)).
Proof.
  intros Hn o. pose proof (new_workers_length config) as Hlen. fold o in Hlen.
  split; [rewrite Hlen; lia |].
  split; [intros i Hi; rewrite Hlen in Hi; exact (new_lookup config i Hi) |].
  split; [reflexivity |].
  split.
  { intros task_id. apply getTask_workers_None. intros i w Hw.
    apply new_worker_lookup in Hw. subst w. apply lookup_empty. }
  split.
  { subst o. unfold TaskOrchestrator.getSystemStats, TaskOrchestrator.updateSystemStats,
      TaskOrchestrator.new.
    cbn [fst TaskOrchestrator.system_stats_ TaskOrchestrator.workers_
         SystemStats.total_workers].
    apply sum_stats_idle; cbn; unfold two64; lia. }
  intros H0 now input task Hread Hv.
  assert (Hnil : TaskOrchestrator.workers_ o = []).
  { apply length_zero_iff_nil. rewrite Hlen, H0. reflexivity. }
  unfold routes.post_task_create. rewrite Hread, (createTask_no_workers o task Hv Hnil).
  reflexivity.
Qed.

(** ** Validation and big-number addition *)

(** X21. The orchestrator's own re-check adds nothing:
    [validateTaskInput] accepts exactly the tasks [Task::isValid]
    accepts; and whatever it accepts, [validate_calculation_input]
    admits, so that the calculation of an accepted task is never
    refused. *)
Theorem validateTaskInput_adds_nothing (task : Task.t) :
  TaskOrchestrator.validateTaskInput task = Task.isValid task
  /\ (Task.isValid task = true ->
      calculations.validate_calculation_input
        (TaskData.operation (Task.data_ task)) (TaskData.input (Task.data_ task)) = true).
Proof.
  split; [apply validateTaskInput_isValid |].
  intros Hvalid. rewrite <- validateTaskInput_isValid in Hvalid.
  apply validated_input_is_admitted. exact Hvalid.
Qed.

(** X22. [addStrings] adds: on the decimal notations of two natural
    numbers it returns the decimal notation of their sum, without a
    leading zero. *)
Theorem addStrings_adds (a b : Z) (num1 num2 : string) :
  decimal_of a num1 -> decimal_of b num2 ->
  decimal_of (a + b) (calculations.addStrings num1 num2).
Proof. apply addStrings_spec. Qed.

(** ** The command line *)

Ltac case_flag :=
  match goal with
  | |- context [if ?a || ?b then _ else _] =>
      let Ea := fresh "Ea" in let Eb := fresh "Eb" in
      destruct a eqn:Ea; [| destruct b eqn:Eb]; cbn [orb]
  end.

Lemma parse_arguments_flags
    (stoi : string -> exception + Z) (read_config : string -> option (exception + json.t))
    (n : nat) :
  forall args config result,
    (length args <= n)%nat ->
    Forall (fun arg => arg <> "--config" /\ arg <> "-c") args ->
    within_limits config ->
    main.parse_arguments stoi read_config args config = main.returned result ->
    within_limits result.
Proof.
  induction n as [| n IH]; intros args config result Hlen Hflags Hrange Hparse.
  - destruct args; [cbn in Hparse; congruence | cbn in Hlen; lia].
  - destruct args as [| arg rest]; [cbn in Hparse; congruence |].
    cbn [length] in Hlen. apply Forall_cons in Hflags. destruct Hflags as [[Hc1 Hc2] Hrest].
    cbn [main.parse_arguments] in Hparse. revert Hparse.
    destruct Hrange as (Hw & Ht & Hp).
    case_flag; try discriminate.
    case_flag.
    1, 2: destruct rest as [| value rest']; [discriminate |];
      destruct (stoi value) as [e | v]; [discriminate |];
      destruct ((v <=? 0) || (v >? 50)) eqn:Hv; [discriminate |];
      apply orb_false_iff in Hv; destruct Hv as [Hv1 Hv2];
      apply (IH rest'); [cbn [length] in Hlen; lia
                        | apply Forall_cons in Hrest; tauto
                        | unfold within_limits; cbn; lia].
    case_flag.
    1, 2: destruct rest as [| value rest']; [discriminate |];
      destruct (stoi value) as [e | v]; [discriminate |];
      destruct ((v <=? 0) || (v >? 32)) eqn:Hv; [discriminate |];
      apply orb_false_iff in Hv; destruct Hv as [Hv1 Hv2];
      apply (IH rest'); [cbn [length] in Hlen; lia
                        | apply Forall_cons in Hrest; tauto
                        | unfold within_limits; cbn; lia].
    case_flag.
    1, 2: destruct rest as [| value rest']; [discriminate |];
      destruct (stoi value) as [e | v]; [discriminate |];
      destruct ((v <=? 1024) || (v >? 65535)) eqn:Hv; [discriminate |];
      apply orb_false_iff in Hv; destruct Hv as [Hv1 Hv2];
      apply (IH rest'); [cbn [length] in Hlen; lia
                        | apply Forall_cons in Hrest; tauto
                        | unfold within_limits; cbn; lia].
    case_flag.
    1, 2: match goal with
          | H : String.eqb _ _ = true |- _ => apply String.eqb_eq in H; congruence
          end.
    discriminate.
Qed.

Lemma parse_arguments_app
    (stoi : string -> exception + Z) (read_config : string -> option (exception + json.t))
    (n : nat) :
  forall front back config config',
    (length front <= n)%nat ->
    main.parse_arguments stoi read_config front config = main.returned config' ->
    main.parse_arguments stoi read_config (front ++ back) config
    = main.parse_arguments stoi read_config back config'.
Proof.
  induction n as [| n IH]; intros front back config config' Hlen Hparse.
  - destruct front; [cbn in Hparse; injection Hparse as <-; reflexivity | cbn in Hlen; lia].
  - destruct front as [| arg rest]; [cbn in Hparse; injection Hparse as <-; reflexivity |].
    cbn [length] in Hlen. cbn [app main.parse_arguments] in Hparse |- *. revert Hparse.
    case_flag; try discriminate.
    case_flag.
    1, 2: destruct rest as [| value rest']; [discriminate |]; cbn [app];
      destruct (stoi value) as [e | v]; [discriminate |];
      destruct ((v <=? 0) || (v >? 50)); [discriminate |];
      apply IH; cbn [length] in Hlen; lia.
    case_flag.
    1, 2: destruct rest as [| value rest']; [discriminate |]; cbn [app];
      destruct (stoi value) as [e | v]; [discriminate |];
      destruct ((v <=? 0) || (v >? 32)); [discriminate |];
      apply IH; cbn [length] in Hlen; lia.
    case_flag.
    1, 2: destruct rest as [| value rest']; [discriminate |]; cbn [app];
      destruct (stoi value) as [e | v]; [discriminate |];
      destruct ((v <=? 1024) || (v >? 65535)); [discriminate |];
      apply IH; cbn [length] in Hlen; lia.
    case_flag.
    1, 2: destruct rest as [| value rest']; [discriminate |]; cbn [app];
      destruct (read_config value) as [[e | j] |]; [discriminate | | discriminate];
      destruct (OrchestratorConfig.from_json j) as [e | loaded]; [discriminate |];
      apply IH; cbn [length] in Hlen; lia.
    discriminate.
Qed.

(** X23. A configuration that [parseCommandLine] returns from arguments
    that name no configuration file is within the documented ranges:
    1 to 50 workers, 1 to 32 threads per worker, a port from 1025 to
    65535. *)
Theorem parseCommandLine_checks_flags
    (stoi : string -> exception + Z) (read_config : string -> option (exception + json.t))
    (args : list string) (config : OrchestratorConfig.t) :
  Forall (fun arg => arg <> "--config" /\ arg <> "-c") args ->
  main.parseCommandLine stoi read_config args = main.returned config ->
  1 <= OrchestratorConfig.num_workers config <= 50
  /\ 1 <= OrchestratorConfig.threads_per_worker config <= 32
  /\ 1025 <= OrchestratorConfig.orchestrator_port config <= 65535.
Proof.
  intros Hflags Hparse.
  apply (parse_arguments_flags stoi read_config (length args) args OrchestratorConfig.default config);
    [lia | exact Hflags | unfold within_limits; cbn; lia | exact Hparse].
Qed.

(** X24. A configuration file given last replaces everything: the flags
    before it are forgotten and the loaded values are returned as they
    are, without any of the range checks the flags get, so that a file
    may ask for no worker at all. *)
Theorem parseCommandLine_config_file_unchecked
    (stoi : string -> exception + Z) (read_config : string -> option (exception + json.t))
    (front : list string) (config_file : string)
    (earlier loaded : OrchestratorConfig.t) :
  main.parseCommandLine stoi read_config front = main.returned earlier ->
  read_config config_file = Some (inr (OrchestratorConfig.to_json loaded)) ->
  - 2 ^ 31 <= OrchestratorConfig.num_workers loaded < 2 ^ 31 ->
  - 2 ^ 31 <= OrchestratorConfig.threads_per_worker loaded < 2 ^ 31 ->
  - 2 ^ 31 <= OrchestratorConfig.orchestrator_port loaded < 2 ^ 31 ->
  main.parseCommandLine stoi read_config (front ++ ["--config"; config_file])
  = main.returned loaded.
Proof.
  intros Hfront Hfile Hw Ht Hp. unfold main.parseCommandLine in *.
  rewrite (parse_arguments_app stoi read_config (length front) front _ _ earlier) by (lia || exact Hfront).
  cbn [main.parse_arguments String.eqb Ascii.eqb Bool.eqb orb andb].
  rewrite Hfile, from_json_to_json by assumption. reflexivity.
Qed.

(** ** The counters along a run *)

Lemma incr64_small (x : Z) : 0 <= x < two64 - 1 -> incr64 x = x + 1.
Proof. intros Hx. unfold incr64. apply Z.mod_small. lia. Qed.

Lemma counters_finish (w : Worker.t) (task : Task.t) (bound : Z) :
  counters_within bound w -> bound + 1 < two64 ->
  counters_within (bound + 1) (Worker.processTask_finish w task).
Proof.
  unfold counters_within. intros (Hf & Hp & Hc) Hb. unfold Worker.processTask_finish.
  destruct (calculations.execute_calculation _ _);
    cbn [Worker.incr_processed Worker.incr_failed Worker.store Worker.with_stats
         Worker.with_storage Worker.stats_ WorkerStats.tasks_processed
         WorkerStats.tasks_completed WorkerStats.tasks_failed];
    rewrite ?incr64_small by lia; lia.
Qed.

Lemma counters_completeTask (w : Worker.t) (task_id : string) (bound : Z) :
  counters_within bound w -> bound + 1 < two64 ->
  counters_within (bound + 1) (snd (Worker.completeTask w task_id)).
Proof.
  unfold counters_within. intros (Hf & Hp & Hc) Hb. unfold Worker.completeTask.
  destruct (Worker.task_storage_ w !! task_id) as [task |]; [| cbn [snd]; lia].
  repeat match goal with
         | |- context [if ?b then _ else _] => destruct b
         end;
    cbn [snd Worker.incr_completed Worker.set_record Worker.with_stats
         Worker.with_storage Worker.stats_ WorkerStats.tasks_processed
         WorkerStats.tasks_completed WorkerStats.tasks_failed];
    rewrite ?incr64_small by lia; lia.
Qed.

Lemma counters_weaken (w : Worker.t) (bound : Z) :
  counters_within bound w -> counters_within (bound + 1) w.
Proof. unfold counters_within. lia. Qed.

Lemma counters_insert (ws : list Worker.t) (i : nat) (w' : Worker.t) (bound : Z) :
  (forall j w, ws !! j = Some w -> counters_within bound w) ->
  counters_within (bound + 1) w' ->
  forall j w, <[i := w']> ws !! j = Some w -> counters_within (bound + 1) w.
Proof.
  intros Hall Hw' j w Hj. destruct (decide (j = i)) as [-> | Hne].
  - apply list_lookup_insert_Some in Hj. destruct Hj as [(_ & <- & _) | (Hn & _)];
      [exact Hw' | congruence].
  - rewrite list_lookup_insert_ne in Hj by congruence.
    apply counters_weaken. exact (Hall j w Hj).
Qed.

Lemma counters_step (s : System.t) (e : System.event) (bound : Z) :
  (forall i w, TaskOrchestrator.workers_ (System.orchestrator_ s) !! i = Some w ->
               counters_within bound w) ->
  bound + 1 < two64 ->
  forall i w,
    TaskOrchestrator.workers_ (System.orchestrator_ (System.step s e)) !! i = Some w ->
    counters_within (bound + 1) w.
Proof.
  intros Hall Hb.
  assert (Hsame : forall i w,
             TaskOrchestrator.workers_ (System.orchestrator_ s) !! i = Some w ->
             counters_within (bound + 1) w)
    by (intros i w Hw; apply counters_weaken; exact (Hall i w Hw)).
  destruct e as [task | k | k | task_id |]; cbn [System.step].
  - cbn [System.orchestrator_].
    destruct (TaskOrchestrator.validateTaskInput task) eqn:Hv;
      [| rewrite createTask_rejected by exact Hv; exact Hsame].
    destruct (TaskOrchestrator.workers_ (System.orchestrator_ s)) as [| w0 ws] eqn:Hws.
    + unfold TaskOrchestrator.createTask, TaskOrchestrator.distributeTask.
      rewrite Hv, Hws. cbn [negb snd]. rewrite Hws. exact Hsame.
    + assert (Hne : TaskOrchestrator.workers_ (System.orchestrator_ s) <> [])
        by (rewrite Hws; discriminate).
      destruct (createTask_accepted _ task Hne Hv) as (w & Hw & Hc). cbv zeta in Hw, Hc.
      rewrite Hc. cbn [snd TaskOrchestrator.workers_]. rewrite Hws in *.
      apply counters_insert; [exact Hall |].
      apply counters_weaken. exact (Hall _ w Hw).
  - destruct (TaskOrchestrator.workers_ (System.orchestrator_ s) !! k) as [w |] eqn:Hw;
      [| exact Hsame].
    destruct (Worker.task_queue_ w) as [| task rest] eqn:Hq; [exact Hsame |].
    cbn [Worker.processTask_begin System.orchestrator_ System.set_worker
         TaskOrchestrator.with_workers TaskOrchestrator.workers_].
    apply counters_insert; [exact Hall |].
    apply counters_weaken. exact (Hall k w Hw).
  - destruct (System.computing_ s !! k) as [[i task1] |] eqn:Hc; [| exact Hsame].
    destruct (TaskOrchestrator.workers_ (System.orchestrator_ s) !! i) as [w |] eqn:Hw;
      [| exact Hsame].
    cbn [System.orchestrator_ System.set_worker
         TaskOrchestrator.with_workers TaskOrchestrator.workers_].
    apply counters_insert; [exact Hall |].
    apply counters_finish; [exact (Hall i w Hw) | exact Hb].
  - cbn [System.orchestrator_]. unfold TaskOrchestrator.completeTask.
    pose proof (completeTask_workers_each
                  (TaskOrchestrator.workers_ (System.orchestrator_ s)) task_id) as Heach.
    destruct (TaskOrchestrator.completeTask_workers _ task_id) as [ok ws'].
    cbn [snd TaskOrchestrator.with_workers TaskOrchestrator.workers_] in *.
    intros i w' Hw'.
    destruct (Forall2_lookup_r _ _ _ _ _ Heach Hw') as (w & Hw & Hrel).
    destruct Hrel as [-> | ->]; [exact (Hsame i w Hw) |].
    apply counters_completeTask; [exact (Hall i w Hw) | exact Hb].
  - exact Hsame.
Qed.

Lemma counters_run (events : list System.event) :
  forall (s : System.t) (bound : Z),
    (forall i w, TaskOrchestrator.workers_ (System.orchestrator_ s) !! i = Some w ->
                 counters_within bound w) ->
    bound + Z.of_nat (length events) < two64 ->
    forall i w,
      TaskOrchestrator.workers_ (System.orchestrator_ (System.run s events)) !! i = Some w ->
      counters_within (bound + Z.of_nat (length events)) w.
Proof.
  induction events as [| e events IH]; intros s bound Hall Hb.
  - cbn [length Z.of_nat System.run fold_left]. rewrite Z.add_0_r. exact Hall.
  - cbn [length] in *. rewrite Nat2Z.inj_succ in *.
    replace (bound + Z.succ (Z.of_nat (length events)))
      with (bound + 1 + Z.of_nat (length events)) by lia.
    change (System.run s (e :: events)) with (System.run (System.step s e) events).
    apply IH; [apply counters_step; [exact Hall | lia] | lia].
Qed.

(** X25. In every run from a newly built orchestrator, of fewer than
    [2^64] events, each worker's counters are ordered and bounded: the
    failed counter never exceeds the processed counter, and neither the
    processed nor the completed counter exceeds the number of events so
    far, so that no counter has wrapped around. *)
Theorem counters_stay_ordered
    (config : OrchestratorConfig.t) (events : list System.event) (i : nat) (w : Worker.t) :
  Z.of_nat (length events) < two64 ->
  TaskOrchestrator.workers_ (System.orchestrator_ (System.run (System.init config) events))
    !! i = Some w ->
  0 <= WorkerStats.tasks_failed (Worker.stats_ w)
    <= WorkerStats.tasks_processed (Worker.stats_ w)
  /\ WorkerStats.tasks_processed (Worker.stats_ w) <= Z.of_nat (length events)
  /\ 0 <= WorkerStats.tasks_completed (Worker.stats_ w) <= Z.of_nat (length events).
Proof.
  intros Hlen Hw.
  assert (Hinit : forall j v,
             TaskOrchestrator.workers_ (System.orchestrator_ (System.init config)) !! j
             = Some v -> counters_within 0 v).
  { intros j v Hv. apply new_worker_lookup in Hv. subst v.
    unfold counters_within. cbn. lia. }
  exact (counters_run events (System.init config) 0 Hinit Hlen i w Hw).
Qed.

(** ** The hypotheses hold on sample inputs *)

Lemma Task_json_round_trip_witness :
  - 2 ^ 31 <= TaskData.input (Task.data_ forged_task) < 2 ^ 31
  /\ Task.from_json 7 (Task.to_json (fun _ => "2025-01-01T00:00:00Z") forged_task)
     = inr (Task.mk "test-forged" "Calculate factorial" MEDIUM 7
              (TaskData.mk "calculation" 20 "factorial") PROCESSING "forged" "").
Proof.
  assert (Hint : - 2 ^ 31 <= TaskData.input (Task.data_ forged_task) < 2 ^ 31)
    by (cbn; lia).
  split; [exact Hint |].
  exact (Task_json_round_trip (fun _ => "2025-01-01T00:00:00Z") 7 forged_task Hint).
Defined.

Lemma factorial_exact_witness :
  0 <= 25 <= 214748364
  /\ exists s, calculations.factorial 25 = inr s /\ decimal_of (fact (Z.to_nat 25)) s.
Proof. split; [lia | apply (factorial_exact 25); lia]. Defined.


Lemma createTask_then_getTask_witness :
  TaskOrchestrator.workers_ (TaskOrchestrator.new sample_config) <> []
  /\ TaskOrchestrator.validateTaskInput sample_task = true
  /\ TaskOrchestrator.getTask
       (snd (TaskOrchestrator.createTask (TaskOrchestrator.new sample_config) sample_task))
       "test-001"
     = Some sample_task.
Proof.
  assert (Hne : TaskOrchestrator.workers_ (TaskOrchestrator.new sample_config) <> [])
    by (vm_compute; discriminate).
  split; [exact Hne |]. split; [exact sample_task_valid |].
  apply (createTask_then_getTask (TaskOrchestrator.new sample_config) sample_task
           Hne sample_task_valid).
  reflexivity.
Defined.

Lemma stored_tasks_are_never_dropped_witness :
  is_Some (TaskOrchestrator.getTask
             (System.orchestrator_
                (System.step (System.init sample_config) (System.Create sample_task)))
             "test-001")
  /\ is_Some (TaskOrchestrator.getTask
                (System.orchestrator_
                   (System.run
                      (System.step (System.init sample_config) (System.Create sample_task))
                      [System.Dequeue 0; System.Finish 0; System.Complete "test-001"]))
                "test-001").
Proof.
  assert (Hknown : is_Some (TaskOrchestrator.getTask
                              (System.orchestrator_
                                 (System.step (System.init sample_config)
                                    (System.Create sample_task)))
                              "test-001"))
    by (exists sample_task; reflexivity).
  split; [exact Hknown |].
  exact (stored_tasks_are_never_dropped _
           [System.Dequeue 0; System.Finish 0; System.Complete "test-001"] "test-001" Hknown).
Defined.

Lemma created_task_is_served_witness :
  Task.from_json 0 forged_payload = inr forged_task
  /\ routes.status
       (fst (routes.post_task_create 0 (TaskOrchestrator.new sample_config)
               (inr forged_payload))) = 200
  /\ TaskOrchestrator.getTask (TaskOrchestrator.new sample_config) "test-forged" = None
  /\ segment "test-forged" = true
  /\ routes.get_task (fun _ => "1970-01-01T00:00:00Z")
       (snd (routes.post_task_create 0 (TaskOrchestrator.new sample_config)
               (inr forged_payload)))
       "/task/test-forged"
     = Some (routes.mk 200 (Task.to_json (fun _ => "1970-01-01T00:00:00Z") forged_task)).
Proof.
  assert (Hread : Task.from_json 0 forged_payload = inr forged_task) by reflexivity.
  assert (Hok : routes.status
                  (fst (routes.post_task_create 0 (TaskOrchestrator.new sample_config)
                          (inr forged_payload))) = 200) by reflexivity.
  assert (Hnew : TaskOrchestrator.getTask (TaskOrchestrator.new sample_config)
                   (Task.id_ forged_task) = None) by reflexivity.
  split; [exact Hread |]. split; [exact Hok |]. split; [exact Hnew |].
  split; [reflexivity |].
  destruct (created_task_is_served (fun _ => "1970-01-01T00:00:00Z") 0
              (TaskOrchestrator.new sample_config) forged_payload forged_task
              Hread Hok Hnew) as (_ & Hserved & _).
  exact (Hserved eq_refl).
Defined.

Lemma completeTask_without_result_witness :
  Worker.getTask (Worker.store sample_worker stalled_task) "test-stalled" = Some stalled_task
  /\ Task.status_ stalled_task = PROCESSING
  /\ Task.result_ stalled_task = ""
  /\ Worker.completeTask (Worker.store sample_worker stalled_task) "test-stalled"
     = (false,
        Worker.set_record (Worker.store sample_worker stalled_task) "test-stalled"
          (Task.setStatus stalled_task FAILED)).
Proof.
  assert (Hget : Worker.getTask (Worker.store sample_worker stalled_task) "test-stalled"
                 = Some stalled_task) by reflexivity.
  split; [exact Hget |]. split; [reflexivity |]. split; [reflexivity |].
  pose proof (completeTask_without_result (Worker.store sample_worker stalled_task)
                "test-stalled" stalled_task Hget eq_refl eq_refl) as (Hfalse & _ & _).
  destruct (Worker.completeTask (Worker.store sample_worker stalled_task) "test-stalled")
    as [ok w'] eqn:Hc.
  cbn [fst] in Hfalse. subst ok. f_equal.
  apply (f_equal snd) in Hc. cbn [snd] in Hc. rewrite <- Hc. reflexivity.
Defined.

Lemma new_orchestrator_witness :
  0 <= OrchestratorConfig.num_workers sample_config
  /\ Z.of_nat (length (TaskOrchestrator.workers_ (TaskOrchestrator.new sample_config))) = 3
  /\ fst (TaskOrchestrator.getSystemStats (TaskOrchestrator.new sample_config))
     = SystemStats.mk 0 0 0 3.
Proof.
  assert (Hn : 0 <= OrchestratorConfig.num_workers sample_config) by (cbn; lia).
  split; [exact Hn |].
  destruct (new_orchestrator sample_config Hn) as (Hlen & _ & _ & _ & Hstats & _).
  split; [exact Hlen | exact Hstats].
Defined.

Lemma addStrings_adds_witness :
  decimal_of 95 "95" /\ decimal_of 7 "7"
  /\ decimal_of (95 + 7) (calculations.addStrings "95" "7").
Proof.
  assert (H95 : decimal_of 95 "95") by (split; reflexivity).
  assert (H7 : decimal_of 7 "7") by (split; reflexivity).
  split; [exact H95 |]. split; [exact H7 |].
  exact (addStrings_adds 95 7 "95" "7" H95 H7).
Defined.

Lemma parseCommandLine_checks_flags_witness :
  Forall (fun arg => arg <> "--config" /\ arg <> "-c") ["--workers"; "5"; "-t"; "5"]
  /\ main.parseCommandLine sample_stoi sample_files ["--workers"; "5"; "-t"; "5"]
     = main.returned (OrchestratorConfig.mk 5 5 5000)
  /\ within_limits (OrchestratorConfig.mk 5 5 5000).
Proof.
  assert (Hflags : Forall (fun arg => arg <> "--config" /\ arg <> "-c")
                     ["--workers"; "5"; "-t"; "5"])
    by (repeat constructor; discriminate).
  assert (Hparse : main.parseCommandLine sample_stoi sample_files
                     ["--workers"; "5"; "-t"; "5"]
                   = main.returned (OrchestratorConfig.mk 5 5 5000)) by reflexivity.
  split; [exact Hflags |]. split; [exact Hparse |].
  exact (parseCommandLine_checks_flags sample_stoi sample_files _ _ Hflags Hparse).
Defined.

Lemma parseCommandLine_config_file_unchecked_witness :
  main.parseCommandLine sample_stoi sample_files ["--workers"; "5"]
  = main.returned (OrchestratorConfig.mk 5 4 5000)
  /\ sample_files "pool.json" = Some (inr (OrchestratorConfig.to_json empty_pool_config))
  /\ main.parseCommandLine sample_stoi sample_files
       (["--workers"; "5"] ++ ["--config"; "pool.json"])
     = main.returned empty_pool_config.
Proof.
  assert (Hfront : main.parseCommandLine sample_stoi sample_files ["--workers"; "5"]
                   = main.returned (OrchestratorConfig.mk 5 4 5000)) by reflexivity.
  split; [exact Hfront |]. split; [reflexivity |].
  apply (parseCommandLine_config_file_unchecked sample_stoi sample_files
           ["--workers"; "5"] "pool.json" (OrchestratorConfig.mk 5 4 5000)
           empty_pool_config Hfront eq_refl); cbn; lia.
Defined.

Lemma counters_stay_ordered_witness :
  Z.of_nat (length ordinary_run) < two64
  /\ exists w,
       TaskOrchestrator.workers_
         (System.orchestrator_ (System.run (System.init sample_config) ordinary_run))
         !! 0%nat = Some w
       /\ 0 <= WorkerStats.tasks_failed (Worker.stats_ w)
            <= WorkerStats.tasks_processed (Worker.stats_ w).
Proof.
  assert (Hlen : Z.of_nat (length ordinary_run) < two64) by reflexivity.
  split; [exact Hlen |].
  destruct (TaskOrchestrator.workers_
              (System.orchestrator_ (System.run (System.init sample_config) ordinary_run))
              !! 0%nat) as [w |] eqn:Hw; [| vm_compute in Hw; discriminate].
  exists w. split; [reflexivity |].
  exact (proj1 (counters_stay_ordered sample_config ordinary_run 0 w Hlen Hw)).
Defined.
